(** * bookapp: inventory resolution, cover fetching and result aggregation

    A shallow embedding of the logic of [app.py]: the catalog index
    ([build_inventory_lookup]), the resolver ([find_in_inventory], with the
    approximate matching it delegates to Python's [difflib]), the cover
    fetcher ([get_book_cover]) and the aggregator
    ([check_inventory_with_images]).

    Conventions.
    - A Python [str] is a [string]; its characters are the code points
      below 256, on which [str.lower] and [str.strip] act as Python's do.
    - A Python [dict] is an association list in insertion order with unique
      keys: the resolver iterates over the keys of the index, so the order
      is part of the behaviour.
    - A similarity score (a Python float [2.0*M/T]) is the exact rational
      [2M/T]; a cutoff is the rational its caller writes.
    - A call that may raise returns a [result]: [Ok v] or [Raise e].
    - [difflib] is embedded from the module of Python 3.11, with the
      defaults [get_close_matches] uses: no junk function, and the
      automatic junk heuristic for a second sequence of 200 elements or
      more.
    - The memoisation of [find_in_inventory] and [get_book_cover] by
      [lru_cache], and of [check_inventory_with_images] by
      [st.cache_data], is left out: the first is a function of the index
      and of the titles kept in the session, which are part of the model,
      and the cover fetcher is stated for one answer of the network per
      URL.  The caches of [load_inventory] and [build_inventory_lookup]
      are modelled.
    - [response.json()] raises [requests.exceptions.JSONDecodeError] on a
      body that is not JSON, a [RequestException] since requests 2.27.
    - The pool of [check_inventory_with_images] runs its tasks in the
      order of submission on the session; the order in which
      [as_completed] yields the futures is a parameter. *)

From Stdlib Require Import List String Ascii Bool Arith ZArith QArith Lia.
From Stdlib Require Import Permutation OrderedTypeEx.
Import ListNotations.

Local Close Scope Q_scope.
Local Open Scope string_scope.
Local Open Scope list_scope.
Local Open Scope bool_scope.
Local Open Scope nat_scope.

Set Implicit Arguments.

(** ** Exceptions and results *)

Inductive exn : Type :=
| ValueError
| KeyError
| IndexError
| TypeError
| AttributeError
| RequestException.

Inductive result (A : Type) : Type :=
| Ok (v : A)
| Raise (e : exn).

Arguments Ok {A} v.
Arguments Raise {A} e.

Definition bind {A B : Type} (m : result A) (k : A -> result B) : result B :=
  match m with
  | Ok v => k v
  | Raise e => Raise e
  end.

Declare Scope py_scope.
Delimit Scope py_scope with py.
Notation "x <- m ;; k" := (bind m (fun x => k))
  (at level 61, m at next level, right associativity) : py_scope.

Definition raises {A : Type} (m : result A) : bool :=
  match m with
  | Ok _ => false
  | Raise _ => true
  end.

(** ** The Python string operations the program uses *)

Module Py.

Definition code (c : ascii) : nat := nat_of_ascii c.

(** [str.isspace] on one character. *)
Definition is_space (c : ascii) : bool :=
  let n := code c in
  ((9 <=? n) && (n <=? 13)) || ((28 <=? n) && (n <=? 32))
  || (n =? 133) || (n =? 160).

(** [str.lower] on one character. *)
Definition lower_char (c : ascii) : ascii :=
  let n := code c in
  if ((65 <=? n) && (n <=? 90))
     || ((192 <=? n) && (n <=? 222) && negb (n =? 215))
  then ascii_of_nat (n + 32)
  else c.

Fixpoint lower (s : string) : string :=
  match s with
  | EmptyString => EmptyString
  | String c s' => String (lower_char c) (lower s')
  end.

Definition is_empty (s : string) : bool :=
  match s with
  | EmptyString => true
  | String _ _ => false
  end.

(** [c in chars], for a one-character [c]. *)
Fixpoint mem (c : ascii) (chars : string) : bool :=
  match chars with
  | EmptyString => false
  | String d chars' => Ascii.eqb c d || mem c chars'
  end.

Fixpoint lstrip_by (p : ascii -> bool) (s : string) : string :=
  match s with
  | EmptyString => EmptyString
  | String c s' => if p c then lstrip_by p s' else s
  end.

Fixpoint rstrip_by (p : ascii -> bool) (s : string) : string :=
  match s with
  | EmptyString => EmptyString
  | String c s' =>
      let r := rstrip_by p s' in
      if is_empty r && p c then EmptyString else String c r
  end.

Definition strip_by (p : ascii -> bool) (s : string) : string :=
  rstrip_by p (lstrip_by p s).

(** [s.strip()] *)
Definition strip (s : string) : string := strip_by is_space s.

(** [s.strip(chars)] *)
Definition strip_chars (chars s : string) : string :=
  strip_by (fun c => mem c chars) s.

(** [s.split(sep)] for a one-character separator: at least one part. *)
Fixpoint split (sep : ascii) (s : string) : list string :=
  match s with
  | EmptyString => [EmptyString]
  | String c s' =>
      if Ascii.eqb c sep then EmptyString :: split sep s'
      else match split sep s' with
           | [] => [String c EmptyString]
           | p :: ps => String c p :: ps
           end
  end.

(** [s.split(sep, 1)] for a one-character separator: one or two parts. *)
Fixpoint split1 (sep : ascii) (s : string) : list string :=
  match s with
  | EmptyString => [EmptyString]
  | String c s' =>
      if Ascii.eqb c sep then [EmptyString; s']
      else match split1 sep s' with
           | [] => [String c EmptyString]
           | p :: ps => String c p :: ps
           end
  end.

Fixpoint drop (n : nat) (s : string) : string :=
  match n, s with
  | O, _ => s
  | S _, EmptyString => EmptyString
  | S n', String _ s' => drop n' s'
  end.

(** [s.replace(old, new)] for a non-empty [old]: the occurrences of [old]
    are replaced from left to right, without overlap.  [skip] counts the
    characters of an occurrence already replaced. *)
Fixpoint replace_from (skip : nat) (old new s : string) : string :=
  match s with
  | EmptyString => EmptyString
  | String c s' =>
      match skip with
      | S k => replace_from k old new s'
      | O =>
          if prefix old s
          then (new ++ replace_from (String.length old - 1) old new s')%string
          else String c (replace_from 0 old new s')
      end
  end.

(** With an empty [old] Python puts [new] before every character and at
    the end. *)
Fixpoint intersperse (new s : string) : string :=
  match s with
  | EmptyString => new
  | String c s' => (new ++ String c (intersperse new s'))%string
  end.

Definition replace (old new s : string) : string :=
  if is_empty old then intersperse new s else replace_from 0 old new s.

End Py.

(** ** The aggregator's line parser ([check_inventory_with_images], the
       first loop) *)

Module Parser.

Definition separator : ascii := "-"%char.
Definition numbering : string := "1234567890. ".

(** The body of the loop for one line: the pair appended to [book_tasks],
    if any. *)
Definition parse_line (line : string) : option (string * string) :=
  if Py.mem separator line then
    match Py.split1 separator line with
    | [p0; p1] =>
        let book_title := Py.strip (Py.strip_chars numbering p0) in
        let author := Py.strip p1 in
        if Py.is_empty book_title || Py.is_empty author then None
        else Some (book_title, author)
    | _ => None
    end
  else None.

Fixpoint collect (lines : list string) : list (string * string) :=
  match lines with
  | [] => []
  | line :: rest =>
      match parse_line line with
      | Some task => task :: collect rest
      | None => collect rest
      end
  end.

Definition newline : ascii := ascii_of_nat 10.

Definition parse_books (suggestions : string) : list (string * string) :=
  collect (Py.split newline suggestions).

End Parser.

(** ** Python dictionaries

    Keys are compared with a decidable equality; a dictionary keeps its
    keys in insertion order, and assigning to a key already present keeps
    the key's place. *)

Class EqKey (K : Type) : Type := { keqb : K -> K -> bool }.

#[export] Instance EqKey_nat : EqKey nat := {| keqb := Nat.eqb |}.
#[export] Instance EqKey_ascii : EqKey ascii := {| keqb := Ascii.eqb |}.
#[export] Instance EqKey_string : EqKey string := {| keqb := String.eqb |}.

Definition pair_eqb {A B : Type} `{EqKey A} `{EqKey B} (x y : A * B) : bool :=
  keqb (fst x) (fst y) && keqb (snd x) (snd y).

#[export] Instance EqKey_pair {A B : Type} `{EqKey A} `{EqKey B} : EqKey (A * B) :=
  {| keqb := pair_eqb |}.

(** The key equality of a dictionary decides equality. *)
Class EqKeyLaws (K : Type) {E : EqKey K} : Prop := {
  keqb_eq : forall x y : K, keqb x y = true <-> x = y
}.

Arguments EqKeyLaws K {E}.

Module Dict.
Section Ops.
Context {K V : Type} `{EqKey K}.

Definition t : Type := list (K * V).

(** [d.get(k)] *)
Fixpoint get (d : t) (k : K) : option V :=
  match d with
  | [] => None
  | (k', v) :: d' => if keqb k k' then Some v else get d' k
  end.

(** [d.get(k, default)] *)
Definition get_default (d : t) (k : K) (default : V) : V :=
  match get d k with
  | Some v => v
  | None => default
  end.

(** [k in d] *)
Definition contains (d : t) (k : K) : bool :=
  match get d k with
  | Some _ => true
  | None => false
  end.

(** [d[k] = v] *)
Fixpoint set (d : t) (k : K) (v : V) : t :=
  match d with
  | [] => [(k, v)]
  | (k', v') :: d' =>
      if keqb k k' then (k', v) :: d' else (k', v') :: set d' k v
  end.

(** [d.keys()], in iteration order *)
Definition keys (d : t) : list K := map fst d.

End Ops.
Arguments t : clear implicits.
End Dict.

(** ** Python's [difflib]: [SequenceMatcher] with [isjunk=None] and
       [autojunk=True], and [get_close_matches] *)

Module Difflib.

Definition block : Type := nat * nat * nat.
Definition region : Type := nat * nat * nat * nat.

Fixpoint enumerate_from {A : Type} (i : nat) (l : list A) : list (nat * A) :=
  match l with
  | [] => []
  | x :: l' => (i, x) :: enumerate_from (S i) l'
  end.

(** [_calculate_ratio(matches, length)] *)
Definition calculate_ratio (matches length : nat) : Q :=
  if length =? 0 then 1%Q
  else Qmake (2 * Z.of_nat matches) (Pos.of_nat length).

Section Matcher.

(** [a] is the first sequence ([set_seq1]), [b] the second ([set_seq2]). *)
Variables a b : list ascii.

(** [__chain_b]: for each element of [b] the ascending list of its
    positions; when [b] has 200 elements or more, the elements occurring
    more than [len(b) // 100 + 1] times are deleted. *)
Definition chain_b : Dict.t ascii (list nat) :=
  let b2j :=
    fold_left
      (fun (d : Dict.t ascii (list nat)) (ie : nat * ascii) =>
         let (i, elt) := ie in
         Dict.set d elt (Dict.get_default d elt [] ++ [i]))
      (enumerate_from 0 b) [] in
  let n := List.length b in
  if 200 <=? n then
    let ntest := n / 100 + 1 in
    filter (fun ei : ascii * list nat => negb (ntest <? List.length (snd ei))) b2j
  else b2j.

(** [bjunk] is empty without an [isjunk] function. *)
Definition isbjunk (c : ascii) : bool := false.

(** [a[i] == b[j]], both indices in range. *)
Definition same_elt (i j : nat) : bool :=
  match nth_error a i, nth_error b j with
  | Some x, Some y => Ascii.eqb x y
  | _, _ => false
  end.

Definition junk_at (j : nat) : bool :=
  match nth_error b j with
  | Some y => isbjunk y
  | None => false
  end.

Section Longest.

Variable b2j : Dict.t ascii (list nat).
Variables alo ahi blo bhi : nat.

(** [j2lenget(j-1, 0)]: for [j = 0] the key is [-1], never present. *)
Definition prev_len (j2len : Dict.t nat nat) (j : nat) : nat :=
  match j with
  | O => 0
  | S j' => Dict.get_default j2len j' 0
  end.

(** The inner loop [for j in b2j.get(a[i], nothing)], with its [continue]
    and its [break]. *)
Fixpoint scan_row (i : nat) (js : list nat) (j2len newj2len : Dict.t nat nat)
    (best : block) : Dict.t nat nat * block :=
  match js with
  | [] => (newj2len, best)
  | j :: js' =>
      if j <? blo then scan_row i js' j2len newj2len best
      else if bhi <=? j then (newj2len, best)
      else
        let k := prev_len j2len j + 1 in
        let '(_, _, bestsize) := best in
        let best' := if bestsize <? k then (i + 1 - k, j + 1 - k, k) else best in
        scan_row i js' j2len (Dict.set newj2len j k) best'
  end.

(** The outer loop [for i in range(alo, ahi)]. *)
Fixpoint scan_rows (rows : list nat) (j2len : Dict.t nat nat) (best : block)
    : block :=
  match rows with
  | [] => best
  | i :: rows' =>
      let js :=
        match nth_error a i with
        | Some x => Dict.get_default b2j x []
        | None => []
        end in
      let (newj2len, best') := scan_row i js j2len [] best in
      scan_rows rows' newj2len best'
  end.

(** [while besti > alo and bestj > blo and isbjunk(b[bestj-1]) == junk and
    a[besti-1] == b[bestj-1]], by recursion on [besti]. *)
Fixpoint extend_left (junk : bool) (besti bestj bestsize : nat) : block :=
  match besti with
  | O => (besti, bestj, bestsize)
  | S i' =>
      if (alo <? besti) && (blo <? bestj)
         && Bool.eqb (junk_at (bestj - 1)) junk
         && same_elt i' (bestj - 1)
      then extend_left junk i' (bestj - 1) (bestsize + 1)
      else (besti, bestj, bestsize)
  end.

(** [while besti+bestsize < ahi and bestj+bestsize < bhi and
    isbjunk(b[bestj+bestsize]) == junk and
    a[besti+bestsize] == b[bestj+bestsize]]; [room] is
    [ahi - (besti+bestsize)], the number of turns the first test allows. *)
Fixpoint extend_right (room : nat) (junk : bool) (besti bestj bestsize : nat)
    : nat :=
  match room with
  | O => bestsize
  | S room' =>
      if (besti + bestsize <? ahi) && (bestj + bestsize <? bhi)
         && Bool.eqb (junk_at (bestj + bestsize)) junk
         && same_elt (besti + bestsize) (bestj + bestsize)
      then extend_right room' junk besti bestj (bestsize + 1)
      else bestsize
  end.

Definition find_longest_match : block :=
  let best := scan_rows (seq alo (ahi - alo)) [] (alo, blo, 0) in
  let '(besti, bestj, bestsize) := best in
  let '(besti, bestj, bestsize) := extend_left false besti bestj bestsize in
  let bestsize :=
    extend_right (ahi - (besti + bestsize)) false besti bestj bestsize in
  let '(besti, bestj, bestsize) := extend_left true besti bestj bestsize in
  let bestsize :=
    extend_right (ahi - (besti + bestsize)) true besti bestj bestsize in
  (besti, bestj, bestsize).

End Longest.

(** [get_matching_blocks], the loop over [queue]: the list's head is the
    end of the Python list, where [pop] and [append] work.  [None] when
    [fuel] turns do not empty the queue. *)
Fixpoint blocks_loop (b2j : Dict.t ascii (list nat)) (fuel : nat)
    (queue : list region) (matching_blocks : list block)
    : option (list block) :=
  match queue with
  | [] => Some matching_blocks
  | (alo, ahi, blo, bhi) :: queue' =>
      match fuel with
      | O => None
      | S fuel' =>
          let '(i, j, k) := find_longest_match b2j alo ahi blo bhi in
          if k =? 0 then blocks_loop b2j fuel' queue' matching_blocks
          else
            let q1 :=
              if (alo <? i) && (blo <? j)
              then (alo, i, blo, j) :: queue' else queue' in
            let q2 :=
              if (i + k <? ahi) && (j + k <? bhi)
              then (i + k, ahi, j + k, bhi) :: q1 else q1 in
            blocks_loop b2j fuel' q2 (matching_blocks ++ [(i, j, k)])
      end
  end.

(** Tuple comparison [x <= y] on blocks. *)
Definition block_leb (x y : block) : bool :=
  let '(i1, j1, k1) := x in
  let '(i2, j2, k2) := y in
  (i1 <? i2) || ((i1 =? i2) && ((j1 <? j2) || ((j1 =? j2) && (k1 <=? k2)))).

Fixpoint insert_block (x : block) (l : list block) : list block :=
  match l with
  | [] => [x]
  | y :: l' => if block_leb x y then x :: l else y :: insert_block x l'
  end.

(** [matching_blocks.sort()] *)
Definition sort_blocks (l : list block) : list block :=
  fold_right insert_block [] l.

(** The loop that collapses adjacent blocks; [cur] is [(i1, j1, k1)]. *)
Fixpoint collapse (cur : block) (l : list block) : list block :=
  let '(i1, j1, k1) := cur in
  match l with
  | [] => if k1 =? 0 then [] else [cur]
  | (i2, j2, k2) :: l' =>
      if (i1 + k1 =? i2) && (j1 + k1 =? j2)
      then collapse (i1, j1, k1 + k2) l'
      else if k1 =? 0 then collapse (i2, j2, k2) l'
           else cur :: collapse (i2, j2, k2) l'
  end.

(** The worst case of the loop: a region of [n] rows costs at most
    [2n+1] turns. *)
Definition blocks_fuel : nat := 2 * List.length a + 1.

Definition get_matching_blocks : option (list block) :=
  let la := List.length a in
  let lb := List.length b in
  match blocks_loop chain_b blocks_fuel [(0, la, 0, lb)] [] with
  | Some matching_blocks =>
      Some (collapse (0, 0, 0) (sort_blocks matching_blocks) ++ [(la, lb, 0)])
  | None => None
  end.

Definition block_size (x : block) : nat := snd x.

Definition sum_sizes (l : list block) : nat :=
  fold_right (fun x acc => block_size x + acc) 0 l.

(** [sum(triple[-1] for triple in self.get_matching_blocks())] *)
Definition ratio_matches : nat :=
  match get_matching_blocks with
  | Some blocks => sum_sizes blocks
  | None => 0
  end.

Definition ratio : Q :=
  calculate_ratio ratio_matches (List.length a + List.length b).

(** [fullbcount]: how often each element occurs in [b]. *)
Definition fullbcount : Dict.t ascii Z :=
  fold_left
    (fun (d : Dict.t ascii Z) (elt : ascii) =>
       Dict.set d elt (Dict.get_default d elt 0 + 1)%Z)
    b [].

(** The loop of [quick_ratio] over the elements of [a]. *)
Fixpoint quick_loop (elts : list ascii) (avail : Dict.t ascii Z)
    (matches : nat) : nat :=
  match elts with
  | [] => matches
  | elt :: elts' =>
      let numb :=
        if Dict.contains avail elt then Dict.get_default avail elt 0%Z
        else Dict.get_default fullbcount elt 0%Z in
      let avail' := Dict.set avail elt (numb - 1)%Z in
      quick_loop elts' avail' (if (0 <? numb)%Z then matches + 1 else matches)
  end.

Definition quick_matches : nat := quick_loop a [] 0.

Definition quick_ratio : Q :=
  calculate_ratio quick_matches (List.length a + List.length b).

Definition real_quick_ratio : Q :=
  let la := List.length a in
  let lb := List.length b in
  calculate_ratio (Nat.min la lb) (la + lb).

End Matcher.

Definition seq_of (s : string) : list ascii := list_ascii_of_string s.

(** The similarity of a possibility [x] to [word]: [x] is sequence 1. *)
Definition similarity (word x : string) : Q := ratio (seq_of x) (seq_of word).

(** Tuple comparison [p > q] on (score, string) pairs. *)
Definition scored_gtb (p q : Q * string) : bool :=
  match Qcompare (fst p) (fst q) with
  | Gt => true
  | Lt => false
  | Eq => match String.compare (snd p) (snd q) with
          | Gt => true
          | _ => false
          end
  end.

(** [max(it)], from a first element: a later element replaces the current
    maximum only when it is strictly greater. *)
Fixpoint max_from (cur : Q * string) (l : list (Q * string)) : Q * string :=
  match l with
  | [] => cur
  | x :: l' => max_from (if scored_gtb x cur then x else cur) l'
  end.

(** [heapq.nlargest(1, result)] *)
Definition nlargest1 (l : list (Q * string)) : list (Q * string) :=
  match l with
  | [] => []
  | x :: l' => [max_from x l']
  end.

Definition good_enough (word : string) (cutoff : Q) (x : string) : bool :=
  let a := seq_of x in
  let b := seq_of word in
  Qle_bool cutoff (real_quick_ratio a b)
  && Qle_bool cutoff (quick_ratio a b)
  && Qle_bool cutoff (ratio a b).

Fixpoint scored (word : string) (cutoff : Q) (possibilities : list string)
    : list (Q * string) :=
  match possibilities with
  | [] => []
  | x :: rest =>
      if good_enough word cutoff x
      then (similarity word x, x) :: scored word cutoff rest
      else scored word cutoff rest
  end.

(** [get_close_matches(word, possibilities, n=1, cutoff=cutoff)] *)
Definition get_close_matches (word : string) (possibilities : list string)
    (cutoff : Q) : result (list string) :=
  if negb (Qle_bool 0 cutoff && Qle_bool cutoff 1) then Raise ValueError
  else Ok (map snd (nlargest1 (scored word cutoff possibilities))).

End Difflib.

(** ** The catalog store ([load_inventory], [build_inventory_lookup]) *)

Module Catalog.

Record CatalogEntry : Type := {
  title : string;
  author : string;
  available : string
}.

Definition inventory : Type := list CatalogEntry.
Definition key : Type := (string * string)%type.
Definition index : Type := Dict.t key string.

(** [s.lower().strip()] *)
Definition normalize (s : string) : string := Py.strip (Py.lower s).

Definition entry_key (book : CatalogEntry) : key :=
  (normalize (title book), normalize (author book)).

(** The dictionary comprehension of [build_inventory_lookup]. *)
Definition index_of (books : inventory) : index :=
  fold_left (fun (d : index) book => Dict.set d (entry_key book) (available book))
    books [].

(** The two [lru_cache(maxsize=1)] caches of the argument-less functions. *)
Record caches : Type := {
  load_inventory_cache : option inventory;
  build_inventory_lookup_cache : option index
}.

Definition no_caches : caches :=
  {| load_inventory_cache := None; build_inventory_lookup_cache := None |}.

(** [books_json] is what opening and decoding the catalog file gives. *)
Definition load_inventory (books_json : result inventory) (c : caches)
    : result inventory * caches :=
  match load_inventory_cache c with
  | Some books => (Ok books, c)
  | None =>
      match books_json with
      | Ok books =>
          (Ok books,
           {| load_inventory_cache := Some books;
              build_inventory_lookup_cache := build_inventory_lookup_cache c |})
      | Raise e => (Raise e, c)
      end
  end.

Definition build_inventory_lookup (books_json : result inventory) (c : caches)
    : result index * caches :=
  match build_inventory_lookup_cache c with
  | Some d => (Ok d, c)
  | None =>
      match load_inventory books_json c with
      | (Ok books, c') =>
          let d := index_of books in
          (Ok d,
           {| load_inventory_cache := load_inventory_cache c';
              build_inventory_lookup_cache := Some d |})
      | (Raise e, c') => (Raise e, c')
      end
  end.

(** [load_inventory.cache_clear(); build_inventory_lookup.cache_clear()]
    followed by [build_inventory_lookup()], as the "Clear All Caches"
    button does. *)
Definition rebuild (books_json : result inventory) (c : caches)
    : result index * caches :=
  build_inventory_lookup books_json no_caches.

End Catalog.

(** ** The resolver ([find_in_inventory]) *)

Module Resolver.

Import Catalog.

(** The part of [st.session_state] the resolver works on.  The global
    [inventory_lookup] is read from [session_state.inventory_lookup] when
    the script starts; the buttons that reassign it are at the script's
    end, so during a call the two are the same dictionary. *)
Record session : Type := {
  inventory_lookup : index;
  all_titles : option (list string)
}.

Definition not_in_inventory : string := "Not in Inventory".

(** [[t for (t, a) in inventory_lookup.keys()]] *)
Definition titles_of (d : index) : list string := map fst (Dict.keys d).

(** The loop [for (t, a) in inventory_lookup.keys(): if t == best_title]. *)
Fixpoint first_with_title (ks : list key) (best_title : string) : option key :=
  match ks with
  | [] => None
  | (t, a) :: ks' =>
      if String.eqb t best_title then Some (t, a)
      else first_with_title ks' best_title
  end.

(** [inventory_lookup[k]] *)
Definition subscript (d : index) (k : key) : result string :=
  match Dict.get d k with
  | Some v => Ok v
  | None => Raise KeyError
  end.

Definition find_in_inventory (st : session) (title author : string)
    (cutoff : Q) : result string * session :=
  let title := Py.strip (Py.lower title) in
  let author := Py.strip (Py.lower author) in
  let lookup := inventory_lookup st in
  if Dict.contains lookup (title, author) then (subscript lookup (title, author), st)
  else
    let titles :=
      match all_titles st with
      | Some l => l
      | None => titles_of lookup
      end in
    let st' := {| inventory_lookup := lookup; all_titles := Some titles |} in
    match Difflib.get_close_matches title titles cutoff with
    | Raise e => (Raise e, st')
    | Ok close_titles =>
        match close_titles with
        | best_title :: _ =>
            match first_with_title (Dict.keys lookup) best_title with
            | Some k => (subscript lookup k, st')
            | None => (Ok not_in_inventory, st')
            end
        | [] => (Ok not_in_inventory, st')
        end
    end.

(** The default [cutoff=0.8]. *)
Definition default_cutoff : Q := Qmake 8 10.

(** The titles kept in the session are those of the index in use. *)
Definition titles_fresh (st : session) : Prop :=
  all_titles st = None \/ all_titles st = Some (titles_of (inventory_lookup st)).

End Resolver.

(** ** The script around the resolver: start of a run, queries, and the
       two cache buttons, with a catalog file that does not change *)

Module Script.

Import Catalog Resolver.

Record app : Type := {
  lru : caches;
  sess : option session
}.

Definition initial : app := {| lru := no_caches; sess := None |}.

Section Static.

(** The decoded content of the catalog file. *)
Variable books : inventory.

Inductive step : app -> app -> Prop :=
(** [if 'inventory_lookup' not in st.session_state] at the first run *)
| step_start c d c' :
    build_inventory_lookup (Ok books) c = (Ok d, c') ->
    step {| lru := c; sess := None |}
         {| lru := c';
            sess := Some {| inventory_lookup := d; all_titles := None |} |}
(** a new run of the script defines the cached functions anew *)
| step_rerun c s :
    step {| lru := c; sess := s |} {| lru := no_caches; sess := s |}
(** a call of [find_in_inventory] *)
| step_resolve c st title author cutoff :
    step {| lru := c; sess := Some st |}
         {| lru := c;
            sess := Some (snd (find_in_inventory st title author cutoff)) |}
(** the "Clear Cache" button *)
| step_clear c st d c' :
    build_inventory_lookup (Ok books) c = (Ok d, c') ->
    step {| lru := c; sess := Some st |}
         {| lru := c';
            sess := Some {| inventory_lookup := d;
                            all_titles := all_titles st |} |}
(** the "Clear All Caches" button *)
| step_clear_all c st d c' :
    rebuild (Ok books) c = (Ok d, c') ->
    step {| lru := c; sess := Some st |}
         {| lru := c';
            sess := Some {| inventory_lookup := d;
                            all_titles := all_titles st |} |}.

Inductive reachable : app -> Prop :=
| reach_initial : reachable initial
| reach_step x y : reachable x -> step x y -> reachable y.

End Static.

End Script.

(** ** The cover fetcher ([get_book_cover]) *)

Module CoverFetcher.

(** A decoded JSON document, as [response.json()] returns it. *)
#[warnings="-register-all"]
Inductive json : Type :=
| JNull
| JBool (b : bool)
| JNum (q : Q)
| JStr (s : string)
| JList (l : list json)
| JDict (d : list (string * json)).

(** What [requests.get(url, timeout=5)] gives: an exception of the
    [RequestException] family (no connection, timeout, invalid URL), or a
    response with its status code and its body; [None] is a body that is
    not JSON, on which [response.json()] raises [JSONDecodeError], a
    [RequestException] too. *)
Inductive http_outcome : Type :=
| Failed
| Response (status : nat) (body : option json).

Definition network : Type := string -> http_outcome.

(** [response.raise_for_status()] *)
Definition raise_for_status (status : nat) : result unit :=
  if (400 <=? status) && (status <? 600) then Raise RequestException else Ok tt.

(** [response.json()] *)
Definition response_json (body : option json) : result json :=
  match body with
  | Some data => Ok data
  | None => Raise RequestException
  end.

Definition is_str (s : string) (x : json) : bool :=
  match x with
  | JStr s' => String.eqb s s'
  | _ => false
  end.

Definition substring_in (s big : string) : bool :=
  match String.index 0 s big with
  | Some _ => true
  | None => false
  end.

(** [key in x] for a string [key] *)
Definition py_in (key : string) (x : json) : result bool :=
  match x with
  | JDict d => Ok (Dict.contains d key)
  | JList l => Ok (existsb (is_str key) l)
  | JStr s => Ok (substring_in key s)
  | JNull | JBool _ | JNum _ => Raise TypeError
  end.

(** [x[key]] for a string [key] *)
Definition subscript_str (x : json) (key : string) : result json :=
  match x with
  | JDict d =>
      match Dict.get d key with
      | Some v => Ok v
      | None => Raise KeyError
      end
  | _ => Raise TypeError
  end.

(** [x[0]] *)
Definition subscript_0 (x : json) : result json :=
  match x with
  | JList [] => Raise IndexError
  | JList (v :: _) => Ok v
  | JStr EmptyString => Raise IndexError
  | JStr (String c _) => Ok (JStr (String c EmptyString))
  | JDict _ => Raise KeyError
  | JNull | JBool _ | JNum _ => Raise TypeError
  end.

(** [x.get(key, default)] *)
Definition dict_get (x : json) (key : string) (default : json) : result json :=
  match x with
  | JDict d => Ok (Dict.get_default d key default)
  | _ => Raise AttributeError
  end.

(** The truth value of [x]. *)
Definition truthy (x : json) : bool :=
  match x with
  | JNull => false
  | JBool b => b
  | JNum q => negb (Qeq_bool q 0)
  | JStr s => negb (Py.is_empty s)
  | JList l => match l with [] => false | _ => true end
  | JDict d => match d with [] => false | _ => true end
  end.

(** [image.replace("http://", "https://").replace("&edge=curl", "")] *)
Definition clean_url (image : string) : string :=
  Py.replace "&edge=curl" "" (Py.replace "http://" "https://" image).

Definition clean_image (image : json) : result json :=
  match image with
  | JStr s => Ok (JStr (clean_url s))
  | _ => Raise AttributeError
  end.

Definition cover_url (title author : string) : string :=
  ("https://www.googleapis.com/books/v1/volumes?q="
   ++ (title ++ " " ++ author) ++ "&maxResults=1&zoom=2")%string.

Local Open Scope py_scope.

(** The body of the [try]. *)
Definition get_book_cover_try (net : network) (title author : string)
    : result json :=
  match net (cover_url title author) with
  | Failed => Raise RequestException
  | Response status body =>
      _ <- raise_for_status status ;;
      data <- response_json body ;;
      has_items <- py_in "items" data ;;
      if negb has_items then Ok JNull
      else
        items <- subscript_str data "items" ;;
        if negb (truthy items) then Ok JNull
        else
          item <- subscript_0 items ;;
          info <- subscript_str item "volumeInfo" ;;
          links <- dict_get info "imageLinks" (JDict []) ;;
          image <- dict_get links "thumbnail" JNull ;;
          if truthy image then clean_image image else Ok image
  end.

(** [except (requests.RequestException, KeyError, IndexError)] *)
Definition caught (e : exn) : bool :=
  match e with
  | RequestException | KeyError | IndexError => true
  | _ => false
  end.

Definition get_book_cover (net : network) (title author : string)
    : result json :=
  match get_book_cover_try net title author with
  | Ok image => Ok image
  | Raise e => if caught e then Ok JNull else Raise e
  end.

End CoverFetcher.

(** ** The aggregator ([fetch_single_book_data],
       [check_inventory_with_images]) *)

Module Aggregator.

Import CoverFetcher.

Record BookResult : Type := {
  title : string;
  author : string;
  availability : string;
  cover : json
}.

Definition fetch_single_book_data (net : network) (st : Resolver.session)
    (book_title author : string) : result BookResult * Resolver.session :=
  match Resolver.find_in_inventory st book_title author Resolver.default_cutoff with
  | (Raise e, st') => (Raise e, st')
  | (Ok availability, st') =>
      match get_book_cover net book_title author with
      | Raise e => (Raise e, st')
      | Ok cover =>
          (Ok {| title := book_title; author := author;
                 availability := availability; cover := cover |}, st')
      end
  end.

(** A submitted task when it is over: how it ended, and the book that
    [future_to_book] keeps for it. *)
Definition future : Type := (result BookResult * (string * string))%type.

(** The tasks of the pool, run one after the other on the session. *)
Fixpoint run_tasks (net : network) (st : Resolver.session)
    (book_tasks : list (string * string)) : list future * Resolver.session :=
  match book_tasks with
  | [] => ([], st)
  | (t, a) :: rest =>
      let (r, st1) := fetch_single_book_data net st t a in
      let (fs, st2) := run_tasks net st1 rest in
      ((r, (t, a)) :: fs, st2)
  end.

Definition error_record (book : string * string) : BookResult :=
  {| title := fst book; author := snd book;
     availability := "Error"; cover := JNull |}.

(** The body of the loop over [as_completed]: the record appended to
    [results] for one future. *)
Definition record_of (f : future) : BookResult :=
  match fst f with
  | Ok r => r
  | Raise _ => error_record (snd f)
  end.

(** One turn of the loop, for the future of rank [i]. *)
Definition gather (futures : list future) (i : nat) : list BookResult :=
  match nth_error futures i with
  | Some f => [record_of f]
  | None => []
  end.

(** [completion] lists the futures, by their rank of submission, in the
    order [as_completed] yields them. *)
Definition check_inventory_with_images (net : network) (st : Resolver.session)
    (completion : list nat) (suggestions : string) : list BookResult :=
  let book_tasks := Parser.parse_books suggestions in
  let futures := fst (run_tasks net st book_tasks) in
  flat_map (gather futures) completion.

End Aggregator.

(** ** Vocabulary of the statements *)

Module Spec.

Fixpoint all_chars (p : ascii -> bool) (s : string) : bool :=
  match s with
  | EmptyString => true
  | String c s' => p c && all_chars p s'
  end.

Definition first_char (s : string) : option ascii :=
  match s with
  | EmptyString => None
  | String c _ => Some c
  end.

Fixpoint last_char (s : string) : option ascii :=
  match s with
  | EmptyString => None
  | String c s' =>
      match last_char s' with
      | None => Some c
      | Some d => Some d
      end
  end.

(** [r] is [s] without its leading and trailing characters that satisfy
    [p]: what is cut off satisfies [p], and [r] neither starts nor ends
    with such a character. *)
Definition stripped_of (p : ascii -> bool) (s r : string) : Prop :=
  exists l t : string,
    s = (l ++ r ++ t)%string
    /\ all_chars p l = true /\ all_chars p t = true
    /\ (forall c, first_char r = Some c -> p c = false)
    /\ (forall c, last_char r = Some c -> p c = false).

(** [sep.join(parts)] *)
Fixpoint join (sep : ascii) (parts : list string) : string :=
  match parts with
  | [] => EmptyString
  | [part] => part
  | part :: rest => (part ++ String sep (join sep rest))%string
  end.

Definition option_list {A : Type} (o : option A) : list A :=
  match o with
  | Some x => [x]
  | None => []
  end.

Definition nl : string := String Parser.newline EmptyString.
Definition tab : string := String (ascii_of_nat 9) EmptyString.
Definition dash : string := String Parser.separator EmptyString.

Definition is_numbering (c : ascii) : bool := Py.mem c Parser.numbering.

Definition dune_foundation : string :=
  ("1. Dune - Frank Herbert" ++ nl ++ "2. " ++ nl
   ++ "3. Foundation - Isaac Asimov")%string.

End Spec.

(** The catalog and the session of the examples: one book. *)
Module Example.

Definition dune : Catalog.CatalogEntry :=
  {| Catalog.title := "Dune"; Catalog.author := "Frank Herbert";
     Catalog.available := "yes" |}.

Definition dune_session : Resolver.session :=
  {| Resolver.inventory_lookup := Catalog.index_of [dune];
     Resolver.all_titles := None |}.

End Example.

(** Invariants of the caches and of the session. *)
Module Inv.

Import Catalog Resolver.

(** Caches that hold nothing else than what the file gives. *)
Definition coherent (books : inventory) (c : caches) : Prop :=
  (load_inventory_cache c = None \/ load_inventory_cache c = Some books)
  /\ (build_inventory_lookup_cache c = None
      \/ build_inventory_lookup_cache c = Some (index_of books)).

(** The titles the resolver compares a query with. *)
Definition titles_used (st : session) : list string :=
  match all_titles st with
  | Some l => l
  | None => titles_of (inventory_lookup st)
  end.

(** The session holds the index of the catalog, and titles that are the
    titles of this index. *)
Definition session_ok (books : inventory) (st : session) : Prop :=
  inventory_lookup st = index_of books /\ titles_fresh st.

End Inv.

(** Endpoints for the examples of the cover fetcher. *)
Module Endpoint.

Import CoverFetcher.

Definition volume (info : json) : json := JDict [("items", JList [info])].

(** A volume whose [imageLinks] is [null]. *)
Definition null_links : network :=
  fun _ => Response 200
    (Some (volume (JDict [("volumeInfo", JDict [("imageLinks", JNull)])]))).

(** A volume with a thumbnail. *)
Definition with_thumbnail (url : string) : network :=
  fun _ => Response 200
    (Some (volume
       (JDict [("volumeInfo",
                JDict [("imageLinks", JDict [("thumbnail", JStr url)])])]))).

(** The documents of the metadata service: an object whose ["items"], if
    any, is a list of objects, each with a ["volumeInfo"] object whose
    ["imageLinks"], if any, is an object whose ["thumbnail"], if any, is a
    string. *)
Definition links_shaped (links : json) : Prop :=
  exists d, links = JDict d
    /\ forall x, Dict.get d "thumbnail" = Some x -> exists s, x = JStr s.

Definition info_shaped (info : json) : Prop :=
  exists d, info = JDict d
    /\ forall links, Dict.get d "imageLinks" = Some links -> links_shaped links.

Definition item_shaped (item : json) : Prop :=
  exists d, item = JDict d
    /\ forall info, Dict.get d "volumeInfo" = Some info -> info_shaped info.

Definition document_shaped (data : json) : Prop :=
  exists d, data = JDict d
    /\ forall items, Dict.get d "items" = Some items ->
         exists l, items = JList l /\ Forall item_shaped l.

(** An endpoint that answers [ok] for every book but the one of [url]. *)
Definition broken_for (url : string) (ok : network) : network :=
  fun u => if String.eqb u url then Response 200 (Some JNull) else ok u.

End Endpoint.

(** A network for the example of the aggregator: the endpoint fails for
    "Dune" and answers with a thumbnail for every other book. *)
Module Outage.

Definition net : CoverFetcher.network :=
  Endpoint.broken_for (CoverFetcher.cover_url "Dune" "Frank Herbert")
    (Endpoint.with_thumbnail "http://covers.example/f.jpg").

End Outage.

(** Counting the elements two sequences share. *)
Module Counting.

Definition count (l : list ascii) (c : ascii) : nat := count_occ ascii_dec l c.

(** All the characters. *)
Definition alphabet : list ascii := map ascii_of_nat (seq 0 256).

Definition sum_over (f : ascii -> nat) : nat := list_sum (map f alphabet).

(** The size of the intersection of [x] and [y] as multisets. *)
Definition common (x y : list ascii) : nat :=
  sum_over (fun c => Nat.min (count x c) (count y c)).

(** [l[lo:hi]] *)
Definition slice (l : list ascii) (lo hi : nat) : list ascii :=
  firstn (hi - lo) (skipn lo l).

End Counting.

(** What the matcher's intermediate values mean. *)
Module MatchSpec.

Section Seqs.
Variables a b : list ascii.

(** [a[i:i+k] == b[j:j+k]], inside both sequences. *)
Definition matches_at (i j k : nat) : Prop :=
  forall d, d < k ->
    exists x, nth_error a (i + d) = Some x /\ nth_error b (j + d) = Some x.

(** [b2j] lists, for an element, positions of [b] that hold it. *)
Definition sound_b2j (b2j : Dict.t ascii (list nat)) : Prop :=
  forall c js j, In (c, js) b2j -> In j js -> nth_error b j = Some c.

Variables alo ahi blo bhi : nat.

(** A matching block inside the region [a[alo:ahi]], [b[blo:bhi]]. *)
Definition ok_block (x : Difflib.block) : Prop :=
  let '(i, j, k) := x in
  alo <= i /\ i + k <= ahi /\ blo <= j /\ j + k <= bhi /\ matches_at i j k.

(** [j2len], before row [i]: an entry [(j, k)] is a match of length [k]
    that ends at row [i-1] and column [j]. *)
Definition row_ok (i : nat) (j2len : Dict.t nat nat) : Prop :=
  forall j k, In (j, k) j2len ->
    1 <= k /\ alo + k <= i /\ blo + k <= j + 1 /\ j < bhi
    /\ matches_at (i - k) (j + 1 - k) k.

(** The tests of the two [while] loops that extend a block. *)
Definition left_test (junk : bool) (besti bestj : nat) : bool :=
  (alo <? besti) && (blo <? bestj)
  && Bool.eqb (Difflib.junk_at b (bestj - 1)) junk
  && Difflib.same_elt a b (besti - 1) (bestj - 1).

Definition right_test (junk : bool) (besti bestj bestsize : nat) : bool :=
  (besti + bestsize <? ahi) && (bestj + bestsize <? bhi)
  && Bool.eqb (Difflib.junk_at b (bestj + bestsize)) junk
  && Difflib.same_elt a b (besti + bestsize) (bestj + bestsize).

End Seqs.

Definition region_ok (r : Difflib.region) : Prop :=
  let '(alo, ahi, blo, bhi) := r in alo <= ahi /\ blo <= bhi.

(** What the regions of the queue can still contribute. *)
Definition budget (a b : list ascii) (queue : list Difflib.region) : nat :=
  list_sum
    (map (fun r : Difflib.region =>
            let '(alo, ahi, blo, bhi) := r in
            Counting.common (Counting.slice a alo ahi) (Counting.slice b blo bhi))
       queue).

(** The turns of the loop the regions of the queue can still cost. *)
Definition weight (queue : list Difflib.region) : nat :=
  list_sum
    (map (fun r : Difflib.region =>
            let '(alo, ahi, _, _) := r in 2 * (ahi - alo) + 1)
       queue).

(** The queue after a turn that found the block [(i, j, k)]. *)
Definition pushed (alo ahi blo bhi i j k : nat) (q : list Difflib.region)
    : list Difflib.region :=
  let q1 := if (alo <? i) && (blo <? j) then (alo, i, blo, j) :: q else q in
  if (i + k <? ahi) && (j + k <? bhi) then (i + k, ahi, j + k, bhi) :: q1 else q1.

(** In [quick_ratio], how many of an element are still available: the
    entry of [avail], or that of [fullbcount] when [avail] has none. *)
Definition available (b : list ascii) (avail : Dict.t ascii Z) (c : ascii) : Z :=
  if Dict.contains avail c then Dict.get_default avail c 0%Z
  else Dict.get_default (Difflib.fullbcount b) c 0%Z.

(** [p > q] on (score, string) pairs, as a proposition. *)
Definition scored_gt (p q : Q * string) : Prop :=
  (fst q < fst p)%Q
  \/ ((fst p == fst q)%Q /\ String.compare (snd p) (snd q) = Gt).

End MatchSpec.

(** The script after its first run on the catalog of the example, and a
    session whose titles come from another catalog. *)
Module Started.

Definition app : Script.app :=
  {| Script.lru :=
       {| Catalog.load_inventory_cache := Some [Example.dune];
          Catalog.build_inventory_lookup_cache :=
            Some (Catalog.index_of [Example.dune]) |};
     Script.sess := Some Example.dune_session |}.

Definition stale_session : Resolver.session :=
  {| Resolver.inventory_lookup := Catalog.index_of [Example.dune];
     Resolver.all_titles := Some ["foundation"] |}.

End Started.

(** ** The page: the recommendation request and its cache, the badges *)

Module Page.

Import Aggregator.

(** What the form holds when "Get Recommendations" is pressed. *)
Record request : Type := {
  last_book : string;
  fav_author : string;
  selected_genre : string;
  selected_language : string;
  selected_age_group : string
}.

(** [s or default] *)
Definition or_else (s default : string) : string :=
  if Py.is_empty s then default else s.

(** [s or None] *)
Definition or_none (s : string) : option string :=
  if Py.is_empty s then None else Some s.

(** The f-string of [cache_key]. *)
Definition cache_key (r : request) : string :=
  (or_else (last_book r) "none" ++ "_" ++ or_else (fav_author r) "none" ++ "_"
   ++ selected_genre r ++ "_" ++ selected_language r ++ "_"
   ++ selected_age_group r)%string.

(** What the prompt of [recommend_books] shows of its arguments: the last
    book ([None] prints as ["None"]), the favourite author or
    ["Not specified"], the language, the genre and the age group. *)
Record prompt_fields : Type := {
  shown_last_book : string;
  shown_fav_author : string;
  shown_language : string;
  shown_genre : string;
  shown_age_group : string
}.

(** [model.generate_content(prompt).text]: the text, or an exception.  The
    prompt is its fixed wording around the fields. *)
Definition generator : Type := prompt_fields -> result string.

Definition recommend_books (generate : generator) (last_book : option string)
    (fav_author genre language age_group : string) : string :=
  let fields :=
    {| shown_last_book :=
         match last_book with Some s => s | None => "None" end;
       shown_fav_author :=
         if Py.is_empty fav_author then "Not specified" else fav_author;
       shown_language := language;
       shown_genre := genre;
       shown_age_group := age_group |} in
  match generate fields with
  | Ok text => Py.strip text
  | Raise _ => EmptyString
  end.

Record page : Type := {
  resolver_session : Resolver.session;
  recommendations_cache : option (Dict.t string (list BookResult))
}.

(** The handler of "Get Recommendations": the books shown, and the page
    state left.  [completion n] is the order in which [n] futures
    complete. *)
Definition get_recommendations (generate : generator)
    (net : CoverFetcher.network) (completion : nat -> list nat)
    (pg : page) (r : request) : list BookResult * page :=
  let key := cache_key r in
  let cache :=
    match recommendations_cache pg with
    | Some c => c
    | None => []
    end in
  match Dict.get cache key with
  | Some books =>
      (books, {| resolver_session := resolver_session pg;
                 recommendations_cache := Some cache |})
  | None =>
      let suggestions :=
        recommend_books generate (or_none (last_book r)) (fav_author r)
          (selected_genre r) (selected_language r) (selected_age_group r) in
      let book_tasks := Parser.parse_books suggestions in
      let books :=
        check_inventory_with_images net (resolver_session pg)
          (completion (List.length book_tasks)) suggestions in
      (books,
       {| resolver_session :=
            snd (run_tasks net (resolver_session pg) book_tasks);
          recommendations_cache := Some (Dict.set cache key books) |})
  end.

Inductive badge : Type :=
| BadgeAvailable
| BadgeNotAvailable
| BadgeWarning.

(** The badge of a card. *)
Definition availability_badge (book : BookResult) : badge :=
  let availability := Py.lower (availability book) in
  if String.eqb availability "yes" then BadgeAvailable
  else if String.eqb availability "no" then BadgeNotAvailable
  else BadgeWarning.

End Page.

(** Further vocabulary of the statements. *)
Module Spec2.

(** [old] occurs in [s]. *)
Fixpoint occurs_in (old s : string) : bool :=
  prefix old s
  || match s with
     | EmptyString => false
     | String _ s' => occurs_in old s'
     end.

Definition underscore : ascii := "_"%char.

(** The block [(i, j, k)] stands for equal slices [a[i:i+k]] and
    [b[j:j+k]]. *)
Definition is_match (a b : list ascii) (x : Difflib.block) : Prop :=
  let '(i, j, k) := x in MatchSpec.matches_at a b i j k.

(** One turn of the comprehension of [build_inventory_lookup]. *)
Definition add_book (d : Catalog.index) (book : Catalog.CatalogEntry)
    : Catalog.index :=
  Dict.set d (Catalog.entry_key book) (Catalog.available book).

(** A generator that always fails, and one that always answers [text]. *)
Definition failing : Page.generator := fun _ => Raise RequestException.
Definition answering (text : string) : Page.generator := fun _ => Ok text.

Definition in_order (n : nat) : list nat := seq 0 n.

Definition fresh_page : Page.page :=
  {| Page.resolver_session := Example.dune_session;
     Page.recommendations_cache := None |}.

Definition dune_request : Page.request :=
  {| Page.last_book := "Dune"; Page.fav_author := "";
     Page.selected_genre := "Any"; Page.selected_language := "Any";
     Page.selected_age_group := "Any" |}.

End Spec2.

(** When the cover fetcher has nothing to return: the reasons the code
    provides for. *)
Module NoCover.

Import CoverFetcher.

(** The first item [item] of a document has no thumbnail to offer. *)
Definition item_without_thumbnail (item : list (string * json)) : Prop :=
  Dict.get item "volumeInfo" = None
  \/ exists info,
       Dict.get item "volumeInfo" = Some (JDict info)
       /\ (Dict.get info "imageLinks" = None
           \/ exists links,
                Dict.get info "imageLinks" = Some (JDict links)
                /\ Dict.get links "thumbnail" = None).

Definition document_without_thumbnail (data : list (string * json)) : Prop :=
  Dict.get data "items" = None
  \/ Dict.get data "items" = Some (JList [])
  \/ exists item rest,
       Dict.get data "items" = Some (JList (JDict item :: rest))
       /\ item_without_thumbnail item.

Definition nothing_to_return (answer : http_outcome) : Prop :=
  answer = Failed
  \/ exists status body,
       answer = Response status body
       /\ (400 <= status < 600
           \/ body = None
           \/ exists data, body = Some (JDict data)
                           /\ document_without_thumbnail data).

End NoCover.

(** ** The two cache buttons *)

Module Buttons.

Import Catalog Resolver Page.







End Buttons.

(** * Properties *)

Unset Implicit Arguments.

(** ** Key equality decides equality *)

#[export] Instance EqKeyLaws_nat : EqKeyLaws nat.
Proof. constructor. exact Nat.eqb_eq. Qed.

#[export] Instance EqKeyLaws_ascii : EqKeyLaws ascii.
Proof. constructor. exact Ascii.eqb_eq. Qed.

#[export] Instance EqKeyLaws_string : EqKeyLaws string.
Proof. constructor. exact String.eqb_eq. Qed.

#[export] Instance EqKeyLaws_pair {A B : Type} `{EqKeyLaws A} `{EqKeyLaws B} :
  EqKeyLaws (A * B).
Proof.
  constructor.
  intros [a b] [a' b']; unfold keqb; simpl; unfold pair_eqb; simpl.
  rewrite andb_true_iff, !keqb_eq. split.
  - intros [-> ->]. reflexivity.
  - intros [= -> ->]. auto.
Qed.

Lemma keqb_spec {K : Type} `{EqKeyLaws K} (x y : K) : reflect (x = y) (keqb x y).
Proof. apply iff_reflect. symmetry. apply keqb_eq. Qed.

Lemma keqb_refl {K : Type} `{EqKeyLaws K} (k : K) : keqb k k = true.
Proof. destruct (keqb_spec k k); congruence. Qed.

Lemma keqb_true {K : Type} `{EqKeyLaws K} (k k' : K) : keqb k k' = true -> k = k'.
Proof. destruct (keqb_spec k k'); congruence. Qed.

Lemma keqb_neq {K : Type} `{EqKeyLaws K} (k k' : K) : k <> k' -> keqb k k' = false.
Proof. destruct (keqb_spec k k'); congruence. Qed.

(** ** Dictionaries *)

Module DictFacts.
Section Facts.
Context {K V : Type} `{EqKeyLaws K}.

Implicit Types (d : Dict.t K V) (k : K) (v : V).

Lemma get_In d k v : Dict.get d k = Some v -> In (k, v) d.
Proof.
  induction d as [|[k' v'] d IH]; simpl; [discriminate|].
  destruct (keqb_spec k k') as [->|_].
  - intros [= ->]. now left.
  - intros Hg. right. auto.
Qed.

Lemma In_keys_get d k : In k (Dict.keys d) -> exists v, Dict.get d k = Some v.
Proof.
  induction d as [|[k' v'] d IH]; simpl; [tauto|].
  intros [->|Hin].
  - rewrite keqb_refl. eauto.
  - destruct (keqb k k'); eauto.
Qed.

Lemma get_keys d k v : Dict.get d k = Some v -> In k (Dict.keys d).
Proof.
  intros Hg. apply get_In in Hg. unfold Dict.keys.
  change k with (fst (k, v)). now apply in_map.
Qed.

Lemma contains_false_get d k : Dict.contains d k = false -> Dict.get d k = None.
Proof. unfold Dict.contains. destruct (Dict.get d k); [discriminate|reflexivity]. Qed.

Lemma contains_true_get d k :
  Dict.contains d k = true -> exists v, Dict.get d k = Some v.
Proof. unfold Dict.contains. destruct (Dict.get d k); [eauto|discriminate]. Qed.

Lemma get_set d k v k' :
  Dict.get (Dict.set d k v) k' = if keqb k' k then Some v else Dict.get d k'.
Proof.
  induction d as [|[k0 v0] d IH]; simpl.
  - reflexivity.
  - destruct (keqb_spec k k0) as [->|Hne]; simpl.
    + destruct (keqb k' k0); reflexivity.
    + destruct (keqb_spec k' k0) as [->|Hne'].
      * rewrite keqb_neq by congruence. reflexivity.
      * apply IH.
Qed.

Lemma In_set d k v k' v' :
  In (k', v') (Dict.set d k v) -> (k' = k /\ v' = v) \/ In (k', v') d.
Proof.
  induction d as [|[k0 v0] d IH]; simpl.
  - intros [[= <- <-]|[]]. now left.
  - destruct (keqb_spec k k0) as [->|Hne]; simpl.
    + intros [[= <- <-]|Hin]; [now left|right; now right].
    + intros [Heq|Hin]; [right; now left|].
      destruct (IH Hin); [now left|right; now right].
Qed.

Lemma keys_set_In d k v k' :
  In k' (Dict.keys (Dict.set d k v)) <-> k' = k \/ In k' (Dict.keys d).
Proof.
  induction d as [|[k0 v0] d IH]; simpl.
  - intuition congruence.
  - destruct (keqb_spec k k0) as [->|Hne]; simpl.
    + intuition congruence.
    + rewrite IH. intuition congruence.
Qed.

End Facts.
End DictFacts.

(** ** Strings *)

Module PyFacts.

Import Spec.

Lemma mem_app c s1 s2 : Py.mem c (s1 ++ s2) = Py.mem c s1 || Py.mem c s2.
Proof.
  induction s1 as [|d s1 IH]; simpl; [reflexivity|].
  rewrite IH. apply orb_assoc.
Qed.

Lemma split1_app sep before after :
  Py.mem sep before = false ->
  Py.split1 sep (before ++ String sep after) = [before; after].
Proof.
  induction before as [|c before IH]; simpl.
  - intros _. rewrite Ascii.eqb_refl. reflexivity.
  - rewrite orb_false_iff. intros [Hc Hm].
    rewrite Ascii.eqb_sym, Hc, (IH Hm). reflexivity.
Qed.

Lemma mem_cut sep s :
  Py.mem sep s = true ->
  exists before after,
    s = (before ++ String sep after)%string /\ Py.mem sep before = false.
Proof.
  induction s as [|c s IH]; simpl; [discriminate|].
  destruct (Ascii.eqb_spec sep c) as [<-|Hne]; simpl.
  - intros _. exists EmptyString, s. auto.
  - intros Hm. destruct (IH Hm) as (before & after & -> & Hb).
    exists (String c before), after. simpl. split; [reflexivity|].
    rewrite Hb, orb_false_r. now apply Ascii.eqb_neq.
Qed.

Lemma split_nonempty sep s : Py.split sep s <> [].
Proof.
  destruct s as [|c s]; simpl; [discriminate|].
  destruct (Ascii.eqb c sep); [discriminate|].
  destruct (Py.split sep s); discriminate.
Qed.

(** The parts of [s.split(sep)] are free of [sep], and joined with [sep]
    they give [s] back. *)
Lemma split_join sep s :
  join sep (Py.split sep s) = s
  /\ Forall (fun part => Py.mem sep part = false) (Py.split sep s).
Proof.
  induction s as [|c s IH]; simpl.
  - split; [reflexivity|]. repeat constructor.
  - pose proof (split_nonempty sep s) as Hn.
    destruct (Py.split sep s) as [|q qs]; [congruence|].
    destruct IH as [IHj IHf].
    inversion IHf as [|? ? Hq Hqs]; subst.
    destruct (Ascii.eqb_spec c sep) as [->|Hne].
    + split; [reflexivity|]. constructor; [reflexivity|assumption].
    + split.
      * destruct qs as [|q' qs]; reflexivity.
      * constructor; [|assumption]. simpl. rewrite Hq, orb_false_r.
        apply Ascii.eqb_neq. congruence.
Qed.

Lemma lstrip_spec p s :
  exists l, s = (l ++ Py.lstrip_by p s)%string /\ all_chars p l = true
            /\ forall c, first_char (Py.lstrip_by p s) = Some c -> p c = false.
Proof.
  induction s as [|c s (l & Hs & Hl & Hf)]; simpl.
  - exists EmptyString. repeat split; discriminate.
  - destruct (p c) eqn:Hp.
    + exists (String c l). simpl. rewrite Hp, Hl, <- Hs. auto.
    + exists EmptyString. repeat split. simpl. intros ? [= <-]. exact Hp.
Qed.

Lemma last_char_nonempty s : Py.is_empty s = false -> last_char s <> None.
Proof.
  destruct s as [|c s]; simpl; [discriminate|].
  intros _. destruct (last_char s); discriminate.
Qed.

Lemma rstrip_spec p s :
  exists t, s = (Py.rstrip_by p s ++ t)%string /\ all_chars p t = true
            /\ (forall c, last_char (Py.rstrip_by p s) = Some c -> p c = false)
            /\ (forall c, first_char (Py.rstrip_by p s) = Some c ->
                          first_char s = Some c).
Proof.
  induction s as [|c s (t & Hs & Ht & Hl & Hf)]; simpl.
  - exists EmptyString. repeat split; discriminate.
  - destruct (Py.is_empty (Py.rstrip_by p s)) eqn:He; simpl.
    + destruct (Py.rstrip_by p s) as [|? ?]; [|discriminate].
      simpl in Hs. subst t.
      destruct (p c) eqn:Hp.
      * exists (String c s). simpl. rewrite Hp, Ht.
        repeat split; discriminate.
      * exists s. simpl. repeat split; auto.
        intros ? [= <-]. exact Hp.
    + exists t. simpl. rewrite <- Hs. repeat split; auto.
      intros d. pose proof (last_char_nonempty _ He) as Hn.
      destruct (last_char (Py.rstrip_by p s)) as [e|]; [|congruence].
      intros [= <-]. now apply Hl.
Qed.

(** [strip_by] cuts exactly the leading and the trailing characters that
    satisfy [p]. *)
Lemma strip_by_stripped p s : stripped_of p s (Py.strip_by p s).
Proof.
  unfold Py.strip_by.
  destruct (lstrip_spec p s) as (l & Hs & Hl & Hf).
  destruct (rstrip_spec p (Py.lstrip_by p s)) as (t & Hs' & Ht & Hlast & Hfirst).
  exists l, t. repeat split; auto.
  now rewrite <- Hs', <- Hs.
Qed.

End PyFacts.

(** ** The line parser *)

Module ParserFacts.

Import Spec Parser.

Lemma collect_flat_map lines :
  collect lines = flat_map (fun line => option_list (parse_line line)) lines.
Proof.
  induction lines as [|line rest IH]; simpl; [reflexivity|].
  rewrite IH. destruct (parse_line line); reflexivity.
Qed.

Lemma parse_line_no_separator line :
  Py.mem separator line = false -> parse_line line = None.
Proof. unfold parse_line. now intros ->. Qed.

Lemma parse_line_cut before after :
  Py.mem separator before = false ->
  parse_line (before ++ dash ++ after) =
    let book_title := Py.strip (Py.strip_chars numbering before) in
    let author := Py.strip after in
    if Py.is_empty book_title || Py.is_empty author then None
    else Some (book_title, author).
Proof.
  intros Hb.
  change (before ++ dash ++ after)%string
    with (before ++ String separator after)%string.
  assert (Hm : Py.mem separator (before ++ String separator after) = true).
  { rewrite PyFacts.mem_app. apply orb_true_iff. right. reflexivity. }
  unfold parse_line. rewrite Hm, (PyFacts.split1_app _ _ after Hb). reflexivity.
Qed.

End ParserFacts.

(** C4.  The parser goes through the lines of the text in order and keeps
    at most one pair per line: none for a line without ['-']; for a line
    [before ++ "-" ++ after] whose [before] has no ['-'], the title is
    [before] stripped of numbering characters and then of whitespace, the
    author is [after] stripped of whitespace, and the line is dropped when
    either is empty.  The text of the example gives two books. *)
Theorem C4_parse_books :
  (forall raw,
     Parser.parse_books raw =
       flat_map (fun line => Spec.option_list (Parser.parse_line line))
         (Py.split Parser.newline raw))
  /\ (forall line,
        Py.mem Parser.separator line = false -> Parser.parse_line line = None)
  /\ (forall before after,
        Py.mem Parser.separator before = false ->
        Parser.parse_line (before ++ Spec.dash ++ after) =
          let title := Py.strip (Py.strip_chars Parser.numbering before) in
          let author := Py.strip after in
          if Py.is_empty title || Py.is_empty author then None
          else Some (title, author))
  /\ Parser.parse_books Spec.dune_foundation
     = [("Dune", "Frank Herbert"); ("Foundation", "Isaac Asimov")]
  /\ List.length (Parser.parse_books Spec.dune_foundation) = 2.
Proof.
  split; [|split; [|split; [|split]]].
  - intros raw. apply ParserFacts.collect_flat_map.
  - apply ParserFacts.parse_line_no_separator.
  - apply ParserFacts.parse_line_cut.
  - vm_compute. reflexivity.
  - vm_compute. reflexivity.
Qed.

Lemma C4_parse_books_witness :
  Parser.parse_line ("1. Dune " ++ Spec.dash ++ " Frank Herbert")
  = Some ("Dune", "Frank Herbert").
Proof.
  destruct C4_parse_books as (_ & _ & H & _).
  rewrite (H "1. Dune " " Frank Herbert"); reflexivity.
Defined.

(** C9, as amended.  For a line [before ++ "-" ++ after] that gives a pair,
    the title is [before] with all its leading and trailing characters
    among the digits, ['.'] and [' '] removed, and then with the whitespace
    left at both ends removed; so the digits that end a title go too. *)
Theorem C9_title_stripped_at_both_ends :
  (forall before after title author,
     Py.mem Parser.separator before = false ->
     Parser.parse_line (before ++ Spec.dash ++ after) = Some (title, author) ->
     title = Py.strip (Py.strip_chars Parser.numbering before)
     /\ Spec.stripped_of Spec.is_numbering before
          (Py.strip_chars Parser.numbering before)
     /\ Spec.stripped_of Py.is_space
          (Py.strip_chars Parser.numbering before) title)
  /\ Parser.parse_line "1. Fahrenheit 451 - Ray Bradbury"
     = Some ("Fahrenheit", "Ray Bradbury").
Proof.
  split; [|vm_compute; reflexivity].
  intros before after title author Hb.
  rewrite (ParserFacts.parse_line_cut _ after Hb). cbv zeta.
  destruct (_ || _); [discriminate|]. intros [= <- <-].
  split; [reflexivity|]. split; apply PyFacts.strip_by_stripped.
Qed.

Lemma C9_title_stripped_at_both_ends_witness :
  "Fahrenheit" = Py.strip (Py.strip_chars Parser.numbering "1. Fahrenheit 451 ").
Proof.
  destruct C9_title_stripped_at_both_ends as (H & _).
  apply (H "1. Fahrenheit 451 " " Ray Bradbury" "Fahrenheit" "Ray Bradbury");
    reflexivity.
Defined.

(** C9, as stated, fails on a line whose numbering is followed by a tab:
    the title loses the tab, which is not among the characters of the
    set. *)
Lemma C9_counterexample :
  Py.mem Parser.separator ("1." ++ Spec.tab ++ "Dune ") = false
  /\ Parser.parse_line (("1." ++ Spec.tab ++ "Dune ") ++ Spec.dash ++ " Frank Herbert")
     = Some ("Dune", "Frank Herbert")
  /\ "Dune" <> Py.strip_chars Parser.numbering ("1." ++ Spec.tab ++ "Dune ").
Proof. vm_compute. repeat split; discriminate. Qed.

(** ** The catalog store *)

Module CatalogFacts.

Import Catalog Inv.

Lemma keys_fold books : forall (d : index) k,
  In k (Dict.keys (fold_left
         (fun (d : index) book => Dict.set d (entry_key book) (available book))
         books d))
  <-> In k (Dict.keys d) \/ exists book, In book books /\ entry_key book = k.
Proof.
  induction books as [|book books IH]; intros d k; simpl.
  - split; [auto|]. intros [H|(book & [] & _)]. exact H.
  - rewrite IH, DictFacts.keys_set_In. split.
    + intros [[->|H]|(b & Hb & Hk)]; eauto.
    + intros [H|(b & [<-|Hb] & Hk)]; eauto.
Qed.

(** The keys of the index are the normalised pairs of the catalog's
    entries. *)
Lemma index_keys books k :
  In k (Dict.keys (index_of books))
  <-> exists book, In book books /\ entry_key book = k.
Proof.
  unfold index_of. rewrite keys_fold. simpl. tauto.
Qed.

Lemma build_cold books :
  build_inventory_lookup (Ok books) no_caches
  = (Ok (index_of books),
     {| load_inventory_cache := Some books;
        build_inventory_lookup_cache := Some (index_of books) |}).
Proof. reflexivity. Qed.

Lemma build_coherent books c :
  coherent books c ->
  fst (build_inventory_lookup (Ok books) c) = Ok (index_of books)
  /\ coherent books (snd (build_inventory_lookup (Ok books) c)).
Proof.
  destruct c as [lc bc]. unfold coherent, build_inventory_lookup, load_inventory.
  simpl. intros [[->| ->] [->| ->]]; simpl; auto.
Qed.

End CatalogFacts.

(** C8.  Rebuilding the index from the same catalog gives the same index,
    whatever the caches held before: the index of the catalog, whose keys
    are the normalised (title, author) pairs of the catalog's entries.  A
    build that follows, served by the cache, gives it too. *)
Theorem C8_rebuild_same_index (books : Catalog.inventory) (c c' : Catalog.caches) :
  fst (Catalog.rebuild (Ok books) c) = Ok (Catalog.index_of books)
  /\ fst (Catalog.rebuild (Ok books) c') = fst (Catalog.rebuild (Ok books) c)
  /\ fst (Catalog.rebuild (Ok books) (snd (Catalog.rebuild (Ok books) c)))
     = fst (Catalog.rebuild (Ok books) c)
  /\ fst (Catalog.build_inventory_lookup (Ok books)
            (snd (Catalog.rebuild (Ok books) c)))
     = fst (Catalog.rebuild (Ok books) c)
  /\ (forall k, In k (Dict.keys (Catalog.index_of books))
                <-> exists book, In book books /\ Catalog.entry_key book = k).
Proof.
  unfold Catalog.rebuild. rewrite CatalogFacts.build_cold. simpl.
  repeat split; try apply CatalogFacts.index_keys.
Qed.

(** ** The resolver *)

Module ResolverFacts.

Import Catalog Resolver Inv.

Lemma first_with_title_Some ks best k :
  first_with_title ks best = Some k ->
  exists pre post,
    ks = pre ++ k :: post /\ fst k = best
    /\ forall k', In k' pre -> fst k' <> best.
Proof.
  induction ks as [|[t a] ks IH]; simpl; [discriminate|].
  destruct (String.eqb_spec t best) as [->|Hne].
  - intros [= <-]. exists [], ks. simpl. tauto.
  - intros Hf. destruct (IH Hf) as (pre & post & -> & Hk & Hpre).
    exists ((t, a) :: pre), post. simpl. repeat split; auto.
    intros k' [<-|Hin]; auto.
Qed.

Lemma first_with_title_None ks best :
  first_with_title ks best = None -> forall k, In k ks -> fst k <> best.
Proof.
  induction ks as [|[t a] ks IH]; simpl; [tauto|].
  destruct (String.eqb_spec t best) as [->|Hne]; [discriminate|].
  intros Hf k [<-|Hin]; auto.
Qed.

Lemma first_with_title_found ks best a :
  In (best, a) ks -> first_with_title ks best <> None.
Proof.
  intros Hin Hn. now apply (first_with_title_None _ _ Hn _ Hin).
Qed.

Lemma subscript_key (d : index) k :
  In k (Dict.keys d) -> exists v, subscript d k = Ok v /\ Dict.get d k = Some v.
Proof.
  intros Hin. destruct (DictFacts.In_keys_get d k Hin) as (v & Hv).
  exists v. unfold subscript. now rewrite Hv.
Qed.

Lemma valid_cutoff_check cutoff :
  negb (Qle_bool 0 cutoff && Qle_bool cutoff 1) = false
  <-> (0 <= cutoff /\ cutoff <= 1)%Q.
Proof.
  rewrite negb_false_iff, andb_true_iff, !Qle_bool_iff. tauto.
Qed.

Lemma get_close_matches_valid word poss cutoff :
  (0 <= cutoff /\ cutoff <= 1)%Q ->
  Difflib.get_close_matches word poss cutoff
  = Ok (map snd (Difflib.nlargest1 (Difflib.scored word cutoff poss))).
Proof.
  intros Hc. unfold Difflib.get_close_matches.
  apply valid_cutoff_check in Hc. now rewrite Hc.
Qed.

Lemma get_close_matches_invalid word poss cutoff :
  ~ (0 <= cutoff /\ cutoff <= 1)%Q ->
  Difflib.get_close_matches word poss cutoff = Raise ValueError.
Proof.
  intros Hc. unfold Difflib.get_close_matches.
  destruct (negb _) eqn:Hn; [reflexivity|].
  apply valid_cutoff_check in Hn. contradiction.
Qed.

Lemma max_from_In cur l : In (Difflib.max_from cur l) (cur :: l).
Proof.
  revert cur. induction l as [|x l IH]; intros cur; simpl.
  - now left.
  - specialize (IH (if Difflib.scored_gtb x cur then x else cur)).
    destruct (Difflib.scored_gtb x cur); simpl in IH; tauto.
Qed.

Lemma scored_In word cutoff poss q x :
  In (q, x) (Difflib.scored word cutoff poss) <->
  In x poss /\ Difflib.good_enough word cutoff x = true
  /\ q = Difflib.similarity word x.
Proof.
  induction poss as [|y poss IH]; simpl; [tauto|].
  destruct (Difflib.good_enough word cutoff y) eqn:Hg; simpl; rewrite IH.
  - split.
    + intros [[= <- <-]|(Hin & Hx & Hq)]; auto.
    + intros ([->|Hin] & Hx & ->); auto.
  - split.
    + intros (Hin & Hx & Hq); auto.
    + intros ([->|Hin] & Hx & ->); [congruence|auto].
Qed.

Lemma good_enough_reaches word cutoff x :
  Difflib.good_enough word cutoff x = true ->
  (cutoff <= Difflib.similarity word x)%Q.
Proof.
  unfold Difflib.good_enough, Difflib.similarity.
  rewrite !andb_true_iff, !Qle_bool_iff. tauto.
Qed.

(** What [get_close_matches] answers, for a cutoff in [0,1]: nothing, or
    one possibility that reaches the cutoff. *)
Lemma close_matches_cases word poss cutoff :
  (0 <= cutoff /\ cutoff <= 1)%Q ->
  Difflib.get_close_matches word poss cutoff = Ok []
  \/ exists best,
       Difflib.get_close_matches word poss cutoff = Ok [best]
       /\ In best poss /\ (cutoff <= Difflib.similarity word best)%Q.
Proof.
  intros Hc. rewrite (get_close_matches_valid _ _ _ Hc).
  destruct (Difflib.scored word cutoff poss) as [|x l] eqn:Hs; [now left|].
  right. simpl. exists (snd (Difflib.max_from x l)). split; [reflexivity|].
  pose proof (max_from_In x l) as Hin. rewrite <- Hs in Hin.
  destruct (Difflib.max_from x l) as [q best]. simpl.
  apply scored_In in Hin. destruct Hin as (Hin & Hg & _).
  split; [assumption|]. now apply good_enough_reaches.
Qed.

(** The exact match: the first test of [find_in_inventory]. *)
Lemma find_exact st title author cutoff v :
  Dict.get (inventory_lookup st) (normalize title, normalize author) = Some v ->
  find_in_inventory st title author cutoff = (Ok v, st).
Proof.
  intros Hg. unfold find_in_inventory, Dict.contains, subscript.
  fold (normalize title). fold (normalize author). now rewrite Hg.
Qed.

Lemma find_fuzzy st title author cutoff :
  Dict.contains (inventory_lookup st) (normalize title, normalize author) = false ->
  find_in_inventory st title author cutoff =
    let st' := {| inventory_lookup := inventory_lookup st;
                  all_titles := Some (titles_used st) |} in
    match Difflib.get_close_matches (normalize title) (titles_used st) cutoff with
    | Raise e => (Raise e, st')
    | Ok close_titles =>
        match close_titles with
        | best_title :: _ =>
            match first_with_title (Dict.keys (inventory_lookup st)) best_title with
            | Some k => (subscript (inventory_lookup st) k, st')
            | None => (Ok not_in_inventory, st')
            end
        | [] => (Ok not_in_inventory, st')
        end
    end.
Proof.
  intros Hc. unfold find_in_inventory.
  fold (normalize title). fold (normalize author). rewrite Hc. reflexivity.
Qed.

End ResolverFacts.

Module ResolverCases.

Import Catalog Resolver Inv ResolverFacts.

(** The outcome of the fuzzy path for a cutoff in [0,1]. *)
Lemma fuzzy_outcome st title author cutoff :
  (0 <= cutoff /\ cutoff <= 1)%Q ->
  Dict.contains (inventory_lookup st) (normalize title, normalize author) = false ->
  fst (find_in_inventory st title author cutoff) = Ok not_in_inventory
  \/ exists best k v,
       In best (titles_used st)
       /\ (cutoff <= Difflib.similarity (normalize title) best)%Q
       /\ first_with_title (Dict.keys (inventory_lookup st)) best = Some k
       /\ Dict.get (inventory_lookup st) k = Some v
       /\ fst (find_in_inventory st title author cutoff) = Ok v.
Proof.
  intros Hc Hno. rewrite (find_fuzzy _ _ _ _ Hno). cbv zeta.
  destruct (close_matches_cases (normalize title) (titles_used st) cutoff Hc)
    as [->|(best & -> & Hin & Hsim)]; [now left|].
  destruct (first_with_title (Dict.keys (inventory_lookup st)) best)
    as [k|] eqn:Hf; [|now left].
  right. destruct (first_with_title_Some _ _ _ Hf) as (pre & post & Hks & _ & _).
  assert (Hk : In k (Dict.keys (inventory_lookup st))).
  { rewrite Hks. apply in_or_app. right. now left. }
  destruct (subscript_key _ _ Hk) as (v & Hsub & Hget).
  exists best, k, v. simpl. auto.
Qed.

Lemma find_valid st title author cutoff :
  (0 <= cutoff /\ cutoff <= 1)%Q ->
  exists v,
    fst (find_in_inventory st title author cutoff) = Ok v
    /\ (v = not_in_inventory
        \/ exists k, In k (Dict.keys (inventory_lookup st))
                     /\ Dict.get (inventory_lookup st) k = Some v).
Proof.
  intros Hv.
  destruct (Dict.contains (inventory_lookup st)
              (normalize title, normalize author)) eqn:Hc.
  - destruct (DictFacts.contains_true_get _ _ Hc) as (v & Hg).
    exists v. rewrite (find_exact _ _ _ cutoff _ Hg).
    split; [reflexivity|]. right. eexists. split; [|exact Hg].
    eapply DictFacts.get_keys. exact Hg.
  - destruct (fuzzy_outcome st title author cutoff Hv Hc)
      as [H|(best & k & v & _ & _ & _ & Hg & H)].
    + exists not_in_inventory. auto.
    + exists v. split; [exact H|]. right. exists k. split; [|exact Hg].
      eapply DictFacts.get_keys. exact Hg.
Qed.

End ResolverCases.

(** C1.  When the normalised (title, author) pair is a key of the index,
    [find_in_inventory] returns the value stored under it, for any cutoff,
    and leaves the session as it was: the titles for the fuzzy matching
    are not even computed. *)
Theorem C1_exact_match (st : Resolver.session) (title author : string)
    (cutoff : Q) (v : string) :
  Dict.get (Resolver.inventory_lookup st)
    (Catalog.normalize title, Catalog.normalize author) = Some v ->
  Resolver.find_in_inventory st title author cutoff = (Ok v, st).
Proof.
  intros Hstored.
  unfold Resolver.find_in_inventory, Dict.contains, Resolver.subscript.
  fold (Catalog.normalize title). fold (Catalog.normalize author).
  rewrite Hstored. reflexivity.
Qed.

Lemma C1_exact_match_witness :
  Resolver.find_in_inventory Example.dune_session " DUNE" "Frank Herbert "
    Resolver.default_cutoff
  = (Ok "yes", Example.dune_session).
Proof. apply C1_exact_match. reflexivity. Defined.

(** C3.  With a cutoff in [0,1], without an exact match, and when no title
    of the index reaches the cutoff, the answer is ["Not in Inventory"];
    this holds whatever titles the session keeps. *)
Theorem C3_no_close_title (st : Resolver.session) (title author : string)
    (cutoff : Q) :
  (0 <= cutoff /\ cutoff <= 1)%Q ->
  Dict.contains (Resolver.inventory_lookup st)
    (Catalog.normalize title, Catalog.normalize author) = false ->
  (forall t a, In (t, a) (Dict.keys (Resolver.inventory_lookup st)) ->
               ~ (cutoff <= Difflib.similarity (Catalog.normalize title) t)%Q) ->
  fst (Resolver.find_in_inventory st title author cutoff)
  = Ok Resolver.not_in_inventory.
Proof.
  intros Hc Hno Hfar.
  destruct (ResolverCases.fuzzy_outcome st title author cutoff Hc Hno)
    as [H|(best & k & v & _ & Hsim & Hf & _)]; [exact H|].
  destruct (ResolverFacts.first_with_title_Some _ _ _ Hf)
    as (pre & post & Hks & Hk & _).
  destruct k as [t a]. simpl in Hk. subst t.
  exfalso. apply (Hfar best a); [|exact Hsim].
  rewrite Hks. apply in_or_app. right. now left.
Qed.

Lemma C3_no_close_title_witness :
  fst (Resolver.find_in_inventory Example.dune_session "Foundation"
         "Isaac Asimov" Resolver.default_cutoff)
  = Ok Resolver.not_in_inventory.
Proof.
  apply C3_no_close_title.
  - split; discriminate.
  - reflexivity.
  - intros t a [[= <- <-]|[]]. vm_compute. intros H. now apply H.
Defined.

(** C7, as amended.  [find_in_inventory] fails exactly when the normalised
    pair is not a key of the index and the cutoff is outside [0,1]; it then
    raises the [ValueError] of the matching routine.  With an exact match
    the cutoff is never looked at. *)
Theorem C7_fails_iff_fuzzy_and_bad_cutoff (st : Resolver.session)
    (title author : string) (cutoff : Q) :
  (raises (fst (Resolver.find_in_inventory st title author cutoff)) = true
   <-> Dict.contains (Resolver.inventory_lookup st)
         (Catalog.normalize title, Catalog.normalize author) = false
       /\ ~ (0 <= cutoff /\ cutoff <= 1)%Q)
  /\ (raises (fst (Resolver.find_in_inventory st title author cutoff)) = true ->
      fst (Resolver.find_in_inventory st title author cutoff) = Raise ValueError).
Proof.
  destruct (Dict.contains (Resolver.inventory_lookup st)
              (Catalog.normalize title, Catalog.normalize author)) eqn:Hc.
  - destruct (DictFacts.contains_true_get _ _ Hc) as (v & Hv).
    rewrite (ResolverFacts.find_exact _ _ _ cutoff _ Hv). simpl.
    split; [|discriminate]. split; [discriminate|]. intros [? _]. discriminate.
  - destruct (negb (Qle_bool 0 cutoff && Qle_bool cutoff 1)) eqn:Hv.
    + assert (Hbad : ~ (0 <= cutoff /\ cutoff <= 1)%Q).
      { intros H. apply ResolverFacts.valid_cutoff_check in H. congruence. }
      rewrite (ResolverFacts.find_fuzzy _ _ _ _ Hc). cbv zeta.
      rewrite (ResolverFacts.get_close_matches_invalid _ _ _ Hbad). simpl.
      split; [|reflexivity]. split; auto.
    + apply ResolverFacts.valid_cutoff_check in Hv.
      destruct (ResolverCases.fuzzy_outcome st title author cutoff Hv Hc)
        as [H|(best & k & v & _ & _ & _ & _ & H)]; rewrite H; simpl.
      * split; [|discriminate]. split; [discriminate|]. intros [_ Hn]. tauto.
      * split; [|discriminate]. split; [discriminate|]. intros [_ Hn]. tauto.
Qed.

Lemma C7_fails_iff_fuzzy_and_bad_cutoff_witness :
  fst (Resolver.find_in_inventory Example.dune_session "Foundation"
         "Isaac Asimov" (Qmake 2 1))
  = Raise ValueError.
Proof.
  apply C7_fails_iff_fuzzy_and_bad_cutoff.
  apply C7_fails_iff_fuzzy_and_bad_cutoff.
  split; [reflexivity|]. intros [_ H]. now apply H.
Defined.

(** C7, as stated, fails: with an exact match a cutoff outside [0,1] is
    accepted and the stored value is returned. *)
Lemma C7_counterexample :
  ~ (0 <= Qmake 2 1 /\ Qmake 2 1 <= 1)%Q
  /\ fst (Resolver.find_in_inventory Example.dune_session "Dune"
            "Frank Herbert" (Qmake 2 1))
     = Ok "yes".
Proof.
  split; [|reflexivity]. intros [_ H]. now apply H.
Qed.

(** C10.  With a cutoff in [0,1], [find_in_inventory] returns a value, and
    this value is ["Not in Inventory"] or the value stored in the index
    under one of its keys. *)
Theorem C10_sentinel_or_stored_value (st : Resolver.session)
    (title author : string) (cutoff : Q) :
  (0 <= cutoff /\ cutoff <= 1)%Q ->
  exists v,
    fst (Resolver.find_in_inventory st title author cutoff) = Ok v
    /\ (v = Resolver.not_in_inventory
        \/ exists k, In k (Dict.keys (Resolver.inventory_lookup st))
                     /\ Dict.get (Resolver.inventory_lookup st) k = Some v).
Proof.
  intros Hv.
  destruct (Dict.contains (Resolver.inventory_lookup st)
              (Catalog.normalize title, Catalog.normalize author)) eqn:Hc.
  - (* exact match: the value stored under the normalised pair *)
    destruct (DictFacts.contains_true_get _ _ Hc) as (v & Hg).
    exists v. rewrite (ResolverFacts.find_exact _ _ _ cutoff _ Hg).
    split; [reflexivity|]. right.
    exists (Catalog.normalize title, Catalog.normalize author).
    split; [|exact Hg]. eapply DictFacts.get_keys. exact Hg.
  - (* fuzzy path: the sentinel, or the value under the first key that
       carries the best title *)
    destruct (ResolverCases.fuzzy_outcome st title author cutoff Hv Hc)
      as [H|(best & k & v & _ & _ & _ & Hg & H)].
    + exists Resolver.not_in_inventory. auto.
    + exists v. split; [exact H|]. right. exists k. split; [|exact Hg].
      eapply DictFacts.get_keys. exact Hg.
Qed.

Lemma C10_sentinel_or_stored_value_witness :
  exists v,
    fst (Resolver.find_in_inventory Example.dune_session "Dune "
           "Unknown Author" Resolver.default_cutoff) = Ok v
    /\ (v = Resolver.not_in_inventory
        \/ exists k,
             In k (Dict.keys (Resolver.inventory_lookup Example.dune_session))
             /\ Dict.get (Resolver.inventory_lookup Example.dune_session) k
                = Some v).
Proof. apply C10_sentinel_or_stored_value. split; discriminate. Defined.

(** ** The cover fetcher *)

Module CoverFacts.

Import CoverFetcher Endpoint.

Lemma cover_unreachable net title author :
  net (cover_url title author) = Failed ->
  get_book_cover net title author = Ok JNull.
Proof. unfold get_book_cover, get_book_cover_try. now intros ->. Qed.

Lemma cover_http_error net title author status body :
  net (cover_url title author) = Response status body ->
  400 <= status < 600 ->
  get_book_cover net title author = Ok JNull.
Proof.
  unfold get_book_cover, get_book_cover_try, raise_for_status. intros -> [Hlo Hhi].
  apply Nat.leb_le in Hlo. apply Nat.ltb_lt in Hhi. now rewrite Hlo, Hhi.
Qed.

Lemma cover_malformed_json net title author status :
  net (cover_url title author) = Response status None ->
  get_book_cover net title author = Ok JNull.
Proof.
  unfold get_book_cover, get_book_cover_try, raise_for_status. intros ->.
  destruct (_ && _); reflexivity.
Qed.

(** On the documents of the service the fetcher does not raise, whatever
    the status. *)
Lemma cover_shaped_no_raise net title author status data :
  net (cover_url title author) = Response status (Some data) ->
  document_shaped data ->
  raises (get_book_cover net title author) = false.
Proof.
  unfold get_book_cover, get_book_cover_try, raise_for_status. intros -> Hdoc.
  destruct (_ && _); [reflexivity|]. simpl.
  destruct Hdoc as (d & -> & Hitems). simpl.
  unfold Dict.contains.
  destruct (Dict.get d "items") as [items|] eqn:Hi; simpl; [|reflexivity].
  destruct (Hitems _ eq_refl) as (l & -> & Hl).
  destruct l as [|item l]; simpl; [reflexivity|].
  inversion Hl as [|? ? (di & -> & Hinfo) _]; subst. simpl.
  destruct (Dict.get di "volumeInfo") as [info|] eqn:Hv; simpl; [|reflexivity].
  destruct (Hinfo _ eq_refl) as (dv & -> & Hlinks). simpl.
  unfold Dict.get_default.
  destruct (Dict.get dv "imageLinks") as [links|] eqn:Hk; simpl.
  - destruct (Hlinks _ eq_refl) as (dl & -> & Hthumb). simpl.
    unfold Dict.get_default.
    destruct (Dict.get dl "thumbnail") as [x|] eqn:Ht; simpl; [|reflexivity].
    destruct (Hthumb _ eq_refl) as (s & ->). simpl.
    destruct (negb (Py.is_empty s)); reflexivity.
  - reflexivity.
Qed.

(** On success the thumbnail comes back with ["http://"] replaced by
    ["https://"] and ["&edge=curl"] removed. *)
Lemma cover_success url title author :
  Py.is_empty url = false ->
  get_book_cover (Endpoint.with_thumbnail url) title author
  = Ok (JStr (clean_url url)).
Proof.
  intros He. unfold get_book_cover, get_book_cover_try. simpl.
  rewrite He. reflexivity.
Qed.

Example cover_success_url :
  get_book_cover
    (Endpoint.with_thumbnail "http://books.google.com/c?id=1&edge=curl&zoom=2")
    "Dune" "Frank Herbert"
  = Ok (JStr "https://books.google.com/c?id=1&zoom=2").
Proof. vm_compute. reflexivity. Qed.

Ltac step_bind :=
  match goal with
  | |- context [bind ?m _] =>
      let E := fresh "E" in destruct m as [?|[]] eqn:E; simpl
  end.

Lemma py_in_no_value_error key x : py_in key x <> Raise ValueError.
Proof. destruct x; discriminate. Qed.

Lemma subscript_str_no_value_error x key : subscript_str x key <> Raise ValueError.
Proof.
  destruct x; try discriminate. simpl. destruct (Dict.get d key); discriminate.
Qed.

Lemma subscript_0_no_value_error x : subscript_0 x <> Raise ValueError.
Proof.
  destruct x as [| | |s|l|d]; try discriminate.
  - destruct s; discriminate.
  - destruct l; discriminate.
Qed.

Lemma dict_get_no_value_error x key default :
  dict_get x key default <> Raise ValueError.
Proof. destruct x; discriminate. Qed.

Lemma try_no_value_error net title author :
  get_book_cover_try net title author <> Raise ValueError.
Proof.
  unfold get_book_cover_try.
  destruct (net (cover_url title author)) as [|status body]; [discriminate|].
  unfold raise_for_status. destruct (_ && _); simpl; [discriminate|].
  destruct body as [data|]; simpl; [|discriminate].
  pose proof (py_in_no_value_error "items" data).
  step_bind; try congruence.
  destruct (negb _); [discriminate|].
  pose proof (subscript_str_no_value_error data "items").
  step_bind; try congruence.
  destruct (negb _); [discriminate|].
  match goal with v : json |- context [subscript_0 ?x] =>
    pose proof (subscript_0_no_value_error x) end.
  step_bind; try congruence.
  match goal with |- context [subscript_str ?x ?k] =>
    pose proof (subscript_str_no_value_error x k) end.
  step_bind; try congruence.
  match goal with |- context [dict_get ?x ?k ?d] =>
    pose proof (dict_get_no_value_error x k d) end.
  step_bind; try congruence.
  match goal with |- context [dict_get ?x ?k ?d] =>
    pose proof (dict_get_no_value_error x k d) end.
  step_bind; try congruence.
  destruct (truthy _); [|discriminate].
  match goal with |- clean_image ?x <> _ => destruct x; discriminate end.
Qed.

(** What escapes the [except] clause is a [TypeError] or an
    [AttributeError]. *)
Lemma cover_raises_only net title author e :
  get_book_cover net title author = Raise e ->
  e = TypeError \/ e = AttributeError.
Proof.
  unfold get_book_cover.
  pose proof (try_no_value_error net title author) as Hv.
  destruct (get_book_cover_try net title author) as [v|e']; [discriminate|].
  destruct e'; simpl; intros H; inversion H; auto. congruence.
Qed.

End CoverFacts.

(** C6, at the input where it fails.  The service answers with a volume
    whose ["imageLinks"] is [null]: the second [.get] is applied to [None],
    and the [AttributeError] is not among the exceptions caught. *)
Theorem C6_cover_raises_on_null_links :
  CoverFetcher.get_book_cover Endpoint.null_links "Dune" "Frank Herbert"
  = Raise AttributeError.
Proof. vm_compute. reflexivity. Qed.

(** ** The aggregator *)

Module AggregatorFacts.

Import CoverFetcher Aggregator.

(** The session a task leaves does not depend on the network. *)
Lemma fetch_session net st t a :
  snd (fetch_single_book_data net st t a)
  = snd (Resolver.find_in_inventory st t a Resolver.default_cutoff).
Proof.
  unfold fetch_single_book_data.
  destruct (Resolver.find_in_inventory st t a Resolver.default_cutoff) as [[v|e] st'];
    [|reflexivity].
  destruct (get_book_cover net t a); reflexivity.
Qed.

Lemma default_cutoff_valid : (0 <= Resolver.default_cutoff /\ Resolver.default_cutoff <= 1)%Q.
Proof. split; discriminate. Qed.

(** A task fails exactly when its cover fetch does: the resolver has no
    failure at the default cutoff. *)
Lemma fetch_raises net st t a :
  raises (fst (fetch_single_book_data net st t a))
  = raises (get_book_cover net t a).
Proof.
  unfold fetch_single_book_data.
  destruct (ResolverCases.find_valid st t a Resolver.default_cutoff
              default_cutoff_valid) as (v & Hv & _).
  destruct (Resolver.find_in_inventory st t a Resolver.default_cutoff) as [r st'].
  simpl in Hv. subst r.
  destruct (get_book_cover net t a); reflexivity.
Qed.

(** A task's outcome depends on the network through the answer for its own
    URL only. *)
Lemma fetch_same_answer net net' st t a :
  net' (cover_url t a) = net (cover_url t a) ->
  fetch_single_book_data net' st t a = fetch_single_book_data net st t a.
Proof.
  intros H. unfold fetch_single_book_data, get_book_cover, get_book_cover_try.
  now rewrite H.
Qed.

Lemma run_tasks_books net : forall tasks st,
  map snd (fst (run_tasks net st tasks)) = tasks.
Proof.
  induction tasks as [|[t a] rest IH]; intros st; simpl; [reflexivity|].
  destruct (fetch_single_book_data net st t a) as [r st1].
  specialize (IH st1). destruct (run_tasks net st1 rest) as [fs st2].
  simpl in *. now rewrite IH.
Qed.

Lemma run_tasks_length net tasks st :
  List.length (fst (run_tasks net st tasks)) = List.length tasks.
Proof.
  rewrite <- (run_tasks_books net tasks st) at 2. now rewrite length_map.
Qed.

Lemma run_tasks_session net net' : forall tasks st,
  snd (run_tasks net' st tasks) = snd (run_tasks net st tasks).
Proof.
  induction tasks as [|[t a] rest IH]; intros st; simpl; [reflexivity|].
  pose proof (fetch_session net st t a) as H.
  pose proof (fetch_session net' st t a) as H'.
  destruct (fetch_single_book_data net st t a) as [r st1].
  destruct (fetch_single_book_data net' st t a) as [r' st1'].
  simpl in H, H'. subst st1 st1'.
  specialize (IH (snd (Resolver.find_in_inventory st t a Resolver.default_cutoff))).
  destruct (run_tasks net _ rest), (run_tasks net' _ rest). exact IH.
Qed.

(** Isolation: the future of a book is the same under two networks that
    answer alike for this book. *)
Lemma run_tasks_isolated net net' : forall tasks st i t a,
  nth_error tasks i = Some (t, a) ->
  net' (cover_url t a) = net (cover_url t a) ->
  nth_error (fst (run_tasks net' st tasks)) i
  = nth_error (fst (run_tasks net st tasks)) i.
Proof.
  induction tasks as [|[t0 a0] rest IH]; intros st i t a Hi Hnet.
  - destruct i; discriminate.
  - simpl.
    pose proof (fetch_session net st t0 a0) as H.
    pose proof (fetch_session net' st t0 a0) as H'.
    destruct i as [|i]; simpl in Hi.
    + injection Hi as -> ->.
      rewrite (fetch_same_answer net net' st t a Hnet).
      destruct (fetch_single_book_data net st t a) as [r st1].
      simpl in H, H'.
      destruct (run_tasks net st1 rest), (run_tasks net' st1 rest). reflexivity.
    + destruct (fetch_single_book_data net st t0 a0) as [r st1].
      destruct (fetch_single_book_data net' st t0 a0) as [r' st1'].
      simpl in H, H'. subst st1 st1'.
      specialize (IH (snd (Resolver.find_in_inventory st t0 a0
                             Resolver.default_cutoff)) i t a Hi Hnet).
      destruct (run_tasks net _ rest), (run_tasks net' _ rest). exact IH.
Qed.

Lemma gather_all : forall futures,
  flat_map (gather futures) (seq 0 (List.length futures)) = map record_of futures.
Proof.
  induction futures as [|f fs IH]; simpl; [reflexivity|].
  unfold gather at 1. simpl. f_equal.
  rewrite <- seq_shift, flat_map_concat_map, map_map, <- flat_map_concat_map.
  exact IH.
Qed.

(** Whatever the order of completion, the records are those of the
    futures, one each. *)
Lemma gather_permutation futures completion :
  Permutation completion (seq 0 (List.length futures)) ->
  Permutation (flat_map (gather futures) completion) (map record_of futures).
Proof.
  intros Hp. rewrite <- gather_all. now apply Permutation_flat_map.
Qed.

Lemma record_of_failed f e :
  fst f = Raise e -> record_of f = error_record (snd f).
Proof. unfold record_of. now intros ->. Qed.

Lemma record_of_done f r : fst f = Ok r -> record_of f = r.
Proof. unfold record_of. now intros ->. Qed.

End AggregatorFacts.

(** C5.  When the futures complete in any order, each once, the result
    holds exactly one record per parsed book: the record its task returned,
    or, for a task that raised, the book's title and author with
    availability ["Error"] and no cover.  The future of a book is the same
    under any other network that answers alike for this book, so a failure
    for one book leaves the records of the others as they are. *)
Theorem C5_one_record_per_book (net : CoverFetcher.network)
    (st : Resolver.session) (completion : list nat) (suggestions : string) :
  Permutation completion
    (seq 0 (List.length (Parser.parse_books suggestions))) ->
  List.length (Aggregator.check_inventory_with_images net st completion suggestions)
  = List.length (Parser.parse_books suggestions)
  /\ Permutation
       (Aggregator.check_inventory_with_images net st completion suggestions)
       (map Aggregator.record_of
          (fst (Aggregator.run_tasks net st (Parser.parse_books suggestions))))
  /\ map snd (fst (Aggregator.run_tasks net st (Parser.parse_books suggestions)))
     = Parser.parse_books suggestions
  /\ (forall f e, fst f = Raise e ->
        Aggregator.record_of f
        = {| Aggregator.title := fst (snd f);
             Aggregator.author := snd (snd f);
             Aggregator.availability := "Error";
             Aggregator.cover := CoverFetcher.JNull |})
  /\ (forall f r, fst f = Ok r -> Aggregator.record_of f = r)
  /\ (forall net' i t a,
        nth_error (Parser.parse_books suggestions) i = Some (t, a) ->
        net' (CoverFetcher.cover_url t a) = net (CoverFetcher.cover_url t a) ->
        nth_error
          (fst (Aggregator.run_tasks net' st (Parser.parse_books suggestions))) i
        = nth_error
            (fst (Aggregator.run_tasks net st (Parser.parse_books suggestions))) i).
Proof.
  intros Hp.
  rewrite <- (AggregatorFacts.run_tasks_length net _ st) in Hp.
  pose proof (AggregatorFacts.gather_permutation _ _ Hp) as Hperm.
  split; [|split; [exact Hperm|split; [|split; [|split]]]].
  - unfold Aggregator.check_inventory_with_images.
    rewrite (Permutation_length Hperm), length_map.
    apply AggregatorFacts.run_tasks_length.
  - apply AggregatorFacts.run_tasks_books.
  - intros f e He. apply (AggregatorFacts.record_of_failed f e He).
  - intros f r Hr. apply (AggregatorFacts.record_of_done f r Hr).
  - intros net' i t a Hi Hn.
    apply (AggregatorFacts.run_tasks_isolated net net' _ st i t a Hi Hn).
Qed.

Lemma C5_one_record_per_book_witness :
  List.length
    (Aggregator.check_inventory_with_images Outage.net Example.dune_session
       [1; 0] Spec.dune_foundation)
  = List.length (Parser.parse_books Spec.dune_foundation).
Proof.
  apply (C5_one_record_per_book Outage.net Example.dune_session [1; 0]
           Spec.dune_foundation).
  vm_compute. apply perm_swap.
Defined.

(** The example: the task of "Dune" fails, "Foundation" completes first. *)
Example outage_results :
  Aggregator.check_inventory_with_images Outage.net Example.dune_session
    [1; 0] Spec.dune_foundation
  = [ {| Aggregator.title := "Foundation";
         Aggregator.author := "Isaac Asimov";
         Aggregator.availability := "Not in Inventory";
         Aggregator.cover := CoverFetcher.JStr "https://covers.example/f.jpg" |};
      {| Aggregator.title := "Dune";
         Aggregator.author := "Frank Herbert";
         Aggregator.availability := "Error";
         Aggregator.cover := CoverFetcher.JNull |} ].
Proof. vm_compute. reflexivity. Qed.

(** ** Multiset intersection *)

Module CountingFacts.

Import Counting.

Lemma alphabet_complete c : In c alphabet.
Proof.
  unfold alphabet. rewrite <- (ascii_nat_embedding c).
  apply in_map, in_seq. pose proof (nat_ascii_bounded c). lia.
Qed.

Lemma alphabet_NoDup : NoDup alphabet.
Proof.
  unfold alphabet. apply Finite.Injective_map_NoDup_in; [|apply seq_NoDup].
  intros x y Hx Hy Heq. apply in_seq in Hx, Hy.
  rewrite <- (nat_ascii_embedding x), <- (nat_ascii_embedding y) by lia.
  now rewrite Heq.
Qed.

Lemma list_sum_le {A : Type} (f g : A -> nat) l :
  (forall x, f x <= g x) -> list_sum (map f l) <= list_sum (map g l).
Proof.
  intros H. induction l as [|x l IH]; simpl; [lia|]. specialize (H x). lia.
Qed.

Lemma list_sum_plus {A : Type} (f g : A -> nat) l :
  list_sum (map (fun x => f x + g x) l) = list_sum (map f l) + list_sum (map g l).
Proof. induction l as [|x l IH]; simpl; lia. Qed.

Lemma list_sum_ext {A : Type} (f g : A -> nat) l :
  (forall x, f x = g x) -> list_sum (map f l) = list_sum (map g l).
Proof. intros H. induction l as [|x l IH]; simpl; [reflexivity|]. now rewrite H, IH. Qed.

Lemma list_sum_zero (l : list ascii) (x : ascii) (n : nat) :
  ~ In x l -> list_sum (map (fun c => if ascii_dec x c then n else 0) l) = 0.
Proof.
  induction l as [|y l IH]; simpl; [reflexivity|]. intros Hn.
  destruct (ascii_dec x y) as [->|_]; [tauto|]. apply IH. tauto.
Qed.

Lemma list_sum_single (l : list ascii) (x : ascii) (n : nat) :
  NoDup l -> In x l ->
  list_sum (map (fun c => if ascii_dec x c then n else 0) l) = n.
Proof.
  induction 1 as [|y l Hy Hl IH]; simpl; [tauto|].
  destruct (ascii_dec x y) as [->|Hne].
  - intros _. rewrite list_sum_zero by assumption. lia.
  - intros [->|Hin]; [congruence|]. now apply IH.
Qed.

Lemma sum_over_le f g : (forall c, f c <= g c) -> sum_over f <= sum_over g.
Proof. apply list_sum_le. Qed.

Lemma sum_over_ext f g : (forall c, f c = g c) -> sum_over f = sum_over g.
Proof. apply list_sum_ext. Qed.

Lemma sum_over_plus f g :
  sum_over (fun c => f c + g c) = sum_over f + sum_over g.
Proof. apply list_sum_plus. Qed.

Lemma sum_over_single x n :
  sum_over (fun c => if ascii_dec x c then n else 0) = n.
Proof.
  apply list_sum_single; [apply alphabet_NoDup|apply alphabet_complete].
Qed.

Lemma count_cons x l c :
  count (x :: l) c = (if ascii_dec x c then 1 else 0) + count l c.
Proof. unfold count. simpl. destruct (ascii_dec x c); reflexivity. Qed.

Lemma count_app l1 l2 c : count (l1 ++ l2) c = count l1 c + count l2 c.
Proof. apply count_occ_app. Qed.

(** Every element is counted once. *)
Lemma sum_count l : sum_over (count l) = List.length l.
Proof.
  induction l as [|x l IH]; simpl.
  - unfold sum_over. induction alphabet; simpl; auto.
  - rewrite (sum_over_ext _ _ (count_cons x l)), sum_over_plus,
      sum_over_single, IH. reflexivity.
Qed.

Lemma common_le_left x y : common x y <= List.length x.
Proof.
  rewrite <- sum_count. apply sum_over_le. intros c. apply Nat.le_min_l.
Qed.

Lemma common_le_right x y : common x y <= List.length y.
Proof.
  rewrite <- (sum_count y). apply sum_over_le. intros c. apply Nat.le_min_r.
Qed.

(** A common middle part counts in full, and the two sides apart. *)
Lemma common_split x1 x2 y1 y2 m :
  common x1 y1 + List.length m + common x2 y2
  <= common (x1 ++ m ++ x2) (y1 ++ m ++ y2).
Proof.
  rewrite <- (sum_count m). unfold common. rewrite <- !sum_over_plus.
  apply sum_over_le. intros c. rewrite !count_app. lia.
Qed.

Lemma firstn_plus {A : Type} n m : forall l : list A,
  firstn (n + m) l = firstn n l ++ firstn m (skipn n l).
Proof.
  induction n as [|n IH]; intros l; simpl; [reflexivity|].
  destruct l as [|x l]; simpl.
  - now rewrite firstn_nil.
  - now rewrite IH.
Qed.

Lemma slice_split l lo mid hi :
  lo <= mid <= hi -> slice l lo hi = slice l lo mid ++ slice l mid hi.
Proof.
  intros [H1 H2]. unfold slice.
  replace (hi - lo) with ((mid - lo) + (hi - mid)) by lia.
  rewrite firstn_plus, skipn_skipn.
  replace (mid - lo + lo) with mid by lia. reflexivity.
Qed.

Lemma slice_all l : slice l 0 (List.length l) = l.
Proof. unfold slice. rewrite Nat.sub_0_r. simpl. apply firstn_all. Qed.

End CountingFacts.

(** ** The longest matching block *)

Module LongestFacts.

Import Difflib MatchSpec.

Section Seqs.
Variables a b : list ascii.

Lemma enumerate_from_In {A : Type} (l : list A) : forall k i x,
  In (i, x) (enumerate_from k l) -> k <= i /\ nth_error l (i - k) = Some x.
Proof.
  induction l as [|y l IH]; intros k i x; simpl; [tauto|].
  intros [[= <- <-]|Hin].
  - rewrite Nat.sub_diag. auto.
  - destruct (IH _ _ _ Hin) as [Hle Hn]. split; [lia|].
    replace (i - k) with (S (i - S k)) by lia. exact Hn.
Qed.

Lemma sound_get b2j c js :
  sound_b2j b b2j -> Dict.get_default b2j c [] = js ->
  forall j, In j js -> nth_error b j = Some c.
Proof.
  intros Hs Hg j Hj. unfold Dict.get_default in Hg.
  destruct (Dict.get b2j c) as [js'|] eqn:Hget.
  - subst js'. apply DictFacts.get_In in Hget. eapply Hs; eauto.
  - subst js. destruct Hj.
Qed.

Lemma chain_fold_sound (l : list (nat * ascii)) : forall d,
  (forall i x, In (i, x) l -> nth_error b i = Some x) ->
  sound_b2j b d ->
  sound_b2j b
    (fold_left
       (fun (d : Dict.t ascii (list nat)) (ie : nat * ascii) =>
          let (i, elt) := ie in
          Dict.set d elt (Dict.get_default d elt [] ++ [i]))
       l d).
Proof.
  induction l as [|[i elt] l IH]; intros d Hl Hd; simpl; [exact Hd|].
  apply IH.
  - intros i' x Hin. apply Hl. now right.
  - intros c js j Hin Hj.
    apply DictFacts.In_set in Hin. destruct Hin as [[-> ->]|Hin].
    + apply in_app_or in Hj. destruct Hj as [Hj|[<-|[]]].
      * eapply sound_get; eauto.
      * apply Hl. now left.
    + eapply Hd; eauto.
Qed.

Lemma chain_b_sound : sound_b2j b (chain_b b).
Proof.
  assert (Hfold : sound_b2j b
            (fold_left
               (fun (d : Dict.t ascii (list nat)) (ie : nat * ascii) =>
                  let (i, elt) := ie in
                  Dict.set d elt (Dict.get_default d elt [] ++ [i]))
               (enumerate_from 0 b) [])).
  { apply chain_fold_sound.
    - intros i x Hin. apply enumerate_from_In in Hin.
      rewrite Nat.sub_0_r in Hin. tauto.
    - intros c js j []. }
  unfold chain_b. destruct (200 <=? List.length b); [|exact Hfold].
  intros c js j Hin Hj. apply filter_In in Hin. eapply Hfold; [apply Hin|exact Hj].
Qed.

Section Region.
Variable b2j : Dict.t ascii (list nat).
Hypothesis b2j_sound : sound_b2j b b2j.
Variables alo ahi blo bhi : nat.

Local Abbreviation ok := (ok_block a b alo ahi blo bhi).
Local Abbreviation rows_ok := (row_ok a b alo blo bhi).

Lemma matches_at_0 i j : matches_at a b i j 0.
Proof. intros d Hd. lia. Qed.

(** A match grows by one matching pair at its end. *)
Lemma matches_at_snoc i j k x :
  matches_at a b i j k ->
  nth_error a (i + k) = Some x -> nth_error b (j + k) = Some x ->
  matches_at a b i j (k + 1).
Proof.
  intros Hm Ha Hb d Hd. destruct (Nat.eq_dec d k) as [->|Hne].
  - eauto.
  - apply Hm. lia.
Qed.

(** A match grows by one matching pair at its start. *)
Lemma matches_at_cons i j k x :
  matches_at a b (S i) (S j) k ->
  nth_error a i = Some x -> nth_error b j = Some x ->
  matches_at a b i j (k + 1).
Proof.
  intros Hm Ha Hb [|d] Hd.
  - rewrite !Nat.add_0_r. eauto.
  - destruct (Hm d ltac:(lia)) as (y & Hya & Hyb). exists y.
    rewrite <- !plus_n_Sm. auto.
Qed.

Lemma prev_len_ok i j j2len :
  rows_ok i j2len -> alo <= i -> blo <= j ->
  alo + prev_len j2len j <= i /\ blo + prev_len j2len j <= j
  /\ matches_at a b (i - prev_len j2len j) (j - prev_len j2len j)
       (prev_len j2len j).
Proof.
  intros Hrow Hi Hj. unfold prev_len. destruct j as [|j'].
  - rewrite !Nat.add_0_r. repeat split; auto using matches_at_0.
  - unfold Dict.get_default.
    destruct (Dict.get j2len j') as [k|] eqn:Hg.
    + apply DictFacts.get_In in Hg.
      destruct (Hrow _ _ Hg) as (H1 & H2 & H3 & H4 & H5).
      repeat split; try lia.
      replace (S j' - k) with (j' + 1 - k) by lia. exact H5.
    + rewrite !Nat.add_0_r. repeat split; auto using matches_at_0.
Qed.

Lemma scan_row_ok i x : forall js j2len newj2len best,
  alo <= i -> i < ahi ->
  nth_error a i = Some x ->
  (forall j, In j js -> nth_error b j = Some x) ->
  rows_ok i j2len -> rows_ok (i + 1) newj2len -> ok best ->
  rows_ok (i + 1) (fst (scan_row blo bhi i js j2len newj2len best))
  /\ ok (snd (scan_row blo bhi i js j2len newj2len best)).
Proof.
  induction js as [|j js IH]; intros j2len newj2len best Hlo Hhi Hx Hjs Hrow Hnew Hbest;
    simpl; [auto|].
  assert (Hjs' : forall j', In j' js -> nth_error b j' = Some x)
    by (intros; apply Hjs; now right).
  destruct (j <? blo) eqn:Hjlo; [now apply IH|].
  destruct (bhi <=? j) eqn:Hjhi; [auto|].
  apply Nat.ltb_ge in Hjlo. apply Nat.leb_gt in Hjhi.
  destruct (prev_len_ok i j j2len Hrow Hlo Hjlo) as (Hp1 & Hp2 & Hp3).
  set (p := prev_len j2len j) in *.
  assert (Hm : matches_at a b (i + 1 - (p + 1)) (j + 1 - (p + 1)) (p + 1)).
  { replace (i + 1 - (p + 1)) with (i - p) by lia.
    replace (j + 1 - (p + 1)) with (j - p) by lia.
    apply (matches_at_snoc _ _ _ x Hp3).
    - replace (i - p + p) with i by lia. exact Hx.
    - replace (j - p + p) with j by lia. apply Hjs. now left. }
  destruct best as [[besti bestj] bestsize].
  apply IH; auto.
  - intros j0 k0 Hin. apply DictFacts.In_set in Hin.
    destruct Hin as [[-> ->]|Hin]; [|now apply Hnew].
    repeat split; try lia. exact Hm.
  - destruct (bestsize <? p + 1); [|exact Hbest].
    simpl. repeat split; try lia. exact Hm.
Qed.

Lemma rows_ok_nil i : rows_ok i [].
Proof. intros j k []. Qed.

Lemma scan_rows_ok : forall n i j2len best,
  alo <= i -> i + n <= ahi ->
  rows_ok i j2len -> ok best ->
  ok (scan_rows a b2j blo bhi (seq i n) j2len best).
Proof.
  induction n as [|n IH]; intros i j2len best Hlo Hhi Hrow Hbest; simpl;
    [exact Hbest|].
  destruct (nth_error a i) as [x|] eqn:Hx.
  - destruct (scan_row_ok i x (Dict.get_default b2j x []) j2len [] best)
      as [Hr Hb]; auto; try lia.
    + intros j Hj. eapply sound_get; eauto.
    + apply rows_ok_nil.
    + destruct (scan_row blo bhi i (Dict.get_default b2j x []) j2len [] best)
        as [newj2len best'].
      simpl in Hr, Hb. apply IH; auto; try lia.
      now replace (S i) with (i + 1) by lia.
  - simpl. apply IH; auto; try lia. apply rows_ok_nil.
Qed.

Lemma same_elt_true i j :
  same_elt a b i j = true ->
  exists x, nth_error a i = Some x /\ nth_error b j = Some x.
Proof.
  unfold same_elt.
  destruct (nth_error a i) as [x|]; [|discriminate].
  destruct (nth_error b j) as [y|]; [|discriminate].
  intros H. apply Ascii.eqb_eq in H. subst y. eauto.
Qed.

Lemma extend_left_ok junk : forall besti bestj bestsize,
  ok (besti, bestj, bestsize) ->
  ok (extend_left a b alo blo junk besti bestj bestsize).
Proof.
  induction besti as [|i' IH]; intros bestj bestsize Hok; simpl; [exact Hok|].
  destruct (_ && _) eqn:Hc; [|exact Hok].
  rewrite !andb_true_iff in Hc. destruct Hc as [[[H1 H2] _] H3].
  apply Nat.ltb_lt in H1, H2.
  destruct (same_elt_true _ _ H3) as (x & Hxa & Hxb).
  destruct Hok as (O1 & O2 & O3 & O4 & O5).
  apply IH. repeat split; try lia.
  apply (matches_at_cons _ _ _ x); auto.
  now replace (S (bestj - 1)) with bestj by lia.
Qed.

Lemma extend_right_ok junk besti bestj : forall room bestsize,
  ok (besti, bestj, bestsize) ->
  ok (besti, bestj, extend_right a b ahi bhi room junk besti bestj bestsize).
Proof.
  induction room as [|room IH]; intros bestsize Hok; simpl; [exact Hok|].
  destruct (_ && _) eqn:Hc; [|exact Hok].
  rewrite !andb_true_iff in Hc. destruct Hc as [[[H1 H2] _] H3].
  apply Nat.ltb_lt in H1, H2.
  destruct (same_elt_true _ _ H3) as (x & Hxa & Hxb).
  destruct Hok as (O1 & O2 & O3 & O4 & O5).
  apply IH. repeat split; try lia.
  apply (matches_at_snoc _ _ _ x); auto.
Qed.

(** Both loops run until their test fails: the recursion on [besti], and
    on the room left below [ahi], allows as many turns as the test can
    hold. *)
Lemma extend_left_exits junk : forall besti bestj bestsize,
  let '(i, j, _) := extend_left a b alo blo junk besti bestj bestsize in
  left_test a b alo blo junk i j = false.
Proof.
  induction besti as [|i' IH]; intros bestj bestsize.
  - reflexivity.
  - cbn [extend_left].
    destruct (_ && _) eqn:Hc; [apply IH|].
    unfold left_test. now rewrite Nat.sub_succ, Nat.sub_0_r.
Qed.

Lemma extend_right_exits junk besti bestj : forall room bestsize,
  ahi - (besti + bestsize) <= room ->
  right_test a b ahi bhi junk besti bestj
    (extend_right a b ahi bhi room junk besti bestj bestsize) = false.
Proof.
  induction room as [|room IH]; intros bestsize Hroom.
  - cbn [extend_right]. unfold right_test.
    destruct (Nat.ltb_spec (besti + bestsize) ahi); [lia|reflexivity].
  - cbn [extend_right]. destruct (_ && _) eqn:Hc.
    + apply IH. lia.
    + exact Hc.
Qed.

(** [find_longest_match] returns a matching block of the region. *)
Lemma find_longest_match_ok :
  alo <= ahi -> blo <= bhi ->
  ok (find_longest_match a b b2j alo ahi blo bhi).
Proof.
  intros Ha Hb. unfold find_longest_match.
  assert (H0 : ok (scan_rows a b2j blo bhi (seq alo (ahi - alo)) [] (alo, blo, 0))).
  { apply scan_rows_ok; try lia.
    - apply rows_ok_nil.
    - repeat split; try lia. apply matches_at_0. }
  destruct (scan_rows _ _ _ _ _ _ _) as [[i0 j0] k0].
  pose proof (extend_left_ok false _ _ _ H0) as H1.
  destruct (extend_left a b alo blo false i0 j0 k0) as [[i1 j1] k1].
  pose proof (extend_right_ok false i1 j1 (ahi - (i1 + k1)) _ H1) as H2.
  pose proof (extend_left_ok true _ _ _ H2) as H3.
  destruct (extend_left a b alo blo true i1 j1 _) as [[i2 j2] k2].
  apply (extend_right_ok true i2 j2 (ahi - (i2 + k2)) _ H3).
Qed.

End Region.
End Seqs.

End LongestFacts.

(** ** The matching blocks *)

Module BlocksFacts.

Import Difflib MatchSpec Counting.

Lemma sum_sizes_app l1 l2 : sum_sizes (l1 ++ l2) = sum_sizes l1 + sum_sizes l2.
Proof. induction l1 as [|x l1 IH]; simpl; [reflexivity|]. rewrite IH. lia. Qed.

Lemma sum_sizes_single i j k : sum_sizes [(i, j, k)] = k.
Proof. unfold sum_sizes, block_size. simpl. lia. Qed.

Lemma sum_sizes_insert x l : sum_sizes (insert_block x l) = block_size x + sum_sizes l.
Proof.
  induction l as [|y l IH]; simpl; [reflexivity|].
  destruct (block_leb x y); simpl; [reflexivity|]. rewrite IH. lia.
Qed.

(** Sorting keeps the total size of the blocks. *)
Lemma sum_sizes_sort l : sum_sizes (sort_blocks l) = sum_sizes l.
Proof.
  induction l as [|x l IH]; simpl; [reflexivity|].
  now rewrite sum_sizes_insert, IH.
Qed.

(** Collapsing adjacent blocks keeps it too. *)
Lemma sum_sizes_collapse l : forall cur,
  sum_sizes (collapse cur l) = block_size cur + sum_sizes l.
Proof.
  induction l as [|[[i2 j2] k2] l IH]; intros [[i1 j1] k1]; simpl.
  - destruct (Nat.eqb_spec k1 0) as [->|_]; simpl; unfold block_size; simpl; lia.
  - destruct (_ && _).
    + rewrite IH. unfold block_size. simpl. lia.
    + destruct (Nat.eqb_spec k1 0) as [->|_]; simpl; rewrite IH;
        unfold block_size; simpl; lia.
Qed.

Section Seqs.
Variables a b : list ascii.

Lemma skipn_nth_error {A : Type} (l : list A) : forall n x,
  nth_error l n = Some x -> skipn n l = x :: skipn (S n) l.
Proof.
  induction l as [|y l IH]; intros [|n] x; simpl; try discriminate.
  - now intros [= ->].
  - intros H. now apply IH.
Qed.

Lemma matches_firstn : forall k i j,
  matches_at a b i j k ->
  firstn k (skipn i a) = firstn k (skipn j b)
  /\ List.length (firstn k (skipn i a)) = k.
Proof.
  induction k as [|k IH]; intros i j Hm; [auto|].
  destruct (Hm 0 ltac:(lia)) as (x & Ha & Hb).
  rewrite Nat.add_0_r in Ha, Hb.
  rewrite (skipn_nth_error _ _ _ Ha), (skipn_nth_error _ _ _ Hb).
  rewrite !firstn_cons. cbn [List.length].
  destruct (IH (S i) (S j)) as [He Hl].
  - intros d Hd. destruct (Hm (S d) ltac:(lia)) as (y & Hya & Hyb).
    exists y. rewrite <- !plus_n_Sm in Hya, Hyb. auto.
  - split; [now rewrite He|now rewrite Hl].
Qed.

(** A matching block of a region counts in full among the elements the
    region's two slices share; the parts before and after it add up. *)
Lemma region_split alo ahi blo bhi i j k :
  ok_block a b alo ahi blo bhi (i, j, k) ->
  common (slice a alo i) (slice b blo j) + k
  + common (slice a (i + k) ahi) (slice b (j + k) bhi)
  <= common (slice a alo ahi) (slice b blo bhi).
Proof.
  intros (H1 & H2 & H3 & H4 & Hm).
  rewrite (CountingFacts.slice_split a alo i ahi) by lia.
  rewrite (CountingFacts.slice_split a i (i + k) ahi) by lia.
  rewrite (CountingFacts.slice_split b blo j bhi) by lia.
  rewrite (CountingFacts.slice_split b j (j + k) bhi) by lia.
  destruct (matches_firstn k i j Hm) as [He Hl].
  assert (Hma : slice a i (i + k) = firstn k (skipn i a))
    by (unfold slice; f_equal; lia).
  assert (Hmb : slice b j (j + k) = firstn k (skipn i a))
    by (unfold slice; replace (j + k - j) with k by lia; now symmetry).
  rewrite Hma, Hmb.
  pose proof (CountingFacts.common_split (slice a alo i) (slice a (i + k) ahi)
                (slice b blo j) (slice b (j + k) bhi) (firstn k (skipn i a)))
    as Hsplit.
  rewrite Hl in Hsplit. exact Hsplit.
Qed.

Section Loop.
Variable b2j : Dict.t ascii (list nat).
Hypothesis b2j_sound : sound_b2j b b2j.

Lemma budget_cons r q :
  budget a b (r :: q)
  = (let '(alo, ahi, blo, bhi) := r in
     common (slice a alo ahi) (slice b blo bhi)) + budget a b q.
Proof. reflexivity. Qed.

Lemma weight_cons r q :
  weight (r :: q) = (let '(alo, ahi, _, _) := r in 2 * (ahi - alo) + 1) + weight q.
Proof. reflexivity. Qed.

Lemma pushed_facts alo ahi blo bhi i j k q :
  ok_block a b alo ahi blo bhi (i, j, k) -> 0 < k ->
  Forall region_ok q ->
  Forall region_ok (pushed alo ahi blo bhi i j k q)
  /\ budget a b (pushed alo ahi blo bhi i j k q) + k
     <= budget a b ((alo, ahi, blo, bhi) :: q)
  /\ weight (pushed alo ahi blo bhi i j k q) < weight ((alo, ahi, blo, bhi) :: q).
Proof.
  intros Hok Hk Hq. pose proof (region_split _ _ _ _ _ _ _ Hok) as Hsplit.
  destruct Hok as (H1 & H2 & H3 & H4 & _).
  unfold pushed.
  destruct ((alo <? i) && (blo <? j)); destruct ((i + k <? ahi) && (j + k <? bhi));
    rewrite ?budget_cons, ?weight_cons; repeat split;
    repeat (apply Forall_cons; [simpl; lia|]); try exact Hq; simpl; lia.
Qed.

Lemma blocks_loop_step fuel alo ahi blo bhi q mb :
  blocks_loop a b b2j (S fuel) ((alo, ahi, blo, bhi) :: q) mb
  = let '(i, j, k) := find_longest_match a b b2j alo ahi blo bhi in
    if k =? 0 then blocks_loop a b b2j fuel q mb
    else blocks_loop a b b2j fuel (pushed alo ahi blo bhi i j k q)
           (mb ++ [(i, j, k)]).
Proof. reflexivity. Qed.

(** The blocks found add up to no more than the regions allow. *)
Lemma blocks_loop_bound : forall fuel queue mb res,
  Forall region_ok queue ->
  blocks_loop a b b2j fuel queue mb = Some res ->
  sum_sizes res <= sum_sizes mb + budget a b queue.
Proof.
  induction fuel as [|fuel IH]; intros [|[[[alo ahi] blo] bhi] q] mb res Hq.
  - simpl. intros [= <-]. lia.
  - discriminate.
  - simpl. intros [= <-]. lia.
  - inversion Hq as [|? ? Hr Hq']; subst. simpl in Hr. destruct Hr as [Ha Hb].
    rewrite blocks_loop_step.
    pose proof (LongestFacts.find_longest_match_ok a b b2j b2j_sound
                  alo ahi blo bhi Ha Hb) as Hok.
    destruct (find_longest_match a b b2j alo ahi blo bhi) as [[i j] k].
    destruct (Nat.eqb_spec k 0) as [->|Hk].
    + intros Hres. specialize (IH _ _ _ Hq' Hres). rewrite budget_cons. lia.
    + intros Hres.
      destruct (pushed_facts _ _ _ _ _ _ _ q Hok ltac:(lia) Hq') as (Hf & Hbud & _).
      specialize (IH _ _ _ Hf Hres).
      rewrite sum_sizes_app, sum_sizes_single in IH. unfold region in *. lia.
Qed.

(** With as many turns as the regions weigh, the loop empties the queue. *)
Lemma blocks_loop_terminates : forall fuel queue mb,
  Forall region_ok queue -> weight queue <= fuel ->
  exists res, blocks_loop a b b2j fuel queue mb = Some res.
Proof.
  induction fuel as [|fuel IH]; intros [|[[[alo ahi] blo] bhi] q] mb Hq Hw.
  - simpl. eauto.
  - rewrite weight_cons in Hw. lia.
  - simpl. eauto.
  - inversion Hq as [|? ? Hr Hq']; subst. simpl in Hr. destruct Hr as [Ha Hb].
    rewrite blocks_loop_step.
    pose proof (LongestFacts.find_longest_match_ok a b b2j b2j_sound
                  alo ahi blo bhi Ha Hb) as Hok.
    destruct (find_longest_match a b b2j alo ahi blo bhi) as [[i j] k].
    destruct (Nat.eqb_spec k 0) as [->|Hk].
    + apply IH; [exact Hq'|]. rewrite weight_cons in Hw. lia.
    + destruct (pushed_facts _ _ _ _ _ _ _ q Hok ltac:(lia) Hq') as (Hf & _ & Hlt).
      apply IH; [exact Hf|]. unfold region in *. lia.
Qed.

End Loop.

(** [get_matching_blocks] returns: the loop ends within its fuel. *)
Lemma get_matching_blocks_total :
  exists blocks, get_matching_blocks a b = Some blocks.
Proof.
  unfold get_matching_blocks.
  destruct (blocks_loop_terminates (chain_b b) (LongestFacts.chain_b_sound b)
              (blocks_fuel a) [(0, List.length a, 0, List.length b)] [])
    as (res & ->).
  - repeat constructor; lia.
  - unfold weight, blocks_fuel. simpl. lia.
  - eauto.
Qed.

(** The matches of [ratio] are at most the elements the sequences share. *)
Lemma ratio_matches_le_common : ratio_matches a b <= common a b.
Proof.
  unfold ratio_matches, get_matching_blocks.
  destruct (blocks_loop a b (chain_b b) (blocks_fuel a)
              [(0, List.length a, 0, List.length b)] []) as [res|] eqn:Hres;
    [|lia].
  rewrite sum_sizes_app, sum_sizes_collapse, sum_sizes_sort.
  assert (Hq : Forall region_ok [(0, List.length a, 0, List.length b)])
    by (repeat constructor; lia).
  pose proof (blocks_loop_bound (chain_b b) (LongestFacts.chain_b_sound b)
                _ _ _ _ Hq Hres) as Hb.
  unfold budget in Hb. simpl in Hb.
  rewrite !CountingFacts.slice_all in Hb.
  rewrite sum_sizes_single.
  change (sum_sizes []) with 0 in Hb.
  change (block_size (0, 0, 0)) with 0. lia.
Qed.

End Seqs.

End BlocksFacts.

(** ** The quick ratios are upper bounds *)

Module RatioFacts.

Import Difflib MatchSpec Counting.

Lemma get_default_set {V : Type} (d : Dict.t ascii V) x v c default :
  Dict.get_default (Dict.set d x v) c default
  = if ascii_dec x c then v else Dict.get_default d c default.
Proof.
  unfold Dict.get_default. rewrite DictFacts.get_set.
  change (keqb c x) with (Ascii.eqb c x).
  destruct (ascii_dec x c) as [->|Hne].
  - now rewrite Ascii.eqb_refl.
  - destruct (Ascii.eqb_spec c x); [congruence|reflexivity].
Qed.

Lemma contains_set {V : Type} (d : Dict.t ascii V) x v c :
  Dict.contains (Dict.set d x v) c
  = if ascii_dec x c then true else Dict.contains d c.
Proof.
  unfold Dict.contains. rewrite DictFacts.get_set.
  change (keqb c x) with (Ascii.eqb c x).
  destruct (ascii_dec x c) as [->|Hne].
  - now rewrite Ascii.eqb_refl.
  - destruct (Ascii.eqb_spec c x); [congruence|reflexivity].
Qed.

Lemma fullbcount_fold (l : list ascii) : forall (d : Dict.t ascii Z) c,
  Dict.get_default
    (fold_left
       (fun (d : Dict.t ascii Z) (elt : ascii) =>
          Dict.set d elt (Dict.get_default d elt 0 + 1)%Z)
       l d) c 0%Z
  = (Dict.get_default d c 0 + Z.of_nat (count l c))%Z.
Proof.
  induction l as [|x l IH]; intros d c.
  - unfold count. simpl. lia.
  - rewrite CountingFacts.count_cons. cbn [fold_left].
    rewrite IH, get_default_set.
    destruct (ascii_dec x c) as [->|Hne]; lia.
Qed.

(** [fullbcount] counts the occurrences in [b]. *)
Lemma fullbcount_count b c :
  Dict.get_default (fullbcount b) c 0%Z = Z.of_nat (count b c).
Proof. unfold fullbcount. rewrite fullbcount_fold. reflexivity. Qed.

Lemma sum_over_zero : sum_over (fun _ => 0) = 0.
Proof. unfold sum_over. induction alphabet; simpl; auto. Qed.

Section Seqs.
Variable b : list ascii.

Lemma available_set avail x v c :
  available b (Dict.set avail x v) c
  = if ascii_dec x c then v else available b avail c.
Proof.
  unfold available. rewrite contains_set, get_default_set.
  destruct (ascii_dec x c); reflexivity.
Qed.

(** The loop of [quick_ratio] counts, for each element, as many matches
    as [elts] has of it, up to what is available. *)
Lemma quick_loop_spec : forall elts avail matches,
  quick_loop b elts avail matches
  = matches
    + sum_over (fun c => Nat.min (count elts c) (Z.to_nat (available b avail c))).
Proof.
  induction elts as [|x elts IH]; intros avail matches; cbn [quick_loop].
  - rewrite (CountingFacts.sum_over_ext _ (fun _ => 0)), sum_over_zero; [lia|].
    intros c. reflexivity.
  - fold (available b avail x). rewrite IH.
    set (numb := available b avail x).
    rewrite (CountingFacts.sum_over_ext
               (fun c => Nat.min (count (x :: elts) c)
                           (Z.to_nat (available b avail c)))
               (fun c => Nat.min (count elts c)
                           (Z.to_nat (available b (Dict.set avail x (numb - 1)%Z) c))
                         + (if ascii_dec x c
                            then (if (0 <? numb)%Z then 1 else 0) else 0))).
    + rewrite CountingFacts.sum_over_plus, CountingFacts.sum_over_single.
      destruct (0 <? numb)%Z; lia.
    + intros c. rewrite available_set, CountingFacts.count_cons.
      destruct (ascii_dec x c) as [<-|Hne]; [|lia].
      fold numb. destruct (Z.ltb_spec 0 numb); lia.
Qed.

Variable a : list ascii.

(** [quick_ratio] counts the elements the two sequences share. *)
Lemma quick_matches_common : quick_matches a b = common a b.
Proof.
  unfold quick_matches. rewrite quick_loop_spec. simpl. unfold common.
  apply CountingFacts.sum_over_ext. intros c.
  unfold available. simpl. now rewrite fullbcount_count, Nat2Z.id.
Qed.

Lemma calculate_ratio_mono m m' t :
  m <= m' -> (calculate_ratio m t <= calculate_ratio m' t)%Q.
Proof.
  intros H. unfold calculate_ratio. destruct (t =? 0); [apply Qle_refl|].
  unfold Qle. cbn [Qnum Qden]. apply Z.mul_le_mono_nonneg_r; lia.
Qed.

Lemma ratio_le_quick_ratio : (ratio a b <= quick_ratio a b)%Q.
Proof.
  apply calculate_ratio_mono. rewrite quick_matches_common.
  apply BlocksFacts.ratio_matches_le_common.
Qed.

Lemma ratio_le_real_quick_ratio : (ratio a b <= real_quick_ratio a b)%Q.
Proof.
  apply calculate_ratio_mono.
  pose proof (BlocksFacts.ratio_matches_le_common a b).
  pose proof (CountingFacts.common_le_left a b).
  pose proof (CountingFacts.common_le_right a b). lia.
Qed.

End Seqs.

(** The three tests of [get_close_matches] amount to the last one. *)
Lemma good_enough_ratio word cutoff x :
  good_enough word cutoff x = Qle_bool cutoff (similarity word x).
Proof.
  unfold good_enough, similarity.
  destruct (Qle_bool cutoff (ratio (seq_of x) (seq_of word))) eqn:Hr;
    [|apply andb_false_r].
  apply Qle_bool_iff in Hr.
  rewrite !andb_true_iff, !Qle_bool_iff. repeat split; auto.
  - eapply Qle_trans; [exact Hr|apply ratio_le_real_quick_ratio].
  - eapply Qle_trans; [exact Hr|apply ratio_le_quick_ratio].
Qed.

End RatioFacts.

(** ** The best match *)

Module BestFacts.

Import Difflib MatchSpec.

Lemma string_gt_lt s t : String.compare s t = Gt <-> String_as_OT.lt t s.
Proof.
  rewrite <- String_as_OT.cmp_lt. unfold String_as_OT.cmp.
  rewrite (String.compare_antisym t s).
  destruct (String.compare s t); simpl; split; congruence.
Qed.

Lemma string_not_gt s t :
  String.compare s t <> Gt -> s = t \/ String_as_OT.lt s t.
Proof.
  intros H. destruct (String.compare s t) eqn:Hc.
  - left. now apply String.compare_eq_iff.
  - right. now apply String_as_OT.cmp_lt.
  - congruence.
Qed.

Lemma string_lt_irrefl s : ~ String_as_OT.lt s s.
Proof. intros H. now apply (String_as_OT.lt_not_eq _ _ H). Qed.

Lemma scored_gtb_spec p q : scored_gtb p q = true <-> scored_gt p q.
Proof.
  unfold scored_gtb, scored_gt.
  destruct (Qcompare (fst p) (fst q)) eqn:Hc.
  - apply Qeq_alt in Hc. destruct (String.compare (snd p) (snd q)) eqn:Hs.
    + split; [discriminate|]. intros [Hlt|[_ H]]; [|discriminate].
      rewrite Hc in Hlt. now apply Qlt_irrefl in Hlt.
    + split; [discriminate|]. intros [Hlt|[_ H]]; [|discriminate].
      rewrite Hc in Hlt. now apply Qlt_irrefl in Hlt.
    + split; auto.
  - apply Qlt_alt in Hc. split; [discriminate|].
    intros [Hlt|[Heq _]].
    + exfalso. apply (Qlt_irrefl (fst p)). eapply Qlt_trans; eauto.
    + rewrite Heq in Hc. now apply Qlt_irrefl in Hc.
  - apply Qgt_alt in Hc. split; auto.
Qed.

Lemma scored_gt_asym p q : scored_gt p q -> ~ scored_gt q p.
Proof.
  intros [Hlt|[Heq Hs]] [Hlt'|[Heq' Hs']].
  - apply (Qlt_irrefl (fst p)). eapply Qlt_trans; eauto.
  - rewrite Heq' in Hlt. now apply Qlt_irrefl in Hlt.
  - rewrite Heq in Hlt'. now apply Qlt_irrefl in Hlt'.
  - apply string_gt_lt in Hs, Hs'.
    apply (string_lt_irrefl (snd p)). eapply String_as_OT.lt_trans; eauto.
Qed.

(** "Not greater" is transitive. *)
Lemma scored_not_gt_trans p q r :
  ~ scored_gt p q -> ~ scored_gt q r -> ~ scored_gt p r.
Proof.
  unfold scored_gt. intros Hpq Hqr Hpr.
  assert (H1 : (fst p <= fst q)%Q) by (apply Qnot_lt_le; tauto).
  assert (H2 : (fst q <= fst r)%Q) by (apply Qnot_lt_le; tauto).
  destruct Hpr as [Hlt|[Heq Hs]].
  - apply (Qlt_irrefl (fst r)).
    eapply Qlt_le_trans; [exact Hlt|]. eapply Qle_trans; eauto.
  - assert (Epq : (fst p == fst q)%Q).
    { apply Qle_antisym; [exact H1|]. rewrite Heq. exact H2. }
    assert (Eqr : (fst q == fst r)%Q) by (rewrite <- Epq; exact Heq).
    assert (S1 : String.compare (snd p) (snd q) <> Gt) by tauto.
    assert (S2 : String.compare (snd q) (snd r) <> Gt) by tauto.
    apply string_gt_lt in Hs.
    destruct (string_not_gt _ _ S1) as [E1|L1];
      destruct (string_not_gt _ _ S2) as [E2|L2].
    + rewrite E1, E2 in Hs. now apply string_lt_irrefl in Hs.
    + rewrite E1 in Hs. apply (string_lt_irrefl (snd q)).
      eapply String_as_OT.lt_trans; eauto.
    + rewrite <- E2 in Hs. apply (string_lt_irrefl (snd p)).
      eapply String_as_OT.lt_trans; eauto.
    + apply (string_lt_irrefl (snd p)).
      eapply String_as_OT.lt_trans; [exact L1|].
      eapply String_as_OT.lt_trans; eauto.
Qed.

Lemma scored_not_gt_refl p : ~ scored_gt p p.
Proof. intros H. exact (scored_gt_asym _ _ H H). Qed.

(** [max] returns an element that none exceeds. *)
Lemma max_from_max : forall l cur y,
  In y (cur :: l) -> ~ scored_gt y (max_from cur l).
Proof.
  induction l as [|x l IH]; intros cur y Hin.
  - destruct Hin as [<-|[]]. apply scored_not_gt_refl.
  - cbn [max_from].
    destruct (scored_gtb x cur) eqn:Hx.
    + apply scored_gtb_spec in Hx.
      destruct Hin as [<-|Hin]; [|apply IH; exact Hin].
      apply (scored_not_gt_trans _ x).
      * now apply scored_gt_asym.
      * apply IH. now left.
    + assert (Hx' : ~ scored_gt x cur).
      { intros H. apply scored_gtb_spec in H. congruence. }
      destruct Hin as [<-|[<-|Hin]].
      * apply IH. now left.
      * apply (scored_not_gt_trans _ cur); [exact Hx'|]. apply IH. now left.
      * apply IH. now right.
Qed.

(** The answer of [get_close_matches] when a possibility reaches the
    cutoff: a possibility of the highest score, and the greatest string
    among those. *)
Lemma close_matches_best word poss cutoff t0 :
  (0 <= cutoff /\ cutoff <= 1)%Q ->
  In t0 poss -> (cutoff <= similarity word t0)%Q ->
  exists best,
    get_close_matches word poss cutoff = Ok [best]
    /\ In best poss
    /\ (cutoff <= similarity word best)%Q
    /\ forall t, In t poss ->
         (similarity word t <= similarity word best)%Q
         /\ ((similarity word t == similarity word best)%Q ->
             String.compare t best <> Gt).
Proof.
  intros Hc Hin0 Hsim0.
  assert (Hs0 : In (similarity word t0, t0) (scored word cutoff poss)).
  { apply ResolverFacts.scored_In. repeat split; auto.
    rewrite RatioFacts.good_enough_ratio. now apply Qle_bool_iff. }
  rewrite (ResolverFacts.get_close_matches_valid _ _ _ Hc).
  destruct (scored word cutoff poss) as [|x l] eqn:Hs; [destruct Hs0|].
  pose proof (ResolverFacts.max_from_In x l) as Hm. rewrite <- Hs in Hm.
  pose proof (max_from_max l x) as Hmax.
  destruct (max_from x l) as [q best] eqn:Hbest.
  apply ResolverFacts.scored_In in Hm. destruct Hm as (Hbin & Hg & ->).
  exists best. simpl. rewrite Hbest. simpl.
  pose proof (ResolverFacts.good_enough_reaches _ _ _ Hg) as Hreach.
  repeat split; auto.
  - destruct (Qlt_le_dec (similarity word t) cutoff) as [Hlow|Hhigh].
    + apply Qlt_le_weak. eapply Qlt_le_trans; eauto.
    + apply Qnot_lt_le. intros Hlt.
      apply (Hmax (similarity word t, t)).
      * rewrite <- Hs. apply ResolverFacts.scored_In. repeat split; auto.
        rewrite RatioFacts.good_enough_ratio. now apply Qle_bool_iff.
      * left. exact Hlt.
  - intros Heq Hgt.
    apply (Hmax (similarity word t, t)).
    + rewrite <- Hs. apply ResolverFacts.scored_In. repeat split; auto.
      rewrite RatioFacts.good_enough_ratio. apply Qle_bool_iff.
      rewrite Heq. exact Hreach.
    + right. simpl. auto.
Qed.

End BestFacts.

(** ** The session stays in step with the catalog *)

Module ScriptFacts.

Import Catalog Resolver Inv Script.

Lemma titles_used_fresh st :
  titles_fresh st -> titles_used st = titles_of (inventory_lookup st).
Proof. unfold titles_used. intros [-> | ->]; reflexivity. Qed.

(** The answer depends on the session through the index and the titles
    compared only, and a call changes neither: the tasks of the pool get
    the same answers in whatever order they reach the session. *)
Lemma find_depends st st' title author cutoff :
  inventory_lookup st = inventory_lookup st' ->
  titles_used st = titles_used st' ->
  fst (find_in_inventory st title author cutoff)
  = fst (find_in_inventory st' title author cutoff).
Proof.
  intros Hl Ht.
  destruct (Dict.contains (inventory_lookup st)
              (normalize title, normalize author)) eqn:Hc.
  - destruct (DictFacts.contains_true_get _ _ Hc) as (v & Hv).
    rewrite (ResolverFacts.find_exact st _ _ cutoff _ Hv).
    rewrite Hl in Hv. now rewrite (ResolverFacts.find_exact st' _ _ cutoff _ Hv).
  - rewrite (ResolverFacts.find_fuzzy st _ _ _ Hc).
    rewrite Hl in Hc. rewrite (ResolverFacts.find_fuzzy st' _ _ _ Hc).
    cbv zeta. rewrite Hl, Ht.
    destruct (Difflib.get_close_matches _ _ _) as [[|best rest]|e];
      reflexivity.
Qed.

Lemma find_session st title author cutoff :
  inventory_lookup (snd (find_in_inventory st title author cutoff))
  = inventory_lookup st
  /\ titles_used (snd (find_in_inventory st title author cutoff))
     = titles_used st.
Proof.
  destruct (Dict.contains (inventory_lookup st)
              (normalize title, normalize author)) eqn:Hc.
  - destruct (DictFacts.contains_true_get _ _ Hc) as (v & Hv).
    rewrite (ResolverFacts.find_exact st _ _ cutoff _ Hv). now split.
  - rewrite (ResolverFacts.find_fuzzy st _ _ _ Hc). cbv zeta.
    destruct (Difflib.get_close_matches _ _ _) as [[|best rest]|e];
      try (now split).
    destruct (first_with_title _ best); now split.
Qed.

Lemma find_after_find st title author cutoff title' author' cutoff' :
  fst (find_in_inventory (snd (find_in_inventory st title' author' cutoff'))
         title author cutoff)
  = fst (find_in_inventory st title author cutoff).
Proof.
  destruct (find_session st title' author' cutoff') as [Hl Ht].
  now apply find_depends.
Qed.

(** A call of [find_in_inventory] keeps the index, and keeps the titles in
    step with it. *)
Lemma find_keeps_session books st title author cutoff :
  session_ok books st ->
  session_ok books (snd (find_in_inventory st title author cutoff)).
Proof.
  intros [Hidx Hfresh].
  destruct (Dict.contains (inventory_lookup st)
              (normalize title, normalize author)) eqn:Hc.
  - destruct (DictFacts.contains_true_get _ _ Hc) as (v & Hv).
    rewrite (ResolverFacts.find_exact _ _ _ cutoff _ Hv). now split.
  - rewrite (ResolverFacts.find_fuzzy _ _ _ _ Hc). cbv zeta.
    assert (Hok : session_ok books
              {| inventory_lookup := inventory_lookup st;
                 all_titles := Some (titles_used st) |}).
    { split; [exact Hidx|]. right. simpl. now rewrite titles_used_fresh. }
    destruct (Difflib.get_close_matches _ _ _) as [[|best rest]|e]; try exact Hok.
    destruct (first_with_title _ best); exact Hok.
Qed.

(** With an unchanged catalog, in every state the script reaches the
    caches hold what the catalog gives, and the session, once started,
    holds the catalog's index and titles in step with it. *)
Lemma reachable_invariant books x :
  reachable books x ->
  coherent books (lru x)
  /\ forall st, sess x = Some st -> session_ok books st.
Proof.
  induction 1 as [|x y Hx [Hcoh Hsess] Hstep].
  - split; [|discriminate]. split; now left.
  - destruct Hstep as [c d c' Hb|c s|c st title author cutoff
                       |c st d c' Hb|c st d c' Hb]; simpl in *.
    + destruct (CatalogFacts.build_coherent books c Hcoh) as [Hd Hc'].
      rewrite Hb in Hd, Hc'. simpl in Hd, Hc'. injection Hd as ->.
      split; [exact Hc'|]. intros st [= <-]. split; [reflexivity|now left].
    + split; [split; now left|exact Hsess].
    + split; [exact Hcoh|]. intros st' [= <-].
      apply find_keeps_session. now apply Hsess.
    + destruct (CatalogFacts.build_coherent books c Hcoh) as [Hd Hc'].
      rewrite Hb in Hd, Hc'. simpl in Hd, Hc'. injection Hd as ->.
      split; [exact Hc'|]. intros st' [= <-].
      destruct (Hsess st eq_refl) as [Hidx Hfresh].
      split; [reflexivity|]. unfold titles_fresh in *. simpl.
      now rewrite <- Hidx.
    + unfold rebuild in Hb.
      destruct (CatalogFacts.build_coherent books no_caches) as [Hd Hc'].
      { split; now left. }
      rewrite Hb in Hd, Hc'. simpl in Hd, Hc'. injection Hd as ->.
      split; [exact Hc'|]. intros st' [= <-].
      destruct (Hsess st eq_refl) as [Hidx Hfresh].
      split; [reflexivity|]. unfold titles_fresh in *. simpl.
      now rewrite <- Hidx.
Qed.

End ScriptFacts.

(** C2.  In a state the script reaches with an unchanged catalog, for a
    cutoff in [0,1] and a query without exact match: when some title of
    the index reaches the cutoff, there is a best title (of the highest
    similarity, and the greatest string among the titles of that
    similarity) that reaches it, and the answer is the value of the first
    key of the index with this title, whatever the author of the query. *)
Theorem C2_fuzzy_match_ignores_author (books : Catalog.inventory)
    (x : Script.app) (st : Resolver.session) (title author : string)
    (cutoff : Q) :
  Script.reachable books x -> Script.sess x = Some st ->
  (0 <= cutoff /\ cutoff <= 1)%Q ->
  Dict.contains (Resolver.inventory_lookup st)
    (Catalog.normalize title, Catalog.normalize author) = false ->
  (exists t a,
     In (t, a) (Dict.keys (Resolver.inventory_lookup st))
     /\ (cutoff <= Difflib.similarity (Catalog.normalize title) t)%Q) ->
  exists best a pre post v,
    Dict.keys (Resolver.inventory_lookup st) = pre ++ (best, a) :: post
    /\ (forall k, In k pre -> fst k <> best)
    /\ Dict.get (Resolver.inventory_lookup st) (best, a) = Some v
    /\ (cutoff <= Difflib.similarity (Catalog.normalize title) best)%Q
    /\ (forall t a',
          In (t, a') (Dict.keys (Resolver.inventory_lookup st)) ->
          (Difflib.similarity (Catalog.normalize title) t
           <= Difflib.similarity (Catalog.normalize title) best)%Q
          /\ ((Difflib.similarity (Catalog.normalize title) t
               == Difflib.similarity (Catalog.normalize title) best)%Q ->
              String.compare t best <> Gt))
    /\ (forall author',
          Dict.contains (Resolver.inventory_lookup st)
            (Catalog.normalize title, Catalog.normalize author') = false ->
          fst (Resolver.find_in_inventory st title author' cutoff) = Ok v).
Proof.
  intros Hreach Hsess Hc Hno (t0 & a0 & Hin0 & Hsim0).
  destruct (ScriptFacts.reachable_invariant books x Hreach) as [_ Hinv].
  destruct (Hinv st Hsess) as [_ Hfresh].
  pose proof (ScriptFacts.titles_used_fresh st Hfresh) as Hused.
  assert (Ht0 : In t0 (Resolver.titles_of (Resolver.inventory_lookup st))).
  { unfold Resolver.titles_of. change t0 with (fst (t0, a0)). now apply in_map. }
  destruct (BestFacts.close_matches_best (Catalog.normalize title)
              (Resolver.titles_of (Resolver.inventory_lookup st)) cutoff t0
              Hc Ht0 Hsim0) as (best & Hclose & Hbin & Hbsim & Hbest).
  unfold Resolver.titles_of in Hbin. apply in_map_iff in Hbin.
  destruct Hbin as ([tb ab] & Htb & Hkb). simpl in Htb. subst tb.
  destruct (Resolver.first_with_title (Dict.keys (Resolver.inventory_lookup st))
              best) as [k|] eqn:Hf.
  2:{ exfalso. now apply (ResolverFacts.first_with_title_found _ _ _ Hkb). }
  destruct (ResolverFacts.first_with_title_Some _ _ _ Hf)
    as (pre & post & Hks & Hk & Hpre).
  destruct k as [tk ak]. simpl in Hk. subst tk.
  assert (Hkin : In (best, ak) (Dict.keys (Resolver.inventory_lookup st))).
  { rewrite Hks. apply in_or_app. right. now left. }
  destruct (ResolverFacts.subscript_key _ _ Hkin) as (v & Hsub & Hget).
  exists best, ak, pre, post, v. repeat split; auto.
  - apply (Hbest t). unfold Resolver.titles_of.
    change t with (fst (t, a')). now apply in_map.
  - apply (Hbest t). unfold Resolver.titles_of.
    change t with (fst (t, a')). now apply in_map.
  - intros author' Hno'.
    rewrite (ResolverFacts.find_fuzzy _ _ _ _ Hno'). cbv zeta.
    rewrite Hused, Hclose, Hf. simpl. exact Hsub.
Qed.

Lemma started_reachable : Script.reachable [Example.dune] Started.app.
Proof.
  eapply Script.reach_step; [apply Script.reach_initial|].
  unfold Script.initial, Started.app, Example.dune_session.
  apply Script.step_start. reflexivity.
Qed.

Lemma C2_fuzzy_match_ignores_author_witness :
  exists best a pre post v,
    Dict.keys (Resolver.inventory_lookup Example.dune_session)
    = pre ++ (best, a) :: post
    /\ (forall k, In k pre -> fst k <> best)
    /\ Dict.get (Resolver.inventory_lookup Example.dune_session) (best, a) = Some v
    /\ (Resolver.default_cutoff
        <= Difflib.similarity (Catalog.normalize "Dune ") best)%Q
    /\ (forall t a',
          In (t, a') (Dict.keys (Resolver.inventory_lookup Example.dune_session)) ->
          (Difflib.similarity (Catalog.normalize "Dune ") t
           <= Difflib.similarity (Catalog.normalize "Dune ") best)%Q
          /\ ((Difflib.similarity (Catalog.normalize "Dune ") t
               == Difflib.similarity (Catalog.normalize "Dune ") best)%Q ->
              String.compare t best <> Gt))
    /\ (forall author',
          Dict.contains (Resolver.inventory_lookup Example.dune_session)
            (Catalog.normalize "Dune ", Catalog.normalize author') = false ->
          fst (Resolver.find_in_inventory Example.dune_session "Dune " author'
                 Resolver.default_cutoff) = Ok v).
Proof.
  apply (C2_fuzzy_match_ignores_author [Example.dune] Started.app
           Example.dune_session "Dune " "Unknown Author" Resolver.default_cutoff).
  - apply started_reachable.
  - reflexivity.
  - split; discriminate.
  - reflexivity.
  - exists "dune", "frank herbert". split; [now left|]. vm_compute. discriminate.
Defined.

(** The examples of the resolver on the one-book catalog. *)
Example resolve_exact :
  fst (Resolver.find_in_inventory Example.dune_session "dune" "frank herbert"
         Resolver.default_cutoff) = Ok "yes".
Proof. vm_compute. reflexivity. Qed.

Example resolve_other_author :
  fst (Resolver.find_in_inventory Example.dune_session "Dune " "Unknown Author"
         Resolver.default_cutoff) = Ok "yes".
Proof. vm_compute. reflexivity. Qed.

Example resolve_unknown :
  fst (Resolver.find_in_inventory Example.dune_session "Foundation" "Isaac Asimov"
         Resolver.default_cutoff) = Ok "Not in Inventory".
Proof. vm_compute. reflexivity. Qed.

(** Titles kept from another catalog are not refreshed by the cache
    buttons; with them the fuzzy matching misses the index's own title. *)
Example stale_titles_miss :
  fst (Resolver.find_in_inventory Started.stale_session "Dune " "Unknown Author"
         Resolver.default_cutoff) = Ok "Not in Inventory".
Proof. vm_compute. reflexivity. Qed.

(** * Further properties *)

(** ** Stripping and splitting *)

Module StripFacts.

Import Spec.

Lemma all_chars_app p s1 s2 :
  all_chars p (s1 ++ s2) = all_chars p s1 && all_chars p s2.
Proof.
  induction s1 as [|c s1 IH]; simpl; [reflexivity|].
  rewrite IH. apply andb_assoc.
Qed.

Lemma append_empty_r s : (s ++ "")%string = s.
Proof. induction s as [|c s IH]; simpl; [reflexivity|]. now rewrite IH. Qed.

Lemma append_assoc s1 s2 s3 :
  ((s1 ++ s2) ++ s3)%string = (s1 ++ s2 ++ s3)%string.
Proof. induction s1 as [|c s1 IH]; simpl; [reflexivity|]. now rewrite IH. Qed.

Lemma lstrip_all p l s : all_chars p l = true ->
  Py.lstrip_by p (l ++ s) = Py.lstrip_by p s.
Proof.
  induction l as [|c l IH]; simpl; [reflexivity|].
  rewrite andb_true_iff. intros [-> Hl]. auto.
Qed.

Lemma lstrip_clean p s :
  (forall c, first_char s = Some c -> p c = false) -> Py.lstrip_by p s = s.
Proof.
  destruct s as [|c s]; simpl; [reflexivity|].
  intros H. now rewrite (H c eq_refl).
Qed.

Lemma rstrip_all p t : all_chars p t = true -> Py.rstrip_by p t = EmptyString.
Proof.
  induction t as [|c t IH]; simpl; [reflexivity|].
  rewrite andb_true_iff. intros [-> Ht]. now rewrite (IH Ht).
Qed.

Lemma rstrip_clean p t : forall r,
  all_chars p t = true ->
  (forall c, last_char r = Some c -> p c = false) ->
  Py.rstrip_by p (r ++ t) = r.
Proof.
  induction r as [|c r IH]; intros Ht Hlast.
  - simpl. now apply rstrip_all.
  - cbn [String.append Py.rstrip_by]. rewrite IH; auto.
    + destruct r as [|d r]; simpl.
      * simpl in Hlast. now rewrite (Hlast c eq_refl).
      * reflexivity.
    + intros d Hd. apply Hlast. simpl. now rewrite Hd.
Qed.

(** What [strip_by] leaves is determined by the decomposition: the part
    between two runs of characters to strip, when it neither starts nor
    ends with one. *)
Lemma strip_by_unique p l r t :
  all_chars p l = true -> all_chars p t = true ->
  (forall c, first_char r = Some c -> p c = false) ->
  (forall c, last_char r = Some c -> p c = false) ->
  Py.strip_by p (l ++ r ++ t) = r.
Proof.
  intros Hl Ht Hf Hlast. unfold Py.strip_by.
  destruct r as [|c r].
  - cbn [String.append].
    rewrite <- (append_empty_r (l ++ t)), lstrip_all.
    + reflexivity.
    + now rewrite all_chars_app, Hl, Ht.
  - rewrite (lstrip_all _ _ _ Hl), lstrip_clean.
    + now apply rstrip_clean.
    + simpl. exact Hf.
Qed.

End StripFacts.

(** ** More on the line parser *)

Module ParserMore.

Import Spec Parser.

Lemma stripped_mem p s r c :
  stripped_of p s r -> Py.mem c s = false -> Py.mem c r = false.
Proof.
  intros (l & t & -> & _) Hm.
  rewrite !PyFacts.mem_app, !orb_false_iff in Hm. tauto.
Qed.

Lemma is_empty_false s : Py.is_empty s = false -> s <> EmptyString.
Proof. destruct s; [discriminate|]. intros _ H. discriminate. Qed.

(** A line that gives a pair: where the pair comes from. *)
Lemma parse_line_Some line t a :
  parse_line line = Some (t, a) ->
  exists before after,
    line = (before ++ dash ++ after)%string
    /\ Py.mem separator before = false
    /\ t = Py.strip (Py.strip_chars numbering before)
    /\ a = Py.strip after
    /\ Py.is_empty t = false /\ Py.is_empty a = false.
Proof.
  intros Hp.
  destruct (Py.mem separator line) eqn:Hm.
  2:{ rewrite (ParserFacts.parse_line_no_separator _ Hm) in Hp. discriminate. }
  destruct (PyFacts.mem_cut _ _ Hm) as (before & after & -> & Hb).
  exists before, after.
  change (before ++ String separator after)%string
    with (before ++ dash ++ after)%string in Hp.
  rewrite (ParserFacts.parse_line_cut _ after Hb) in Hp. cbv zeta in Hp.
  destruct (Py.is_empty (Py.strip (Py.strip_chars numbering before))) eqn:Ht;
    [discriminate|].
  destruct (Py.is_empty (Py.strip after)) eqn:Ha; [discriminate|].
  simpl in Hp. injection Hp as <- <-. repeat split; auto.
Qed.

Lemma collect_In lines t a :
  In (t, a) (collect lines) <->
  exists line, In line lines /\ parse_line line = Some (t, a).
Proof.
  rewrite ParserFacts.collect_flat_map, in_flat_map. split.
  - intros (line & Hl & Hin). exists line. split; [exact Hl|].
    destruct (parse_line line) as [[t' a']|]; simpl in Hin; [|tauto].
    destruct Hin as [[= -> ->]|[]]. reflexivity.
  - intros (line & Hl & Hp). exists line. split; [exact Hl|].
    rewrite Hp. now left.
Qed.

Lemma split_app sep a b :
  Py.split sep (a ++ String sep b) = Py.split sep a ++ Py.split sep b.
Proof.
  induction a as [|c a IH]; simpl.
  - now rewrite Ascii.eqb_refl.
  - destruct (Ascii.eqb c sep); [now rewrite IH|].
    rewrite IH. pose proof (PyFacts.split_nonempty sep a) as Hn.
    destruct (Py.split sep a); [congruence|reflexivity].
Qed.

Lemma collect_app l1 l2 : collect (l1 ++ l2) = collect l1 ++ collect l2.
Proof.
  rewrite !ParserFacts.collect_flat_map. apply flat_map_app.
Qed.

Lemma all_chars_not_mem p s c :
  all_chars p s = true -> p c = false -> Py.mem c s = false.
Proof.
  intros Hs Hc. induction s as [|d s IH]; simpl in *; [reflexivity|].
  apply andb_true_iff in Hs. destruct Hs as [Hd Hs].
  rewrite (IH Hs), orb_false_r.
  destruct (Ascii.eqb_spec c d) as [->|_]; [congruence|reflexivity].
Qed.

End ParserMore.

(** X1.  Every pair the parser returns is clean: title and author are not
    empty, neither starts nor ends with whitespace, neither holds a line
    break, and the title holds no ['-']. *)
Theorem X1_parsed_pairs_clean (raw t a : string) :
  In (t, a) (Parser.parse_books raw) ->
  t <> EmptyString /\ a <> EmptyString
  /\ (forall c, Spec.first_char t = Some c -> Py.is_space c = false)
  /\ (forall c, Spec.last_char t = Some c -> Py.is_space c = false)
  /\ (forall c, Spec.first_char a = Some c -> Py.is_space c = false)
  /\ (forall c, Spec.last_char a = Some c -> Py.is_space c = false)
  /\ Py.mem Parser.separator t = false
  /\ Py.mem Parser.newline t = false
  /\ Py.mem Parser.newline a = false.
Proof.
  unfold Parser.parse_books. intros Hin.
  apply ParserMore.collect_In in Hin. destruct Hin as (line & Hline & Hp).
  destruct (PyFacts.split_join Parser.newline raw) as [_ Hfree].
  rewrite Forall_forall in Hfree. specialize (Hfree _ Hline).
  destruct (ParserMore.parse_line_Some _ _ _ Hp)
    as (before & after & -> & Hb & Ht & Ha & Hte & Hae).
  rewrite !PyFacts.mem_app, !orb_false_iff in Hfree.
  destruct Hfree as (Hnb & _ & Hna).
  pose proof (PyFacts.strip_by_stripped (fun c => Py.mem c Parser.numbering) before)
    as Hs1.
  pose proof (PyFacts.strip_by_stripped Py.is_space
                (Py.strip_chars Parser.numbering before)) as Hs2.
  pose proof (PyFacts.strip_by_stripped Py.is_space after) as Hs3.
  fold (Py.strip_chars Parser.numbering before) in Hs1.
  fold (Py.strip (Py.strip_chars Parser.numbering before)) in Hs2.
  fold (Py.strip after) in Hs3.
  rewrite <- Ht in Hs2. rewrite <- Ha in Hs3.
  split; [now apply ParserMore.is_empty_false|].
  split; [now apply ParserMore.is_empty_false|].
  pose proof Hs2 as (l2 & t2 & _ & _ & _ & F2 & L2).
  pose proof Hs3 as (l3 & t3 & _ & _ & _ & F3 & L3).
  split; [exact F2|]. split; [exact L2|].
  split; [exact F3|]. split; [exact L3|].
  split; [|split].
  - apply (ParserMore.stripped_mem _ _ _ _ Hs2).
    apply (ParserMore.stripped_mem _ _ _ _ Hs1 Hb).
  - apply (ParserMore.stripped_mem _ _ _ _ Hs2).
    apply (ParserMore.stripped_mem _ _ _ _ Hs1 Hnb).
  - apply (ParserMore.stripped_mem _ _ _ _ Hs3 Hna).
Qed.

Lemma X1_parsed_pairs_clean_witness :
  "Foundation" <> EmptyString /\ "Isaac Asimov" <> EmptyString
  /\ (forall c, Spec.first_char "Foundation" = Some c -> Py.is_space c = false)
  /\ (forall c, Spec.last_char "Foundation" = Some c -> Py.is_space c = false)
  /\ (forall c, Spec.first_char "Isaac Asimov" = Some c -> Py.is_space c = false)
  /\ (forall c, Spec.last_char "Isaac Asimov" = Some c -> Py.is_space c = false)
  /\ Py.mem Parser.separator "Foundation" = false
  /\ Py.mem Parser.newline "Foundation" = false
  /\ Py.mem Parser.newline "Isaac Asimov" = false.
Proof.
  apply (X1_parsed_pairs_clean Spec.dune_foundation).
  vm_compute. right. left. reflexivity.
Defined.

(** X2.  The format is read back: a line made of numbering characters, a
    title, [" - "] and an author gives this title and this author, when
    the title has no ['-'] and neither starts nor ends with a numbering
    character or whitespace, and the author is not empty and neither
    starts nor ends with whitespace. *)
Theorem X2_numbered_line_round_trip (num title author : string) :
  Spec.all_chars Spec.is_numbering num = true ->
  title <> EmptyString -> author <> EmptyString ->
  Py.mem Parser.separator title = false ->
  (forall c, Spec.first_char title = Some c ->
             Spec.is_numbering c = false /\ Py.is_space c = false) ->
  (forall c, Spec.last_char title = Some c ->
             Spec.is_numbering c = false /\ Py.is_space c = false) ->
  (forall c, Spec.first_char author = Some c -> Py.is_space c = false) ->
  (forall c, Spec.last_char author = Some c -> Py.is_space c = false) ->
  Parser.parse_line (num ++ title ++ " - " ++ author) = Some (title, author).
Proof.
  intros Hnum Ht Ha Hsep Hft Hlt Hfa Hla.
  assert (Hcut : (num ++ title ++ " - " ++ author)%string
                 = ((num ++ title ++ " ") ++ Spec.dash ++ " " ++ author)%string).
  { rewrite !StripFacts.append_assoc. reflexivity. }
  rewrite Hcut, ParserFacts.parse_line_cut.
  2:{ rewrite !PyFacts.mem_app, Hsep.
      rewrite (ParserMore.all_chars_not_mem _ _ _ Hnum); reflexivity. }
  cbv zeta.
  assert (E1 : Py.strip_chars Parser.numbering (num ++ title ++ " ") = title).
  { apply (StripFacts.strip_by_unique Spec.is_numbering num title " ");
      auto; intros c Hc; [apply (Hft c Hc)|apply (Hlt c Hc)]. }
  assert (E2 : Py.strip title = title).
  { rewrite <- (StripFacts.append_empty_r title) at 1.
    apply (StripFacts.strip_by_unique Py.is_space "" title "");
      auto; intros c Hc; [apply (Hft c Hc)|apply (Hlt c Hc)]. }
  assert (E3 : Py.strip (" " ++ author) = author).
  { rewrite <- (StripFacts.append_empty_r author) at 1.
    apply (StripFacts.strip_by_unique Py.is_space " " author ""); auto. }
  rewrite E1, E2, E3.
  destruct title; [congruence|]. destruct author; [congruence|]. reflexivity.
Qed.

Lemma X2_numbered_line_round_trip_witness :
  Parser.parse_line ("12. " ++ "Brave New World" ++ " - " ++ "Aldous Huxley")
  = Some ("Brave New World", "Aldous Huxley").
Proof.
  apply X2_numbered_line_round_trip;
    try reflexivity; try discriminate;
    simpl; intros c [= <-]; try split; reflexivity.
Defined.

(** X3.  The parser works line by line: the books of two texts joined by a
    line break are the books of the first followed by those of the
    second, and a text without ['-'] gives no book. *)
Theorem X3_parse_books_by_lines :
  (forall raw1 raw2,
     Parser.parse_books (raw1 ++ Spec.nl ++ raw2)
     = Parser.parse_books raw1 ++ Parser.parse_books raw2)
  /\ (forall raw, Py.mem Parser.separator raw = false ->
                  Parser.parse_books raw = []).
Proof.
  split.
  - intros raw1 raw2. unfold Parser.parse_books, Spec.nl.
    cbn [String.append]. now rewrite ParserMore.split_app, ParserMore.collect_app.
  - intros raw Hfree.
    destruct (Parser.parse_books raw) as [|[t a] rest] eqn:Hp; [reflexivity|].
    exfalso. assert (Hin : In (t, a) (Parser.parse_books raw))
      by (rewrite Hp; now left).
    unfold Parser.parse_books in Hin. apply ParserMore.collect_In in Hin.
    destruct Hin as (line & Hline & Hl).
    destruct (ParserMore.parse_line_Some _ _ _ Hl) as (before & after & -> & _).
    assert (Hraw : Py.mem Parser.separator
              (Spec.join Parser.newline (Py.split Parser.newline raw)) = false)
      by (now rewrite (proj1 (PyFacts.split_join Parser.newline raw))).
    clear -Hline Hraw.
    induction (Py.split Parser.newline raw) as [|l ls IH]; [destruct Hline|].
    assert (Hl : Py.mem Parser.separator l = false
                 /\ Py.mem Parser.separator (Spec.join Parser.newline ls) = false).
    { destruct ls as [|l' ls']; simpl in Hraw.
      - now split.
      - rewrite PyFacts.mem_app in Hraw. apply orb_false_iff in Hraw.
        destruct Hraw as [H1 H2]. simpl in H2. now split. }
    destruct Hline as [->|Hin].
    + destruct Hl as [Hl _].
      rewrite !PyFacts.mem_app in Hl. unfold Spec.dash in Hl.
      cbn [Py.mem] in Hl. rewrite Ascii.eqb_refl in Hl.
      rewrite orb_true_l, orb_true_r in Hl. discriminate.
    + apply IH; tauto.
Qed.

Lemma X3_parse_books_by_lines_witness :
  Parser.parse_books "no separator here" = [].
Proof. apply X3_parse_books_by_lines. reflexivity. Defined.

(** ** More on the catalog store *)

Module CatalogMore.

Import Catalog Spec2.

Lemma index_of_fold books : index_of books = fold_left add_book books [].
Proof. reflexivity. Qed.

Lemma fold_get_other books : forall (d : index) k,
  (forall b, In b books -> entry_key b <> k) ->
  Dict.get (fold_left add_book books d) k = Dict.get d k.
Proof.
  induction books as [|book books IH]; intros d k Hk; simpl; [reflexivity|].
  rewrite IH by (intros b Hb; apply Hk; now right).
  unfold add_book. rewrite DictFacts.get_set.
  rewrite keqb_neq; [reflexivity|].
  intros ->. apply (Hk book); [now left|reflexivity].
Qed.

Lemma get_last pre book post :
  (forall b, In b post -> entry_key b <> entry_key book) ->
  Dict.get (index_of (pre ++ book :: post)) (entry_key book)
  = Some (available book).
Proof.
  intros Hpost. rewrite index_of_fold, fold_left_app. simpl.
  rewrite (fold_get_other _ _ _ Hpost). unfold add_book.
  now rewrite DictFacts.get_set, keqb_refl.
Qed.

(** The last entry of the catalog with a given key. *)
Lemma last_with_key books : forall book,
  In book books ->
  exists pre b post,
    books = pre ++ b :: post /\ entry_key b = entry_key book
    /\ forall b', In b' post -> entry_key b' <> entry_key book.
Proof.
  induction books as [|b0 books IH]; intros book Hin; [destruct Hin|].
  destruct (existsb (fun b => keqb (entry_key b) (entry_key book)) books) eqn:He.
  - apply existsb_exists in He. destruct He as (b1 & Hb1 & Hk).
    apply keqb_true in Hk.
    destruct (IH b1 Hb1) as (pre & b & post & -> & Hkb & Hpost).
    exists (b0 :: pre), b, post. split; [reflexivity|].
    split; [congruence|]. intros b' Hb'. rewrite <- Hk. now apply Hpost.
  - assert (Hnone : forall b', In b' books -> entry_key b' <> entry_key book).
    { intros b' Hb' Hk.
      assert (Ht : existsb (fun b => keqb (entry_key b) (entry_key book)) books = true).
      { apply existsb_exists. exists b'. split; [exact Hb'|].
        rewrite Hk. apply keqb_refl. }
      congruence. }
    destruct Hin as [->|Hin].
    + exists [], book, books. auto.
    + exfalso. now apply (Hnone book Hin).
Qed.

Lemma keys_set_NoDup (d : index) k v :
  NoDup (Dict.keys d) -> NoDup (Dict.keys (Dict.set d k v)).
Proof.
  induction d as [|[k0 v0] d IH]; intros Hn.
  - repeat constructor. intros [].
  - cbn [Dict.keys map fst] in Hn. inversion Hn as [|? ? Hk0 Hd]; subst.
    cbn [Dict.set]. destruct (keqb_spec k k0) as [->|Hne].
    + cbn [Dict.keys map fst]. now constructor.
    + cbn [Dict.keys map fst]. constructor; [|now apply IH].
      fold (Dict.keys (Dict.set d k v)).
      rewrite DictFacts.keys_set_In. intros [Heq|Hin]; [congruence|contradiction].
Qed.

Lemma fold_keys_NoDup books : forall d : index,
  NoDup (Dict.keys d) -> NoDup (Dict.keys (fold_left add_book books d)).
Proof.
  induction books as [|book books IH]; intros d Hd; simpl; [exact Hd|].
  apply IH. now apply keys_set_NoDup.
Qed.

End CatalogMore.

(** X4.  Among catalog entries with the same normalised title and author,
    the last one gives the value of the index: the entry after which no
    entry has its key is looked up with its own availability. *)
Theorem X4_last_duplicate_wins (pre post : Catalog.inventory)
    (book : Catalog.CatalogEntry) :
  (forall b, In b post -> Catalog.entry_key b <> Catalog.entry_key book) ->
  Dict.get (Catalog.index_of (pre ++ book :: post)) (Catalog.entry_key book)
  = Some (Catalog.available book).
Proof. apply CatalogMore.get_last. Qed.

Lemma X4_last_duplicate_wins_witness :
  Dict.get
    (Catalog.index_of
       ([{| Catalog.title := "Dune"; Catalog.author := "Frank Herbert";
            Catalog.available := "no" |}]
        ++ Example.dune :: []))
    (Catalog.entry_key Example.dune)
  = Some (Catalog.available Example.dune).
Proof. apply X4_last_duplicate_wins. intros b []. Defined.

(** X5.  No key occurs twice in the index, however many entries of the
    catalog share a normalised title and author. *)
Theorem X5_index_keys_unique (books : Catalog.inventory) :
  NoDup (Dict.keys (Catalog.index_of books)).
Proof.
  rewrite CatalogMore.index_of_fold. apply CatalogMore.fold_keys_NoDup.
  constructor.
Qed.



(** X7.  Every book of the catalog is found under its own title and
    author: the resolver returns, for any cutoff and whatever titles the
    session keeps, the availability of the last catalog entry with the
    same normalised title and author, and leaves the session as it is. *)
Theorem X7_catalogued_book_found (books : Catalog.inventory)
    (titles : option (list string)) (book : Catalog.CatalogEntry) (cutoff : Q) :
  In book books ->
  exists pre b post,
    books = pre ++ b :: post
    /\ Catalog.entry_key b = Catalog.entry_key book
    /\ (forall b', In b' post -> Catalog.entry_key b' <> Catalog.entry_key book)
    /\ Resolver.find_in_inventory
         {| Resolver.inventory_lookup := Catalog.index_of books;
            Resolver.all_titles := titles |}
         (Catalog.title book) (Catalog.author book) cutoff
       = (Ok (Catalog.available b),
          {| Resolver.inventory_lookup := Catalog.index_of books;
             Resolver.all_titles := titles |}).
Proof.
  intros Hin.
  destruct (CatalogMore.last_with_key books book Hin)
    as (pre & b & post & -> & Hk & Hpost).
  exists pre, b, post. repeat split; auto.
  apply ResolverFacts.find_exact. simpl.
  change (Catalog.normalize (Catalog.title book),
          Catalog.normalize (Catalog.author book))
    with (Catalog.entry_key book).
  rewrite <- Hk. apply CatalogMore.get_last.
  intros b' Hb'. rewrite Hk. now apply Hpost.
Qed.

Lemma X7_catalogued_book_found_witness :
  exists pre b post,
    [Example.dune] = pre ++ b :: post
    /\ Catalog.entry_key b = Catalog.entry_key Example.dune
    /\ (forall b', In b' post ->
                   Catalog.entry_key b' <> Catalog.entry_key Example.dune)
    /\ Resolver.find_in_inventory
         {| Resolver.inventory_lookup := Catalog.index_of [Example.dune];
            Resolver.all_titles := None |}
         (Catalog.title Example.dune) (Catalog.author Example.dune) (Qmake 5 1)
       = (Ok (Catalog.available b),
          {| Resolver.inventory_lookup := Catalog.index_of [Example.dune];
             Resolver.all_titles := None |}).
Proof. apply X7_catalogued_book_found. now left. Defined.

(** ** Normalisation *)

Module NormalizeFacts.

Import Spec.

(** Lower-casing turns no character into whitespace and no whitespace
    into another character, and does nothing to a lower-cased character:
    by inspection of the 256 characters. *)
Lemma lower_char_space c : Py.is_space (Py.lower_char c) = Py.is_space c.
Proof.
  destruct c as [[] [] [] [] [] [] [] []]; vm_compute; reflexivity.
Qed.

Lemma lower_char_twice c : Py.lower_char (Py.lower_char c) = Py.lower_char c.
Proof.
  destruct c as [[] [] [] [] [] [] [] []]; vm_compute; reflexivity.
Qed.

Lemma lower_twice s : Py.lower (Py.lower s) = Py.lower s.
Proof.
  induction s as [|c s IH]; simpl; [reflexivity|].
  now rewrite lower_char_twice, IH.
Qed.

Lemma lower_lstrip s :
  Py.lower (Py.lstrip_by Py.is_space s) = Py.lstrip_by Py.is_space (Py.lower s).
Proof.
  induction s as [|c s IH]; simpl; [reflexivity|].
  rewrite lower_char_space. destruct (Py.is_space c); [exact IH|reflexivity].
Qed.

Lemma lower_is_empty s : Py.is_empty (Py.lower s) = Py.is_empty s.
Proof. destruct s; reflexivity. Qed.

Lemma lower_rstrip s :
  Py.lower (Py.rstrip_by Py.is_space s) = Py.rstrip_by Py.is_space (Py.lower s).
Proof.
  induction s as [|c s IH]; simpl; [reflexivity|].
  rewrite <- IH, lower_is_empty, lower_char_space.
  destruct (_ && _); reflexivity.
Qed.

Lemma lower_strip s : Py.lower (Py.strip s) = Py.strip (Py.lower s).
Proof.
  unfold Py.strip, Py.strip_by. now rewrite lower_rstrip, lower_lstrip.
Qed.

Lemma strip_by_twice p s : Py.strip_by p (Py.strip_by p s) = Py.strip_by p s.
Proof.
  destruct (PyFacts.strip_by_stripped p s) as (l & t & _ & _ & _ & Hf & Hl).
  rewrite <- (StripFacts.append_empty_r (Py.strip_by p s)) at 1.
  apply (StripFacts.strip_by_unique p "" (Py.strip_by p s) ""); auto.
Qed.

Lemma normalize_twice s :
  Catalog.normalize (Catalog.normalize s) = Catalog.normalize s.
Proof.
  unfold Catalog.normalize.
  rewrite lower_strip, lower_twice. apply strip_by_twice.
Qed.

End NormalizeFacts.

(** X8.  Normalising is idempotent, and the resolver reads a title and an
    author through their normalised forms only: two queries that differ
    in case or in surrounding whitespace get the same answer and leave
    the same session. *)
Theorem X8_resolver_reads_normalised_forms :
  (forall s, Catalog.normalize (Catalog.normalize s) = Catalog.normalize s)
  /\ (forall st title author title' author' cutoff,
        Catalog.normalize title = Catalog.normalize title' ->
        Catalog.normalize author = Catalog.normalize author' ->
        Resolver.find_in_inventory st title author cutoff
        = Resolver.find_in_inventory st title' author' cutoff)
  /\ (forall st title author cutoff,
        Resolver.find_in_inventory st (Catalog.normalize title)
          (Catalog.normalize author) cutoff
        = Resolver.find_in_inventory st title author cutoff).
Proof.
  assert (H : forall st title author title' author' cutoff,
             Catalog.normalize title = Catalog.normalize title' ->
             Catalog.normalize author = Catalog.normalize author' ->
             Resolver.find_in_inventory st title author cutoff
             = Resolver.find_in_inventory st title' author' cutoff).
  { intros st title author title' author' cutoff Ht Ha.
    unfold Resolver.find_in_inventory.
    fold (Catalog.normalize title). fold (Catalog.normalize author).
    fold (Catalog.normalize title'). fold (Catalog.normalize author').
    now rewrite Ht, Ha. }
  split; [exact NormalizeFacts.normalize_twice|]. split; [exact H|].
  intros st title author cutoff.
  apply H; apply NormalizeFacts.normalize_twice.
Qed.

Lemma X8_resolver_reads_normalised_forms_witness :
  Resolver.find_in_inventory Example.dune_session "  DUNE" "frank HERBERT "
    Resolver.default_cutoff
  = Resolver.find_in_inventory Example.dune_session "Dune" "Frank Herbert"
      Resolver.default_cutoff.
Proof.
  apply X8_resolver_reads_normalised_forms; reflexivity.
Defined.

(** X9.  A call of the resolver never changes the index, and never
    changes what a later call answers. *)
Theorem X9_resolver_calls_do_not_interfere (st : Resolver.session)
    (title author : string) (cutoff : Q) (title' author' : string)
    (cutoff' : Q) :
  Resolver.inventory_lookup
    (snd (Resolver.find_in_inventory st title' author' cutoff'))
  = Resolver.inventory_lookup st
  /\ fst (Resolver.find_in_inventory
            (snd (Resolver.find_in_inventory st title' author' cutoff'))
            title author cutoff)
     = fst (Resolver.find_in_inventory st title author cutoff).
Proof.
  split.
  - apply ScriptFacts.find_session.
  - apply ScriptFacts.find_after_find.
Qed.

(** X10.  Titles kept in the session that are no titles of the index make
    the fuzzy matching useless: when none of them is the title of a key,
    every query without exact match is answered ["Not in Inventory"]
    (cutoff in [0,1]), however close a title of the index is. *)
Theorem X10_stale_titles_hide_the_index (st : Resolver.session)
    (kept : list string) (title author : string) (cutoff : Q) :
  Resolver.all_titles st = Some kept ->
  (forall t k, In t kept -> In k (Dict.keys (Resolver.inventory_lookup st)) ->
               fst k <> t) ->
  (0 <= cutoff /\ cutoff <= 1)%Q ->
  Dict.contains (Resolver.inventory_lookup st)
    (Catalog.normalize title, Catalog.normalize author) = false ->
  fst (Resolver.find_in_inventory st title author cutoff)
  = Ok Resolver.not_in_inventory.
Proof.
  intros Hkept Hstale Hc Hno.
  destruct (ResolverCases.fuzzy_outcome st title author cutoff Hc Hno)
    as [H|(best & k & v & Hbest & _ & Hf & _)]; [exact H|].
  exfalso. unfold Inv.titles_used in Hbest. rewrite Hkept in Hbest.
  destruct (ResolverFacts.first_with_title_Some _ _ _ Hf)
    as (pre & post & Hks & Hk & _).
  apply (Hstale best k Hbest); [|exact Hk].
  rewrite Hks. apply in_or_app. right. now left.
Qed.

Lemma X10_stale_titles_hide_the_index_witness :
  fst (Resolver.find_in_inventory Started.stale_session "Dune " "Unknown Author"
         Resolver.default_cutoff)
  = Ok Resolver.not_in_inventory.
Proof.
  apply (X10_stale_titles_hide_the_index Started.stale_session ["foundation"]).
  - reflexivity.
  - intros t k [<-|[]] [<-|[]]. discriminate.
  - split; discriminate.
  - reflexivity.
Defined.

(** ** More on the matcher *)

Module MatcherMore.

Import Difflib MatchSpec Counting.

Lemma calculate_ratio_bounds m t :
  2 * m <= t -> (0 <= calculate_ratio m t /\ calculate_ratio m t <= 1)%Q.
Proof.
  intros H. unfold calculate_ratio. destruct (Nat.eqb_spec t 0) as [->|Ht].
  - split; discriminate.
  - unfold Qle. cbn [Qnum Qden]. split; [lia|].
    rewrite Z.mul_1_r, Z.mul_1_l.
    replace (Z.pos (Pos.of_nat t)) with (Z.of_nat t); [lia|].
    destruct t as [|t]; [congruence|].
    now rewrite <- Pos.of_nat_succ, Zpos_P_of_succ_nat, <- Nat2Z.inj_succ.
Qed.

Lemma matches_at_app a b i j k1 k2 :
  matches_at a b i j k1 -> matches_at a b (i + k1) (j + k1) k2 ->
  matches_at a b i j (k1 + k2).
Proof.
  intros H1 H2 d Hd. destruct (Nat.lt_ge_cases d k1) as [Hlt|Hge].
  - now apply H1.
  - destruct (H2 (d - k1) ltac:(lia)) as (x & Ha & Hb). exists x.
    replace (i + d) with (i + k1 + (d - k1)) by lia.
    replace (j + d) with (j + k1 + (d - k1)) by lia. auto.
Qed.

Section Seqs.
Variables a b : list ascii.

Local Abbreviation is_match := (Spec2.is_match a b).

Lemma ok_block_match alo ahi blo bhi x :
  ok_block a b alo ahi blo bhi x -> is_match x.
Proof. destruct x as [[i j] k]. unfold ok_block, Spec2.is_match. tauto. Qed.

Lemma blocks_loop_matches b2j :
  sound_b2j b b2j ->
  forall fuel queue mb res,
    Forall region_ok queue -> Forall is_match mb ->
    blocks_loop a b b2j fuel queue mb = Some res -> Forall is_match res.
Proof.
  intros Hsound.
  induction fuel as [|fuel IH]; intros [|[[[alo ahi] blo] bhi] q] mb res Hq Hmb.
  - simpl. now intros [= <-].
  - discriminate.
  - simpl. now intros [= <-].
  - inversion Hq as [|? ? Hr Hq']; subst. simpl in Hr. destruct Hr as [Ha Hb].
    rewrite BlocksFacts.blocks_loop_step.
    pose proof (LongestFacts.find_longest_match_ok a b b2j Hsound
                  alo ahi blo bhi Ha Hb) as Hok.
    destruct (find_longest_match a b b2j alo ahi blo bhi) as [[i j] k].
    destruct (Nat.eqb_spec k 0) as [->|Hk].
    + now apply IH.
    + destruct (BlocksFacts.pushed_facts a b _ _ _ _ _ _ _ q Hok ltac:(lia) Hq')
        as (Hf & _ & _).
      apply IH; [exact Hf|].
      apply Forall_app. split; [exact Hmb|].
      constructor; [|constructor]. eapply ok_block_match; eauto.
Qed.

Lemma blocks_loop_nonempty b2j :
  forall fuel queue mb res,
    Forall (fun x => block_size x <> 0) mb ->
    blocks_loop a b b2j fuel queue mb = Some res ->
    Forall (fun x => block_size x <> 0) res.
Proof.
  induction fuel as [|fuel IH]; intros [|[[[alo ahi] blo] bhi] q] mb res Hmb.
  - simpl. now intros [= <-].
  - discriminate.
  - simpl. now intros [= <-].
  - rewrite BlocksFacts.blocks_loop_step.
    destruct (find_longest_match a b b2j alo ahi blo bhi) as [[i j] k].
    destruct (Nat.eqb_spec k 0) as [->|Hk].
    + now apply IH.
    + apply IH. apply Forall_app. split; [exact Hmb|].
      constructor; [exact Hk|constructor].
Qed.

Lemma insert_Forall (P : block -> Prop) x l :
  P x -> Forall P l -> Forall P (insert_block x l).
Proof.
  intros Hx Hl. induction Hl as [|y l Hy Hl IH]; simpl.
  - auto.
  - destruct (block_leb x y); auto.
Qed.

Lemma sort_Forall (P : block -> Prop) l :
  Forall P l -> Forall P (sort_blocks l).
Proof.
  induction 1 as [|x l Hx Hl IH]; simpl; [constructor|].
  now apply insert_Forall.
Qed.

Lemma collapse_matches l : forall cur,
  is_match cur -> Forall is_match l -> Forall is_match (collapse cur l).
Proof.
  induction l as [|[[i2 j2] k2] l IH]; intros [[i1 j1] k1] Hcur Hl.
  - simpl. destruct (k1 =? 0); auto.
  - inversion Hl as [|? ? H2 Hl']; subst. cbn [collapse].
    destruct ((i1 + k1 =? i2) && (j1 + k1 =? j2)) eqn:Hadj.
    + apply andb_true_iff in Hadj. destruct Hadj as [Hi Hj].
      apply Nat.eqb_eq in Hi, Hj. subst i2 j2.
      apply IH; [|exact Hl']. now apply matches_at_app.
    + destruct (k1 =? 0); [now apply IH|]. constructor; [exact Hcur|now apply IH].
Qed.

Lemma collapse_nonempty l : forall cur,
  Forall (fun x => block_size x <> 0) l ->
  Forall (fun x => block_size x <> 0) (collapse cur l).
Proof.
  induction l as [|[[i2 j2] k2] l IH]; intros [[i1 j1] k1] Hl.
  - simpl. destruct (Nat.eqb_spec k1 0); auto.
  - inversion Hl as [|? ? H2 Hl']; subst. cbn [collapse].
    destruct ((i1 + k1 =? i2) && (j1 + k1 =? j2)).
    + destruct l as [|y l']; [|now apply IH].
      simpl. unfold block_size in H2. simpl in H2.
      destruct (Nat.eqb_spec (k1 + k2) 0); [lia|].
      constructor; [|constructor]. unfold block_size. simpl. lia.
    + destruct (Nat.eqb_spec k1 0); [now apply IH|].
      constructor; [exact n|now apply IH].
Qed.

End Seqs.

End MatcherMore.

(** X11.  A similarity is a ratio between 0 and 1, and the two quick
    ratios that [get_close_matches] tests first are upper bounds of it, so
    that they never reject a possibility the ratio accepts. *)
Theorem X11_similarity_bounds (a b : list ascii) :
  (0 <= Difflib.ratio a b)%Q /\ (Difflib.ratio a b <= 1)%Q
  /\ (Difflib.ratio a b <= Difflib.quick_ratio a b)%Q
  /\ (Difflib.quick_ratio a b <= Difflib.real_quick_ratio a b)%Q
  /\ (Difflib.real_quick_ratio a b <= 1)%Q.
Proof.
  pose proof (BlocksFacts.ratio_matches_le_common a b) as Hm.
  pose proof (CountingFacts.common_le_left a b) as Hl.
  pose proof (CountingFacts.common_le_right a b) as Hr.
  split; [|split; [|split; [|split]]].
  - apply MatcherMore.calculate_ratio_bounds. lia.
  - apply MatcherMore.calculate_ratio_bounds. lia.
  - apply RatioFacts.ratio_le_quick_ratio.
  - apply RatioFacts.calculate_ratio_mono.
    rewrite RatioFacts.quick_matches_common. lia.
  - apply MatcherMore.calculate_ratio_bounds. lia.
Qed.

(** X12.  [get_matching_blocks] returns, and what it returns is a list of
    blocks [(i, j, k)] with [k > 0] that stand for equal slices
    [a[i:i+k] == b[j:j+k]] of length [k], followed by the closing triple
    [(len(a), len(b), 0)]. *)
Theorem X12_matching_blocks_are_matches (a b : list ascii) :
  exists body,
    Difflib.get_matching_blocks a b
    = Some (body ++ [(List.length a, List.length b, 0)])
    /\ forall i j k, In (i, j, k) body ->
         0 < k
         /\ firstn k (skipn i a) = firstn k (skipn j b)
         /\ List.length (firstn k (skipn i a)) = k.
Proof.
  unfold Difflib.get_matching_blocks.
  assert (Hq : Forall MatchSpec.region_ok [(0, List.length a, 0, List.length b)])
    by (repeat constructor; lia).
  destruct (BlocksFacts.blocks_loop_terminates a b (Difflib.chain_b b)
              (LongestFacts.chain_b_sound b) (Difflib.blocks_fuel a)
              [(0, List.length a, 0, List.length b)] [] Hq) as (res & Hres).
  { unfold MatchSpec.weight, Difflib.blocks_fuel. simpl. lia. }
  rewrite Hres. eexists. split; [reflexivity|].
  pose proof (MatcherMore.blocks_loop_matches a b (Difflib.chain_b b)
                (LongestFacts.chain_b_sound b) _ _ _ _ Hq (Forall_nil _) Hres)
    as Hmatch.
  pose proof (MatcherMore.blocks_loop_nonempty a b (Difflib.chain_b b)
                _ _ _ _ (Forall_nil _) Hres) as Hpos.
  apply (MatcherMore.sort_Forall _ _) in Hmatch.
  apply (MatcherMore.sort_Forall _ _) in Hpos.
  apply (MatcherMore.collapse_matches a b _ (0, 0, 0)) in Hmatch.
  2:{ intros d Hd. lia. }
  apply (MatcherMore.collapse_nonempty _ (0, 0, 0)) in Hpos.
  rewrite Forall_forall in Hmatch, Hpos.
  intros i j k Hin.
  specialize (Hmatch _ Hin). specialize (Hpos _ Hin).
  unfold Difflib.block_size in Hpos. simpl in Hpos, Hmatch.
  split; [lia|]. now apply BlocksFacts.matches_firstn.
Qed.

(** X13.  [get_close_matches] with [n=1] raises [ValueError] exactly for a
    cutoff outside [0,1].  Otherwise it returns at most one string, a
    possibility whose similarity reaches the cutoff, and it returns none
    exactly when no possibility reaches the cutoff. *)
Theorem X13_close_matches_behaviour (word : string) (possibilities : list string)
    (cutoff : Q) :
  (~ (0 <= cutoff /\ cutoff <= 1)%Q ->
   Difflib.get_close_matches word possibilities cutoff = Raise ValueError)
  /\ ((0 <= cutoff /\ cutoff <= 1)%Q ->
      (Difflib.get_close_matches word possibilities cutoff = Ok []
       /\ forall x, In x possibilities ->
                    ~ (cutoff <= Difflib.similarity word x)%Q)
      \/ (exists best,
            Difflib.get_close_matches word possibilities cutoff = Ok [best]
            /\ In best possibilities
            /\ (cutoff <= Difflib.similarity word best)%Q)).
Proof.
  split; [apply ResolverFacts.get_close_matches_invalid|].
  intros Hc.
  destruct (ResolverFacts.close_matches_cases word possibilities cutoff Hc)
    as [Hnone|Hsome]; [left|now right].
  split; [exact Hnone|]. intros x Hx Hreach.
  destruct (BestFacts.close_matches_best word possibilities cutoff x Hc Hx Hreach)
    as (best & Hbest & _).
  rewrite Hbest in Hnone. discriminate.
Qed.

Lemma X13_close_matches_behaviour_witness :
  Difflib.get_close_matches "dune" ["dunes"] (Qmake 3 1) = Raise ValueError.
Proof.
  apply X13_close_matches_behaviour. intros [_ H]. now apply H.
Defined.

(** ** More on the cover fetcher *)

Module CoverMore.

Import CoverFetcher Endpoint NoCover.

Lemma replace_absent old new : forall s,
  Py.is_empty old = false -> Spec2.occurs_in old s = false ->
  Py.replace old new s = s.
Proof.
  intros s He. unfold Py.replace. rewrite He.
  induction s as [|c s IH]; [reflexivity|].
  cbn [Spec2.occurs_in Py.replace_from]. intros Ho.
  apply orb_false_iff in Ho. destruct Ho as [Hp Ho].
  rewrite Hp, (IH Ho). reflexivity.
Qed.

Lemma try_without_thumbnail data :
  document_without_thumbnail data ->
  exists r, (has_items <- py_in "items" (JDict data) ;;
             if negb has_items then Ok JNull
             else
               items <- subscript_str (JDict data) "items" ;;
               if negb (truthy items) then Ok JNull
               else
                 item <- subscript_0 items ;;
                 info <- subscript_str item "volumeInfo" ;;
                 links <- dict_get info "imageLinks" (JDict []) ;;
                 image <- dict_get links "thumbnail" JNull ;;
                 if truthy image then clean_image image else Ok image)%py = r
            /\ (r = Ok JNull \/ r = Raise KeyError).
Proof.
  intros Hdoc. eexists. split; [reflexivity|].
  simpl. unfold Dict.contains.
  destruct Hdoc as [Hi|[Hi|(item & rest & Hi & Hitem)]]; rewrite Hi; simpl; auto.
  destruct Hitem as [Hv|(info & Hv & Hinfo)]; rewrite Hv; simpl; auto.
  unfold Dict.get_default.
  destruct Hinfo as [Hl|(links & Hl & Ht)]; rewrite Hl; simpl; auto.
  unfold Dict.get_default. rewrite Ht. simpl. auto.
Qed.

End CoverMore.

(** X14.  The cover fetcher returns [None], without raising, when the
    request fails, when the status is an error, when the body is not JSON,
    and when the document has no ["items"], an empty list of items, or a
    first item without ["volumeInfo"], ["imageLinks"] or ["thumbnail"]. *)
Theorem X14_no_cover_is_none (net : CoverFetcher.network) (title author : string) :
  NoCover.nothing_to_return (net (CoverFetcher.cover_url title author)) ->
  CoverFetcher.get_book_cover net title author = Ok CoverFetcher.JNull.
Proof.
  intros [Hf|(status & body & Hr & Hwhy)].
  - now apply CoverFacts.cover_unreachable.
  - destruct Hwhy as [Hs|[->|(data & -> & Hdoc)]].
    + now apply (CoverFacts.cover_http_error net title author status body).
    + now apply (CoverFacts.cover_malformed_json net title author status).
    + unfold CoverFetcher.get_book_cover, CoverFetcher.get_book_cover_try.
      rewrite Hr. unfold CoverFetcher.raise_for_status.
      destruct (_ && _); [reflexivity|].
      cbn [bind CoverFetcher.response_json].
      destruct (CoverMore.try_without_thumbnail data Hdoc) as (r & -> & [->| ->]);
        reflexivity.
Qed.

Lemma X14_no_cover_is_none_witness :
  CoverFetcher.get_book_cover
    (fun _ => CoverFetcher.Response 200
                (Some (CoverFetcher.JDict [("totalItems", CoverFetcher.JNum 0)])))
    "Dune" "Frank Herbert"
  = Ok CoverFetcher.JNull.
Proof.
  apply X14_no_cover_is_none. right.
  exists 200, (Some (CoverFetcher.JDict [("totalItems", CoverFetcher.JNum 0)])).
  split; [reflexivity|]. right. right. eexists. split; [reflexivity|].
  left. reflexivity.
Defined.

(** X15.  On a document shaped as the metadata service shapes them, the
    cover fetcher does not raise, whatever the status: it returns [None]
    or a string. *)
Theorem X15_shaped_document_gives_none_or_string (net : CoverFetcher.network)
    (title author : string) (status : nat) (data : CoverFetcher.json) :
  net (CoverFetcher.cover_url title author)
  = CoverFetcher.Response status (Some data) ->
  Endpoint.document_shaped data ->
  exists image,
    CoverFetcher.get_book_cover net title author = Ok image
    /\ (image = CoverFetcher.JNull \/ exists s, image = CoverFetcher.JStr s).
Proof.
  unfold CoverFetcher.get_book_cover, CoverFetcher.get_book_cover_try,
    CoverFetcher.raise_for_status.
  intros -> Hdoc.
  destruct (_ && _); [exists CoverFetcher.JNull; auto|]. simpl.
  destruct Hdoc as (d & -> & Hitems). simpl. unfold Dict.contains.
  destruct (Dict.get d "items") as [items|] eqn:Hi; simpl;
    [|exists CoverFetcher.JNull; auto].
  destruct (Hitems _ eq_refl) as (l & -> & Hl).
  destruct l as [|item l]; simpl; [exists CoverFetcher.JNull; auto|].
  inversion Hl as [|? ? (di & -> & Hinfo) _]; subst. simpl.
  destruct (Dict.get di "volumeInfo") as [info|] eqn:Hv; simpl;
    [|exists CoverFetcher.JNull; auto].
  destruct (Hinfo _ eq_refl) as (dv & -> & Hlinks). simpl.
  unfold Dict.get_default.
  destruct (Dict.get dv "imageLinks") as [links|] eqn:Hk; simpl.
  - destruct (Hlinks _ eq_refl) as (dl & -> & Hthumb). simpl.
    unfold Dict.get_default.
    destruct (Dict.get dl "thumbnail") as [x|] eqn:Ht; simpl;
      [|exists CoverFetcher.JNull; auto].
    destruct (Hthumb _ eq_refl) as (s & ->). simpl.
    destruct (negb (Py.is_empty s)); simpl; eexists; split; eauto.
  - exists CoverFetcher.JNull; auto.
Qed.

Lemma X15_shaped_document_gives_none_or_string_witness :
  exists image,
    CoverFetcher.get_book_cover (Endpoint.with_thumbnail "http://c/x.jpg")
      "Dune" "Frank Herbert" = Ok image
    /\ (image = CoverFetcher.JNull \/ exists s, image = CoverFetcher.JStr s).
Proof.
  eapply (X15_shaped_document_gives_none_or_string _ "Dune" "Frank Herbert" 200).
  - reflexivity.
  - eexists. split; [reflexivity|]. intros items [= <-].
    eexists. split; [reflexivity|]. constructor; [|constructor].
    eexists. split; [reflexivity|]. intros info [= <-].
    eexists. split; [reflexivity|]. intros links [= <-].
    eexists. split; [reflexivity|]. intros x [= <-]. eauto.
Defined.



(** X17.  A thumbnail address that starts with ["http://"] is returned
    starting with ["https://"], and an address that holds neither
    ["http://"] nor ["&edge=curl"] is returned as it is. *)
Theorem X17_clean_url :
  (forall rest,
     exists tail,
       CoverFetcher.clean_url ("http://" ++ rest) = ("https://" ++ tail)%string)
  /\ (forall url,
        Spec2.occurs_in "http://" url = false ->
        Spec2.occurs_in "&edge=curl" url = false ->
        CoverFetcher.clean_url url = url).
Proof.
  split.
  - intros rest. unfold CoverFetcher.clean_url, Py.replace.
    destruct rest as [|c rest]; simpl; eexists; reflexivity.
  - intros url H1 H2. unfold CoverFetcher.clean_url.
    rewrite (CoverMore.replace_absent "http://" "https://" url eq_refl H1).
    apply (CoverMore.replace_absent "&edge=curl" "" url eq_refl H2).
Qed.

Lemma X17_clean_url_witness :
  CoverFetcher.clean_url "https://books.example/c?id=7"
  = "https://books.example/c?id=7".
Proof. apply X17_clean_url; reflexivity. Defined.

(** ** More on the aggregator *)

Module AggregatorMore.

Import CoverFetcher Aggregator.

Lemma fetch_ok net st t a r :
  fst (fetch_single_book_data net st t a) = Ok r ->
  title r = t /\ author r = a
  /\ fst (Resolver.find_in_inventory st t a Resolver.default_cutoff)
     = Ok (availability r)
  /\ get_book_cover net t a = Ok (cover r).
Proof.
  unfold fetch_single_book_data.
  destruct (Resolver.find_in_inventory st t a Resolver.default_cutoff) as [[v|e] st'];
    simpl; [|discriminate].
  destruct (get_book_cover net t a) as [c|e]; simpl; [|discriminate].
  intros [= <-]. simpl. auto.
Qed.

(** Each future is the outcome of its book's task on a session that holds
    the index of the session at the start. *)
Lemma run_tasks_futures net : forall tasks st f,
  In f (fst (run_tasks net st tasks)) ->
  In (snd f) tasks
  /\ exists st',
       Resolver.inventory_lookup st' = Resolver.inventory_lookup st
       /\ fst f = fst (fetch_single_book_data net st' (fst (snd f)) (snd (snd f))).
Proof.
  induction tasks as [|[t a] rest IH]; intros st f; simpl; [tauto|].
  pose proof (AggregatorFacts.fetch_session net st t a) as Hs.
  destruct (fetch_single_book_data net st t a) as [r st1] eqn:Hf.
  specialize (IH st1 f).
  destruct (run_tasks net st1 rest) as [fs st2]. simpl in *.
  intros [<-|Hin].
  - split; [now left|]. exists st. simpl. rewrite Hf. auto.
  - destruct (IH Hin) as [Hb (st' & Hl & He)]. split; [now right|].
    exists st'. split; [|exact He]. rewrite Hl, Hs.
    apply ScriptFacts.find_session.
Qed.

Lemma gather_In futures completion r :
  In r (flat_map (gather futures) completion) ->
  exists f, In f futures /\ r = record_of f.
Proof.
  rewrite in_flat_map. intros (i & _ & Hr). unfold gather in Hr.
  destruct (nth_error futures i) as [f|] eqn:Hn; [|destruct Hr].
  destruct Hr as [<-|[]]. exists f. split; [|reflexivity].
  eapply nth_error_In; eauto.
Qed.

End AggregatorMore.

(** X18.  A task fails exactly when its cover fetch raises: the resolver,
    called with the default cutoff, never makes it fail.  When it
    succeeds, its record carries the title and the author as they were
    passed, the resolver's answer and the fetcher's cover. *)
Theorem X18_task_outcome (net : CoverFetcher.network) (st : Resolver.session)
    (book_title author : string) :
  raises (fst (Aggregator.fetch_single_book_data net st book_title author))
  = raises (CoverFetcher.get_book_cover net book_title author)
  /\ forall r,
       fst (Aggregator.fetch_single_book_data net st book_title author) = Ok r ->
       Aggregator.title r = book_title /\ Aggregator.author r = author
       /\ fst (Resolver.find_in_inventory st book_title author
                 Resolver.default_cutoff) = Ok (Aggregator.availability r)
       /\ CoverFetcher.get_book_cover net book_title author
          = Ok (Aggregator.cover r).
Proof.
  split.
  - apply AggregatorFacts.fetch_raises.
  - apply AggregatorMore.fetch_ok.
Qed.

Lemma X18_task_outcome_witness :
  Aggregator.title
    {| Aggregator.title := "Foundation"; Aggregator.author := "Isaac Asimov";
       Aggregator.availability := "Not in Inventory";
       Aggregator.cover := CoverFetcher.JStr "https://covers.example/f.jpg" |}
  = "Foundation".
Proof.
  apply (X18_task_outcome Outage.net Example.dune_session "Foundation"
           "Isaac Asimov").
  reflexivity.
Defined.

(** X19.  Whatever the order of completion, every record of the result is
    that of a parsed book, with the book's title and author as parsed, and
    its availability is ["Error"], ["Not in Inventory"] or a value stored
    in the index. *)
Theorem X19_records_of_parsed_books (net : CoverFetcher.network)
    (st : Resolver.session) (completion : list nat) (suggestions : string)
    (r : Aggregator.BookResult) :
  In r (Aggregator.check_inventory_with_images net st completion suggestions) ->
  In (Aggregator.title r, Aggregator.author r) (Parser.parse_books suggestions)
  /\ (Aggregator.availability r = "Error"
      \/ Aggregator.availability r = Resolver.not_in_inventory
      \/ exists k, Dict.get (Resolver.inventory_lookup st) k
                   = Some (Aggregator.availability r)).
Proof.
  unfold Aggregator.check_inventory_with_images. intros Hin.
  apply AggregatorMore.gather_In in Hin. destruct Hin as (f & Hf & ->).
  destruct (AggregatorMore.run_tasks_futures net _ st f Hf)
    as [Hbook (st' & Hl & He)].
  destruct f as [res [t a]]. simpl in *. unfold Aggregator.record_of. simpl.
  destruct res as [r|e].
  - symmetry in He.
    destruct (AggregatorMore.fetch_ok net st' t a r He) as (Ht & Ha & Hv & _).
    rewrite Ht, Ha. split; [exact Hbook|].
    destruct (ResolverCases.find_valid st' t a Resolver.default_cutoff
                AggregatorFacts.default_cutoff_valid)
      as (v & Hv' & [->|(k & _ & Hk)]);
      rewrite Hv in Hv'; injection Hv' as <-.
    + right. now left.
    + right. right. exists k. now rewrite <- Hl.
  - simpl. split; [exact Hbook|]. now left.
Qed.

Lemma X19_records_of_parsed_books_witness :
  In ("Dune", "Frank Herbert") (Parser.parse_books Spec.dune_foundation)
  /\ ("Error" = "Error"
      \/ "Error" = Resolver.not_in_inventory
      \/ exists k, Dict.get (Resolver.inventory_lookup Example.dune_session) k
                   = Some "Error").
Proof.
  apply (X19_records_of_parsed_books Outage.net Example.dune_session [1; 0]
           Spec.dune_foundation
           {| Aggregator.title := "Dune"; Aggregator.author := "Frank Herbert";
              Aggregator.availability := "Error";
              Aggregator.cover := CoverFetcher.JNull |}).
  vm_compute. right. left. reflexivity.
Defined.

(** X20.  When the futures complete in the order of submission, the
    records list the books in the order of the text. *)
Theorem X20_in_order_completion (net : CoverFetcher.network)
    (st : Resolver.session) (suggestions : string) :
  map (fun r => (Aggregator.title r, Aggregator.author r))
    (Aggregator.check_inventory_with_images net st
       (seq 0 (List.length (Parser.parse_books suggestions))) suggestions)
  = Parser.parse_books suggestions.
Proof.
  unfold Aggregator.check_inventory_with_images.
  set (tasks := Parser.parse_books suggestions).
  rewrite <- (AggregatorFacts.run_tasks_length net tasks st).
  rewrite AggregatorFacts.gather_all, map_map.
  etransitivity; [|apply (AggregatorFacts.run_tasks_books net tasks st)].
  apply map_ext_in. intros [res [t a]] Hf.
  destruct (AggregatorMore.run_tasks_futures net _ st _ Hf) as [_ (st' & _ & He)].
  unfold Aggregator.record_of. simpl in *.
  destruct res as [r|e]; [|reflexivity].
  symmetry in He.
  destruct (AggregatorMore.fetch_ok net st' t a r He) as (Ht & Ha & _).
  now rewrite Ht, Ha.
Qed.

(** ** The request cache of the page *)

Module PageFacts.

Import Page Spec2.

Lemma cut_unique u : forall a a' x x',
  Py.mem u a = false -> Py.mem u a' = false ->
  (a ++ String u x)%string = (a' ++ String u x')%string ->
  a = a' /\ x = x'.
Proof.
  induction a as [|c a IH]; intros [|c' a'] x x'; simpl.
  - intros _ _ [= ->]. auto.
  - intros _ H [= <- _]. rewrite Ascii.eqb_refl in H. discriminate.
  - intros H _ [= -> _]. rewrite Ascii.eqb_refl in H. discriminate.
  - rewrite !orb_false_iff. intros [_ Ha] [_ Ha'] [= -> He].
    destruct (IH _ _ _ Ha Ha' He) as [-> ->]. auto.
Qed.

Lemma or_else_free u s :
  Py.mem u s = false -> Py.mem u "none" = false ->
  Py.mem u (or_else s "none") = false.
Proof. unfold or_else. destruct (Py.is_empty s); auto. Qed.

Lemma or_else_nonempty s d : Py.is_empty s = false -> or_else s d = s.
Proof. unfold or_else. now intros ->. Qed.

Lemma app_cons_neq a c b : (a ++ String c b)%string <> a.
Proof.
  induction a as [|d a IH]; simpl; [discriminate|].
  intros [= H]. now apply IH.
Qed.

Lemma is_empty_app_cons s c t : Py.is_empty (s ++ String c t) = false.
Proof. destruct s; reflexivity. Qed.

(** The cache after a request holds the books shown for the request's
    key. *)
Lemma handled_cached generate net completion pg r :
  exists cache,
    recommendations_cache (snd (get_recommendations generate net completion pg r))
    = Some cache
    /\ Dict.get cache (cache_key r)
       = Some (fst (get_recommendations generate net completion pg r)).
Proof.
  unfold get_recommendations.
  destruct (Dict.get _ (cache_key r)) as [books|] eqn:Hg; simpl.
  - eexists. split; [reflexivity|exact Hg].
  - eexists. split; [reflexivity|].
    now rewrite DictFacts.get_set, keqb_refl.
Qed.

Lemma hit pg cache books generate net completion r :
  recommendations_cache pg = Some cache ->
  Dict.get cache (cache_key r) = Some books ->
  get_recommendations generate net completion pg r = (books, pg).
Proof.
  intros Hc Hg. unfold get_recommendations. rewrite Hc, Hg.
  destruct pg as [s c]. simpl in *. now rewrite Hc.
Qed.



End PageFacts.

(** X21.  Two different requests can have the same cache key: an
    underscore moves between the last book and the favourite author, and
    an empty field is keyed like the word ["none"]. *)
Theorem X21_cache_key_collisions :
  (forall a b c genre language age_group,
     a <> EmptyString -> c <> EmptyString ->
     Page.cache_key
       {| Page.last_book := a ++ "_" ++ b; Page.fav_author := c;
          Page.selected_genre := genre; Page.selected_language := language;
          Page.selected_age_group := age_group |}
     = Page.cache_key
         {| Page.last_book := a; Page.fav_author := b ++ "_" ++ c;
            Page.selected_genre := genre; Page.selected_language := language;
            Page.selected_age_group := age_group |}
     /\ (a ++ "_" ++ b)%string <> a)
  /\ (forall author genre language age_group,
        Page.cache_key
          {| Page.last_book := ""; Page.fav_author := author;
             Page.selected_genre := genre; Page.selected_language := language;
             Page.selected_age_group := age_group |}
        = Page.cache_key
            {| Page.last_book := "none"; Page.fav_author := author;
               Page.selected_genre := genre; Page.selected_language := language;
               Page.selected_age_group := age_group |}).
Proof.
  split; [|reflexivity].
  intros a b c genre language age_group Ha Hc. split.
  - unfold Page.cache_key. simpl.
    rewrite (PageFacts.or_else_nonempty (a ++ String "_" b));
      [|apply PageFacts.is_empty_app_cons].
    rewrite (PageFacts.or_else_nonempty (b ++ String "_" c));
      [|apply PageFacts.is_empty_app_cons].
    rewrite (PageFacts.or_else_nonempty a); [|destruct a; [now contradiction Ha|reflexivity]].
    rewrite (PageFacts.or_else_nonempty c); [|destruct c; [now contradiction Hc|reflexivity]].
    rewrite !StripFacts.append_assoc. reflexivity.
  - apply PageFacts.app_cons_neq.
Qed.

Lemma X21_cache_key_collisions_witness :
  Page.cache_key
    {| Page.last_book := "It" ++ "_" ++ "1986"; Page.fav_author := "King";
       Page.selected_genre := "Any"; Page.selected_language := "Any";
       Page.selected_age_group := "Any" |}
  = Page.cache_key
      {| Page.last_book := "It"; Page.fav_author := "1986" ++ "_" ++ "King";
         Page.selected_genre := "Any"; Page.selected_language := "Any";
         Page.selected_age_group := "Any" |}
  /\ ("It" ++ "_" ++ "1986")%string <> "It".
Proof.
  apply (proj1 X21_cache_key_collisions "It" "1986" "King"); discriminate.
Defined.

(** X22.  Without underscores in the last book, the favourite author, the
    genre and the language, the cache key determines the request, up to
    an empty text field being the word ["none"]. *)
Theorem X22_cache_key_injective (r r' : Page.request) :
  Py.mem Spec2.underscore (Page.last_book r) = false ->
  Py.mem Spec2.underscore (Page.fav_author r) = false ->
  Py.mem Spec2.underscore (Page.selected_genre r) = false ->
  Py.mem Spec2.underscore (Page.selected_language r) = false ->
  Py.mem Spec2.underscore (Page.last_book r') = false ->
  Py.mem Spec2.underscore (Page.fav_author r') = false ->
  Py.mem Spec2.underscore (Page.selected_genre r') = false ->
  Py.mem Spec2.underscore (Page.selected_language r') = false ->
  Page.cache_key r = Page.cache_key r' ->
  Page.or_else (Page.last_book r) "none" = Page.or_else (Page.last_book r') "none"
  /\ Page.or_else (Page.fav_author r) "none"
     = Page.or_else (Page.fav_author r') "none"
  /\ Page.selected_genre r = Page.selected_genre r'
  /\ Page.selected_language r = Page.selected_language r'
  /\ Page.selected_age_group r = Page.selected_age_group r'.
Proof.
  intros H1 H2 H3 H4 H1' H2' H3' H4' Hk. unfold Page.cache_key in Hk.
  cbn [String.append] in Hk.
  apply PageFacts.cut_unique in Hk;
    try (apply PageFacts.or_else_free; [assumption|reflexivity]).
  destruct Hk as [E1 Hk].
  apply PageFacts.cut_unique in Hk;
    try (apply PageFacts.or_else_free; [assumption|reflexivity]).
  destruct Hk as [E2 Hk].
  apply PageFacts.cut_unique in Hk; try assumption.
  destruct Hk as [E3 Hk].
  apply PageFacts.cut_unique in Hk; try assumption.
  destruct Hk as [E4 E5]. auto.
Qed.

Lemma X22_cache_key_injective_witness :
  Page.or_else "" "none" = Page.or_else "none" "none"
  /\ Page.or_else "Herbert" "none" = Page.or_else "Herbert" "none"
  /\ "Fantasy" = "Fantasy" /\ "English" = "English" /\ "Any" = "Any".
Proof.
  apply (X22_cache_key_injective
           {| Page.last_book := ""; Page.fav_author := "Herbert";
              Page.selected_genre := "Fantasy";
              Page.selected_language := "English";
              Page.selected_age_group := "Any" |}
           {| Page.last_book := "none"; Page.fav_author := "Herbert";
              Page.selected_genre := "Fantasy";
              Page.selected_language := "English";
              Page.selected_age_group := "Any" |});
    reflexivity.
Defined.

(** X23.  Once a request is handled, every request with the same cache
    key is served from the cache: it shows the same books and leaves the
    page as it is, without the generator, the network or the resolver
    having a say. *)
Theorem X23_repeated_request_is_served_from_cache
    (generate generate' : Page.generator) (net net' : CoverFetcher.network)
    (completion completion' : nat -> list nat) (pg : Page.page)
    (r r' : Page.request) :
  Page.cache_key r' = Page.cache_key r ->
  Page.get_recommendations generate' net' completion'
    (snd (Page.get_recommendations generate net completion pg r)) r'
  = (fst (Page.get_recommendations generate net completion pg r),
     snd (Page.get_recommendations generate net completion pg r)).
Proof.
  intros Hk.
  destruct (PageFacts.handled_cached generate net completion pg r)
    as (cache & Hc & Hg).
  apply (PageFacts.hit _ cache); [exact Hc|]. now rewrite Hk.
Qed.

Lemma X23_repeated_request_is_served_from_cache_witness :
  Page.get_recommendations Spec2.failing Outage.net Spec2.in_order
    (snd (Page.get_recommendations
            (Spec2.answering Spec.dune_foundation) Outage.net Spec2.in_order
            Spec2.fresh_page Spec2.dune_request))
    Spec2.dune_request
  = (fst (Page.get_recommendations
            (Spec2.answering Spec.dune_foundation) Outage.net Spec2.in_order
            Spec2.fresh_page Spec2.dune_request),
     snd (Page.get_recommendations
            (Spec2.answering Spec.dune_foundation) Outage.net Spec2.in_order
            Spec2.fresh_page Spec2.dune_request)).
Proof.
  apply X23_repeated_request_is_served_from_cache. reflexivity.
Defined.



(** X25.  The card of a book whose task failed carries the warning badge,
    the badge of a book that is not in the inventory; the two other badges
    go to the availabilities that are ["yes"] and ["no"] once
    lower-cased. *)
Theorem X25_badges :
  (forall f e, fst f = Raise e ->
     Page.availability_badge (Aggregator.record_of f) = Page.BadgeWarning)
  /\ (forall book,
        Aggregator.availability book = Resolver.not_in_inventory ->
        Page.availability_badge book = Page.BadgeWarning)
  /\ (forall book,
        Page.availability_badge book = Page.BadgeAvailable
        <-> Py.lower (Aggregator.availability book) = "yes")
  /\ (forall book,
        Page.availability_badge book = Page.BadgeNotAvailable
        <-> Py.lower (Aggregator.availability book) = "no").
Proof.
  split; [|split; [|split]].
  - intros f e He. rewrite (AggregatorFacts.record_of_failed f e He). reflexivity.
  - intros book Hb. unfold Page.availability_badge. rewrite Hb. reflexivity.
  - intros book. unfold Page.availability_badge.
    destruct (String.eqb_spec (Py.lower (Aggregator.availability book)) "yes")
      as [->|Hne]; [tauto|].
    destruct (String.eqb _ "no"); split; congruence.
  - intros book. unfold Page.availability_badge.
    destruct (String.eqb_spec (Py.lower (Aggregator.availability book)) "yes")
      as [->|Hne]; [split; discriminate|].
    destruct (String.eqb_spec (Py.lower (Aggregator.availability book)) "no")
      as [->|Hne']; [tauto|]. split; congruence.
Qed.

Lemma X25_badges_witness :
  Page.availability_badge
    {| Aggregator.title := "Dune"; Aggregator.author := "Frank Herbert";
       Aggregator.availability := "YES"; Aggregator.cover := CoverFetcher.JNull |}
  = Page.BadgeAvailable.
Proof. apply X25_badges. reflexivity. Defined.

(** ** The cache buttons *)

Module ButtonFacts.

Import Catalog Resolver Page Buttons.



End ButtonFacts.




